(** * ngx-typesafe-routes: path templates, URL building and route matching

    A shallow embedding of the library:
    - [route-registry.ts]: [buildPathsMap], [buildPath], [buildUrl],
      [validateParams], [getParamNames], and the types [ExtractAllPaths],
      [GetFullPath], [FindRoute];
    - the typed router service: [isActive], [getPath], [serializePath],
      [createUrl];
    - the snapshot accessors [getTypedParam], [getRequiredTypedParam],
      [paramSnapshot], [paramSnapshotRequired], and [url$];
    - [createTypedRedirect], [queryParamBoolean] and the two directives;
    - the types of [route-types.ts] ([JoinPath], [ExtractPathParams],
      [BuildRoutePaths], [NormalizePath]), as functions on strings and
      route trees;
    - the rules of the specification the code is compared with, in
      definitions of their own (names ending in [_spec]).

    JavaScript strings are sequences of UTF-16 code units and are modelled as
    [list N].  The host functions the code calls ([String.prototype.replace],
    [encodeURIComponent], [URLSearchParams], [RegExp]) are modelled after
    ECMAScript and the URL standard, as far as the code exercises them.  An
    object is the list of its own properties, in the order of its keys;
    where the code reads properties through the prototype chain
    ([validateParams]) or stores into a plain object ([buildPathsMap]), the
    chain and [Object.prototype] are part of the model. *)

From Stdlib Require Import String Ascii.
From Stdlib Require Import List NArith Bool Lia.
Import ListNotations.

Local Open Scope N_scope.

(* ================================================================== *)
(** ** JavaScript strings *)
(* ================================================================== *)

Definition jsstring := list N.

(** A string literal, code unit by code unit. *)
Definition js (s : string) : jsstring :=
  map N_of_ascii (list_ascii_of_string s).
Arguments js s%_string.

Definition colon : N := 58.      (* ':' *)
Definition slash : N := 47.      (* '/' *)
Definition question : N := 63.   (* '?' *)
Definition hash : N := 35.       (* '#' *)
Definition dollar : N := 36.     (* '$' *)
Definition percent : N := 37.    (* '%' *)
Definition backslash : N := 92.

Fixpoint str_eqb (a b : jsstring) : bool :=
  match a, b with
  | [], [] => true
  | x :: a', y :: b' => N.eqb x y && str_eqb a' b'
  | _, _ => false
  end.

(** [s.startsWith(p)] *)
Fixpoint startsWith (p s : jsstring) : bool :=
  match p, s with
  | [], _ => true
  | x :: p', y :: s' => N.eqb x y && startsWith p' s'
  | _ :: _, [] => false
  end.

(** The first occurrence of [pat] in [s]: the text before it and the text
    after it ([s.indexOf(pat)], as a split). *)
Fixpoint split_at_first (pat s : jsstring) : option (jsstring * jsstring) :=
  if startsWith pat s then Some ([], skipn (length pat) s)
  else match s with
       | [] => None
       | c :: r =>
           match split_at_first pat r with
           | Some (b, a) => Some (c :: b, a)
           | None => None
           end
       end.

(** [s.includes(pat)] *)
Definition includes (pat s : jsstring) : bool :=
  match split_at_first pat s with Some _ => true | None => false end.

(** [s.split("/")] *)
Fixpoint split_on (sep : N) (s : jsstring) : list jsstring :=
  match s with
  | [] => [[]]
  | c :: r =>
      if N.eqb c sep then [] :: split_on sep r
      else match split_on sep r with
           | seg :: segs => (c :: seg) :: segs
           | [] => [[c]]
           end
  end.

(** [segs.join("/")] *)
Fixpoint join_with (sep : N) (segs : list jsstring) : jsstring :=
  match segs with
  | [] => []
  | seg :: rest =>
      match rest with
      | [] => seg
      | _ :: _ => seg ++ sep :: join_with sep rest
      end
  end.

(** The regular-expression class [\w], on code units: [A-Za-z0-9_]. *)
Definition isWord (c : N) : bool :=
  (N.leb 48 c && N.leb c 57) || (N.leb 65 c && N.leb c 90)
  || (N.leb 97 c && N.leb c 122) || N.eqb c 95.

Fixpoint takeWhile (f : N -> bool) (s : jsstring) : jsstring :=
  match s with
  | [] => []
  | c :: r => if f c then c :: takeWhile f r else []
  end.

(* ================================================================== *)
(** ** The regular expression [/:(\w+)/g] *)
(* ================================================================== *)

(** A global scan of a string with [/:(\w+)/g] cuts it into the matches and
    the code units between them.  A match starts at a [':'] that is followed by
    at least one word character and takes the longest run of them; the scan
    resumes after the match.  [inword] tells that the code units read belong
    to the match that was just opened. *)
Inductive piece :=
| Char (c : N)
| Match (name : jsstring).

Fixpoint pieces_from (inword : bool) (s : jsstring) : list piece :=
  match s with
  | [] => []
  | c :: r =>
      if inword && isWord c then pieces_from true r
      else
        if N.eqb c colon then
          match takeWhile isWord r with
          | [] => Char c :: pieces_from false r
          | w => Match w :: pieces_from true r
          end
        else Char c :: pieces_from false r
  end.

Definition param_pieces (s : jsstring) : list piece := pieces_from false s.

(** The capture group of each match, that is [m.slice(1)] of the match [m]. *)
Fixpoint match_names (ps : list piece) : list jsstring :=
  match ps with
  | [] => []
  | Char _ :: r => match_names r
  | Match n :: r => n :: match_names r
  end.

(** [s.replace(/:(\w+)/g, rep)] for a replacement without ['$']. *)
Fixpoint render_pieces (rep : jsstring) (ps : list piece) : jsstring :=
  match ps with
  | [] => []
  | Char c :: r => c :: render_pieces rep r
  | Match _ :: r => rep ++ render_pieces rep r
  end.

(* ================================================================== *)
(** ** route-registry.ts: parameter names *)
(* ================================================================== *)

(** [getParamNames]:
    [const matches = path.match(/:(\w+)/g);
     return matches ? matches.map((m) => m.slice(1)) : [];] *)
Definition getParamNames (path : jsstring) : list jsstring :=
  match_names (param_pieces path).

(** The extraction as the specification words it, to be compared with
    [getParamNames]: split on ['/'], and for each non-empty segment whose
    first character is [':'] yield the remainder. *)
Definition segment_param (seg : jsstring) : list jsstring :=
  match seg with
  | c :: rest => if N.eqb c colon then [rest] else []
  | [] => []
  end.

Definition extractParameterNames_spec (template : jsstring) : list jsstring :=
  flat_map segment_param (split_on slash template).

(** A segment the two extractions agree on: it has no [':'] at all, or it is
    [':'] followed by one or more word characters. *)
Definition plain_segment (seg : jsstring) : bool :=
  forallb (fun c => negb (N.eqb c colon)) seg.

Definition param_segment (seg : jsstring) : bool :=
  match seg with
  | c :: w => N.eqb c colon && negb (str_eqb w []) && forallb isWord w
  | [] => false
  end.

Definition template_ok (template : jsstring) : bool :=
  forallb (fun seg => plain_segment seg || param_segment seg)
          (split_on slash template).


(* ================================================================== *)
(** ** Results of calls that may throw *)
(* ================================================================== *)

Inductive error :=
| URIError
| SyntaxError
| Error (message : jsstring).

Inductive outcome (A : Type) :=
| Returns (a : A)
| Throws (e : error).
Arguments Returns {A} a.
Arguments Throws {A} e.

Definition bind {A B : Type} (m : outcome A) (k : A -> outcome B) : outcome B :=
  match m with
  | Returns a => k a
  | Throws e => Throws e
  end.

Notation "x <- m ;; k" := (bind m (fun x => k))
  (at level 61, m at next level, right associativity).

(* ================================================================== *)
(** ** Host functions on strings *)
(* ================================================================== *)

(** A string is truthy when it is not empty. *)
Definition truthy (s : jsstring) : bool := negb (str_eqb s []).

(** [GetSubstitution] for a string pattern (no capture groups): in the
    replacement, [$$] stands for ['$'], [$&] for the matched text, [$`] for
    the text before the match, [$'] for the text after it; every other ['$']
    stands for itself. *)
Fixpoint getSubstitution (matched before after rep : jsstring) : jsstring :=
  match rep with
  | [] => []
  | c :: r =>
      if N.eqb c dollar then
        match r with
        | d :: r' =>
            if N.eqb d dollar then dollar :: getSubstitution matched before after r'
            else if N.eqb d 38 then matched ++ getSubstitution matched before after r'
            else if N.eqb d 96 then before ++ getSubstitution matched before after r'
            else if N.eqb d 39 then after ++ getSubstitution matched before after r'
            else c :: getSubstitution matched before after r
        | [] => [c]
        end
      else c :: getSubstitution matched before after r
  end.

(** [s.replace(pat, rep)] with a string pattern: only the first occurrence
    is replaced. *)
Definition String_replace (s pat rep : jsstring) : jsstring :=
  match split_at_first pat s with
  | Some (before, after) =>
      before ++ getSubstitution pat before after rep ++ after
  | None => s
  end.

(** [s.replace(/\/+/g, "/")]: every run of ['/'] becomes one ['/']; a ['/']
    followed by another one is dropped. *)
Fixpoint collapse_slashes (s : jsstring) : jsstring :=
  match s with
  | [] => []
  | c :: r =>
      if N.eqb c slash && match r with d :: _ => N.eqb d slash | [] => false end
      then collapse_slashes r
      else c :: collapse_slashes r
  end.

(** [s.replace(/^\//, "")] *)
Definition strip_leading_slash (s : jsstring) : jsstring :=
  match s with
  | c :: r => if N.eqb c slash then r else s
  | [] => []
  end.

(** [s.split(sep)[0]]: the text before the first [sep]. *)
Fixpoint before_first (sep : N) (s : jsstring) : jsstring :=
  match s with
  | [] => []
  | c :: r => if N.eqb c sep then [] else c :: before_first sep r
  end.

(** *** UTF-16, UTF-8 and percent-encoding *)

Definition isHighSurrogate (c : N) : bool := N.leb 0xD800 c && N.leb c 0xDBFF.
Definition isLowSurrogate (c : N) : bool := N.leb 0xDC00 c && N.leb c 0xDFFF.

Definition surrogate_pair (hi lo : N) : N :=
  (hi - 0xD800) * 0x400 + (lo - 0xDC00) + 0x10000.

Definition utf8 (cp : N) : list N :=
  if N.ltb cp 0x80 then [cp]
  else if N.ltb cp 0x800 then [0xC0 + cp / 64; 0x80 + cp mod 64]
  else if N.ltb cp 0x10000 then
    [0xE0 + cp / 4096; 0x80 + (cp / 64) mod 64; 0x80 + cp mod 64]
  else
    [0xF0 + cp / 262144; 0x80 + (cp / 4096) mod 64;
     0x80 + (cp / 64) mod 64; 0x80 + cp mod 64].

Definition hexDigit (d : N) : N := if N.ltb d 10 then 48 + d else 55 + d.

Definition pctByte (b : N) : jsstring :=
  [percent; hexDigit (b / 16); hexDigit (b mod 16)].

Definition isAlnum (c : N) : bool :=
  (N.leb 48 c && N.leb c 57) || (N.leb 65 c && N.leb c 90)
  || (N.leb 97 c && N.leb c 122).

(** The code units [encodeURIComponent] leaves alone: [A-Za-z0-9] and
    [- _ . ! ~ * ' ( )]. *)
Definition uriUnescaped (c : N) : bool :=
  isAlnum c
  || existsb (N.eqb c) [45; 95; 46; 33; 126; 42; 39; 40; 41].

(** [encodeURIComponent]: an unpaired surrogate raises [URIError]. *)
Fixpoint encodeURIComponent (s : jsstring) : outcome jsstring :=
  match s with
  | [] => Returns []
  | c :: r =>
      if uriUnescaped c then
        (t <- encodeURIComponent r ;; Returns (c :: t))
      else if isLowSurrogate c then Throws URIError
      else if isHighSurrogate c then
        match r with
        | d :: r' =>
            if isLowSurrogate d then
              (t <- encodeURIComponent r' ;;
               Returns (flat_map pctByte (utf8 (surrogate_pair c d)) ++ t))
            else Throws URIError
        | [] => Throws URIError
        end
      else
        (t <- encodeURIComponent r ;;
         Returns (flat_map pctByte (utf8 c) ++ t))
  end.

(** Conversion to a [USVString]: an unpaired surrogate becomes U+FFFD. *)
Fixpoint toUSVString (s : jsstring) : jsstring :=
  match s with
  | [] => []
  | c :: r =>
      if isLowSurrogate c then 0xFFFD :: toUSVString r
      else if isHighSurrogate c then
        match r with
        | d :: r' =>
            if isLowSurrogate d then c :: d :: toUSVString r'
            else 0xFFFD :: toUSVString r
        | [] => [0xFFFD]
        end
      else c :: toUSVString r
  end.

(** The scalar values (code points) of a string, an unpaired surrogate
    read as U+FFFD. *)
Fixpoint scalarValues (s : jsstring) : list N :=
  match s with
  | [] => []
  | c :: r =>
      if isLowSurrogate c then 0xFFFD :: scalarValues r
      else if isHighSurrogate c then
        match r with
        | d :: r' =>
            if isLowSurrogate d then surrogate_pair c d :: scalarValues r'
            else 0xFFFD :: scalarValues r
        | [] => [0xFFFD]
        end
      else c :: scalarValues r
  end.

(** The [application/x-www-form-urlencoded] byte serializer. *)
Definition formByte (b : N) : jsstring :=
  if N.eqb b 32 then [43]
  else if isAlnum b || existsb (N.eqb b) [42; 45; 46; 95] then [b]
  else pctByte b.

Definition formEncode (s : jsstring) : jsstring :=
  flat_map formByte (flat_map utf8 (scalarValues s)).

(* ================================================================== *)
(** ** Objects and [URLSearchParams] *)
(* ================================================================== *)

(** The own enumerable properties of an object, in the order
    [Object.entries] lists them.  What an object inherits is the matter of
    its prototype chain, see [JSObject] below. *)
Definition object (V : Type) := list (jsstring * V).

Fixpoint obj_get {V : Type} (key : jsstring) (o : object V) : option V :=
  match o with
  | [] => None
  | (k, v) :: r => if str_eqb k key then Some v else obj_get key r
  end.

(** [Object.hasOwn(o, key)] *)
Definition obj_has {V : Type} (key : jsstring) (o : object V) : bool :=
  match obj_get key o with Some _ => true | None => false end.

(** The value of an own property is replaced, or the property is added
    after the others: an existing property keeps its place. *)
Fixpoint obj_set {V : Type} (key : jsstring) (v : V) (o : object V) : object V :=
  match o with
  | [] => [(key, v)]
  | (k, w) :: r =>
      if str_eqb k key then (k, v) :: r else (k, w) :: obj_set key v r
  end.

Definition obj_keys {V : Type} (o : object V) : list jsstring := map fst o.

(** The array index a property key stands for, if any: the canonical
    decimal form of an integer below [2^32 - 1]. *)
Fixpoint decimal_value (acc : N) (s : jsstring) : option N :=
  match s with
  | [] => Some acc
  | c :: r =>
      if N.leb 48 c && N.leb c 57 then decimal_value (acc * 10 + (c - 48)) r
      else None
  end.

Definition array_index (key : jsstring) : option N :=
  match key with
  | [] => None
  | c :: r =>
      if N.eqb c 48 && negb (str_eqb r []) then None
      else match decimal_value 0 key with
           | Some n => if N.ltb n 4294967295 then Some n else None
           | None => None
           end
  end.

(** A new own property takes its place in the order of the own keys: the
    array indices come first, in ascending order, and the other keys follow
    in the order of their creation. *)
Fixpoint obj_insert {V : Type} (key : jsstring) (v : V) (o : object V) : object V :=
  match array_index key with
  | None => o ++ [(key, v)]
  | Some n =>
      match o with
      | [] => [(key, v)]
      | (k, w) :: r =>
          match array_index k with
          | Some m =>
              if N.ltb m n then (k, w) :: obj_insert key v r
              else (key, v) :: o
          | None => (key, v) :: o
          end
      end
  end.

Definition proto_key : jsstring := js "__proto__".

(** [o[key] = v] on an object created by [{}], for a value [v] that is not
    an object.  An own property takes the value and keeps its place.
    Without one, the key [__proto__] finds the accessor of
    [Object.prototype], whose setter does nothing for such a value, so that
    no property is created; every other key gets a new own property. *)
Definition obj_assign {V : Type} (key : jsstring) (v : V) (o : object V) : object V :=
  if obj_has key o then obj_set key v o
  else if str_eqb key proto_key then o
  else obj_insert key v o.

(** The list of name-value pairs of a [URLSearchParams]; [append] and [set]
    take their arguments as [USVString]s. *)
Definition URLSearchParams := list (jsstring * jsstring).

Definition usp_append (name value : jsstring) (l : URLSearchParams)
  : URLSearchParams :=
  l ++ [(toUSVString name, toUSVString value)].

(** The list after [set]: the first pair of that name takes the value and
    the other pairs of that name are removed; without such a pair, the pair
    is appended. *)
Fixpoint set_pair (name value : jsstring) (l : URLSearchParams)
  : URLSearchParams :=
  match l with
  | [] => [(name, value)]
  | (n, v) :: r =>
      if str_eqb n name
      then (n, value) :: filter (fun nv => negb (str_eqb (fst nv) name)) r
      else (n, v) :: set_pair name value r
  end.

Definition usp_set (name value : jsstring) (l : URLSearchParams)
  : URLSearchParams :=
  set_pair (toUSVString name) (toUSVString value) l.

(** [toString]: [name=value] pairs joined by ['&']. *)
Fixpoint usp_toString (l : URLSearchParams) : jsstring :=
  match l with
  | [] => []
  | (n, v) :: r =>
      match r with
      | [] => formEncode n ++ 61 :: formEncode v
      | _ :: _ => formEncode n ++ 61 :: formEncode v ++ 38 :: usp_toString r
      end
  end.

(* ================================================================== *)
(** ** route-types.ts: [JoinPath] *)
(* ================================================================== *)

(** [JoinPath<A, B> = A extends "" ? B : B extends "" ? A : `${A}/${B}`] *)
Definition JoinPath (a b : jsstring) : jsstring :=
  if str_eqb a [] then b
  else if str_eqb b [] then a
  else a ++ slash :: b.

(** The join rule as the specification words it: [b] if [a] is empty, [a]
    if [b] is empty, otherwise [a + "/" + b]. *)
Definition joinSegments_spec (a b : jsstring) : jsstring :=
  match a, b with
  | [], _ => b
  | _, [] => a
  | _, _ => a ++ [slash] ++ b
  end.

(* ================================================================== *)
(** ** route-registry.ts: the paths map *)
(* ================================================================== *)

#[local] Set Warnings "-register-all".

(** A route of the configuration: its [path] and its [children], either of
    which may be undefined. *)
Inductive Route :=
| MkRoute (path : option jsstring) (children : option (list Route)).

(** [const fullPath = prefix ? `${prefix}/${route.path}` : route.path;] *)
Definition fullPath_of (prefix path : jsstring) : jsstring :=
  if truthy prefix then prefix ++ slash :: path else path.

(** [fullPath.replace(/\/+/g, "/").replace(/^\//, "")] *)
Definition normalizedPath_of (fullPath : jsstring) : jsstring :=
  strip_leading_slash (collapse_slashes fullPath).

(** [normalizedPath || "/"] *)
Definition path_key (normalizedPath : jsstring) : jsstring :=
  if truthy normalizedPath then normalizedPath else [slash].

(** [if (normalizedPath || prefix === "") result[key] = key;] *)
Definition register (prefix normalizedPath : jsstring) (result : object jsstring)
  : object jsstring :=
  if truthy normalizedPath || str_eqb prefix []
  then obj_assign (path_key normalizedPath) (path_key normalizedPath) result
  else result.

(** The body of the loop of [buildPathsMap] for one route; the inner loop is
    the recursive call on the children, which shares [result]. *)
Fixpoint visit_route (route : Route) (prefix : jsstring)
  (result : object jsstring) {struct route} : object jsstring :=
  match route with
  | MkRoute None _ => result
  | MkRoute (Some path) children =>
      let fullPath := fullPath_of prefix path in
      let result := register prefix (normalizedPath_of fullPath) result in
      match children with
      | Some cs =>
          (fix loop (rs : list Route) (res : object jsstring) :=
             match rs with
             | [] => res
             | r :: rs' => loop rs' (visit_route r fullPath res)
             end) cs result
      | None => result
      end
  end.

Fixpoint buildPathsMap (routes : list Route) (prefix : jsstring)
  (result : object jsstring) : object jsstring :=
  match routes with
  | [] => result
  | route :: rest => buildPathsMap rest prefix (visit_route route prefix result)
  end.

(** [registerRoutes(routes).paths] *)
Definition registerRoutes_paths (routes : list Route) : object jsstring :=
  buildPathsMap routes [] [].

(* ================================================================== *)
(** ** route-registry.ts: [buildPath], [buildUrl], [validateParams] *)
(* ================================================================== *)

(** The loop of [buildPath] over [Object.entries(params)]:
    [result = result.replace(`:${key}`, encodeURIComponent(String(value)))] *)
Fixpoint substitute (result : jsstring) (entries : object jsstring)
  : outcome jsstring :=
  match entries with
  | [] => Returns result
  | (key, value) :: rest =>
      enc <- encodeURIComponent value ;;
      substitute (String_replace result (colon :: key) enc) rest
  end.

(** [buildPath]; [params] is an object, as its type says, so the test
    [params && typeof params === "object"] holds. *)
Definition buildPath (path : jsstring) (params : object jsstring)
  : outcome jsstring :=
  result <- substitute path params ;;
  if negb (startsWith [slash] result) then Returns (slash :: result)
  else Returns result.

Section QueryParams.

(** The numbers of the host and their [String(n)]. *)
Variable number : Type.
Variable Number_toString : number -> jsstring.

(** [QueryParamValue = string | number | boolean | string[] | null | undefined] *)
Inductive QueryParamValue :=
| QString (s : jsstring)
| QNumber (n : number)
| QBoolean (b : bool)
| QArray (vs : list jsstring)
| QNull
| QUndefined.

(** [String(value)] of a scalar. *)
Definition scalar_toString (v : QueryParamValue) : jsstring :=
  match v with
  | QString s => s
  | QNumber n => Number_toString n
  | QBoolean true => js "true"
  | QBoolean false => js "false"
  | QArray _ | QNull | QUndefined => []
  end.

(** One turn of the loop of [buildUrl] over [Object.entries(queryParams)]. *)
Definition add_query_entry (searchParams : URLSearchParams)
  (entry : jsstring * QueryParamValue) : URLSearchParams :=
  let (key, value) := entry in
  match value with
  | QNull | QUndefined => searchParams
  | QArray vs =>
      fold_left (fun sp v => usp_append key v sp) vs searchParams
  | _ => usp_set key (scalar_toString value) searchParams
  end.

Definition query_pairs (queryParams : object QueryParamValue) : URLSearchParams :=
  fold_left add_query_entry queryParams [].

Definition buildUrl (path : jsstring) (params : object jsstring)
  (queryParams : option (object QueryParamValue)) : outcome jsstring :=
  url <- buildPath path params ;;
  match queryParams with
  | Some q =>
      let queryString := usp_toString (query_pairs q) in
      if truthy queryString then Returns (url ++ question :: queryString)
      else Returns url
  | None => Returns url
  end.

End QueryParams.

Arguments scalar_toString {number} Number_toString v.
Arguments add_query_entry {number} Number_toString searchParams entry.
Arguments query_pairs {number} Number_toString queryParams.
Arguments buildUrl {number} Number_toString path params queryParams.
Arguments QNull {number}.
Arguments QNumber {number} n.
Arguments QUndefined {number}.
Arguments QString {number} s.
Arguments QBoolean {number} b.
Arguments QArray {number} vs.

(** A value of type [unknown], as far as [validateParams] looks at it;
    [Obj] stands for an object or a function. *)
Inductive unknown :=
| Undefined
| Null
| Str (s : jsstring)
| Bool (b : bool)
| Obj.

Definition is_nullish (v : unknown) : bool :=
  match v with Undefined | Null => true | _ => false end.

(** An object with its prototype chain: its own properties, and the
    properties of the objects of the chain, the nearest first.  The
    properties are data properties. *)
Record JSObject := {
  own : object unknown;
  prototypes : list (object unknown)
}.

(** The properties of [Object.prototype]: functions, and the accessor
    [__proto__], which reads as the prototype of the object it is read
    from, an object. *)
Definition Object_prototype : object unknown :=
  map (fun key => (key, Obj))
    [js "constructor"; js "__defineGetter__"; js "__defineSetter__";
     js "hasOwnProperty"; js "__lookupGetter__"; js "__lookupSetter__";
     js "isPrototypeOf"; js "propertyIsEnumerable"; js "toString";
     js "valueOf"; js "__proto__"; js "toLocaleString"].

(** An object written [{ ... }]: its prototype is [Object.prototype]. *)
Definition plain_object (properties : object unknown) : JSObject :=
  {| own := properties; prototypes := [Object_prototype] |}.

(** The property of the first object of a chain that has one of that name. *)
Fixpoint lookup (key : jsstring) (chain : list (object unknown)) : option unknown :=
  match chain with
  | [] => None
  | o :: rest =>
      match obj_get key o with
      | Some v => Some v
      | None => lookup key rest
      end
  end.

Definition get_property (key : jsstring) (params : JSObject) : option unknown :=
  lookup key (own params :: prototypes params).

(** [param in params]: own and inherited properties count. *)
Definition has_property (param : jsstring) (params : JSObject) : bool :=
  match get_property param params with Some _ => true | None => false end.

(** [params[param]]: reading a property that is absent gives [undefined]. *)
Definition obj_read (param : jsstring) (params : JSObject) : unknown :=
  match get_property param params with Some v => v | None => Undefined end.

(** The loop of [validateParams], which returns [false] at the first
    required name that is missing, undefined or null. *)
Fixpoint all_provided (requiredParams : list jsstring) (params : JSObject)
  : bool :=
  match requiredParams with
  | [] => true
  | param :: rest =>
      if negb (has_property param params)
         || is_nullish (obj_read param params)
      then false
      else all_provided rest params
  end.

(** [const requiredParams = path.match(/:(\w+)/g)?.map((p) => p.slice(1)) ?? [];] *)
Definition validateParams (path : jsstring) (params : JSObject) : bool :=
  let requiredParams := match_names (param_pieces path) in
  all_provided requiredParams params.

(* ================================================================== *)
(** ** Regular expressions built by [isActive] *)
(* ================================================================== *)

(** The patterns [isActive] hands to [new RegExp] are read in the fragment
    below: a code unit standing for itself, the atom [.], the class [[^/]+]
    that the parameter tokens are turned into, the assertions [^] and [$],
    and a backslash before a syntax character.  A backslash that ends the
    pattern is a [SyntaxError].  A pattern with another syntax character
    (a quantifier, a group, another class, an alternative) is outside the
    fragment and [RegExp] answers [None] for it. *)
Inductive atom :=
| AChar (c : N)
| ADot
| ANotSlashPlus
| AStart
| AEnd.

(** [LineTerminator]: the code units the atom [.] does not match. *)
Definition isLineTerminator (c : N) : bool :=
  existsb (N.eqb c) [10; 13; 0x2028; 0x2029].

(** [SyntaxCharacter] of ECMAScript: [^ $ \ . * + ? ( ) [ ] { } |]. *)
Definition isSyntaxChar (c : N) : bool :=
  existsb (N.eqb c) [94; 36; 92; 46; 42; 43; 63; 40; 41; 91; 93; 123; 125; 124].

Definition cons_atom (a : atom) (r : option (outcome (list atom)))
  : option (outcome (list atom)) :=
  match r with
  | Some (Returns l) => Some (Returns (a :: l))
  | other => other
  end.

Fixpoint RegExp (source : jsstring) : option (outcome (list atom)) :=
  match source with
  | [] => Some (Returns [])
  | c :: r =>
      if N.eqb c 94 then cons_atom AStart (RegExp r)
      else if N.eqb c dollar then cons_atom AEnd (RegExp r)
      else if N.eqb c backslash then
        match r with
        | [] => Some (Throws SyntaxError)
        | d :: r' =>
            if isSyntaxChar d || N.eqb d slash
            then cons_atom (AChar d) (RegExp r')
            else None
        end
      else if N.eqb c 91 then
        match r with
        | c1 :: c2 :: c3 :: c4 :: r' =>
            if N.eqb c1 94 && N.eqb c2 slash && N.eqb c3 93 && N.eqb c4 43
            then cons_atom ANotSlashPlus (RegExp r')
            else None
        | _ => None
        end
      else if N.eqb c 46 then cons_atom ADot (RegExp r)
      else if isSyntaxChar c then None
      else cons_atom (AChar c) (RegExp r)
  end.

(** Whether the atoms match at the front of [s]; [atStart] tells that [s] is
    the whole input.  The class [[^/]+] may take any positive number of code
    units other than ['/']: backtracking tries them all. *)
Fixpoint match_atoms (atoms : list atom) (atStart : bool) (s : jsstring)
  {struct atoms} : bool :=
  match atoms with
  | [] => true
  | AChar c :: rest =>
      match s with
      | d :: s' => N.eqb c d && match_atoms rest false s'
      | [] => false
      end
  | ADot :: rest =>
      match s with
      | d :: s' => negb (isLineTerminator d) && match_atoms rest false s'
      | [] => false
      end
  | AStart :: rest => atStart && match_atoms rest atStart s
  | AEnd :: rest =>
      match s with
      | [] => match_atoms rest atStart s
      | _ :: _ => false
      end
  | ANotSlashPlus :: rest =>
      (fix plus (s : jsstring) : bool :=
         match s with
         | d :: s' => negb (N.eqb d slash) && (match_atoms rest false s' || plus s')
         | [] => false
         end) s
  end.

(** [regex.test(s)] without flags: a match may start at any index. *)
Fixpoint test_from (atoms : list atom) (atStart : bool) (s : jsstring) : bool :=
  match_atoms atoms atStart s
  || match s with
     | [] => false
     | _ :: s' => test_from atoms false s'
     end.

Definition RegExp_test (atoms : list atom) (s : jsstring) : bool :=
  test_from atoms true s.

(* ================================================================== *)
(** ** The typed router service: [isActive] *)
(* ================================================================== *)

(** [const pattern = "/" + path.replace(/:(\w+)/g, "[^/]+");] *)
Definition active_pattern (path : jsstring) : jsstring :=
  slash :: render_pieces (js "[^/]+") (param_pieces path).

(** [exact ? `^${pattern}$` : `^${pattern}`] *)
Definition active_source (path : jsstring) (exact : bool) : jsstring :=
  if exact then 94 :: active_pattern path ++ [dollar]
  else 94 :: active_pattern path.

(** [this.router.url.split("?")[0].split("#")[0]] *)
Definition currentPath_of (url : jsstring) : jsstring :=
  before_first hash (before_first question url).

(** [isActive(path, exact)] at the current [url] of the router.  [None]: the
    pattern is outside the fragment of [RegExp]. *)
Definition isActive (url path : jsstring) (exact : bool) : option (outcome bool) :=
  match RegExp (active_source path exact) with
  | Some (Returns regex) => Some (Returns (RegExp_test regex (currentPath_of url)))
  | Some (Throws e) => Some (Throws e)
  | None => None
  end.

(* ================================================================== *)
(** ** Snapshot accessors of route parameters *)
(* ================================================================== *)

(** [ParamMap] of the router: [get] answers the value or [null]. *)
Record ParamMap := { get : jsstring -> option jsstring }.

Record ActivatedRouteSnapshot := { paramMap : ParamMap }.

(** [`Required route parameter "${String(param)}" is missing`] *)
Definition missing_message (param : jsstring) : jsstring :=
  js "Required route parameter " ++ 34 :: param ++ 34 :: js " is missing".

(** route-inputs.ts *)
Definition getTypedParam (route : ActivatedRouteSnapshot) (param : jsstring)
  : outcome (option jsstring) :=
  Returns (get (paramMap route) param).

Definition getRequiredTypedParam (route : ActivatedRouteSnapshot)
  (param : jsstring) : outcome jsstring :=
  let value := get (paramMap route) param in
  match value with
  | None => Throws (Error (missing_message param))
  | Some v => Returns v
  end.

(** typed-activated-route-service.ts; [snapshot] is
    [this.activatedRoute.snapshot]. *)
Definition paramSnapshot (snapshot : ActivatedRouteSnapshot)
  (paramName : jsstring) : outcome (option jsstring) :=
  Returns (get (paramMap snapshot) paramName).

Definition paramSnapshotRequired (snapshot : ActivatedRouteSnapshot)
  (paramName : jsstring) : outcome jsstring :=
  let value := get (paramMap snapshot) paramName in
  match value with
  | None => Throws (Error (missing_message paramName))
  | Some v => Returns v
  end.


(* ================================================================== *)
(** ** route-types.ts: [ExtractPathParams] *)
(* ================================================================== *)

(** [ExtractParamFromSegment<S> = S extends `:${infer Param}` ? Param : never] *)
Definition ExtractParamFromSegment (S : jsstring) : list jsstring :=
  match S with
  | c :: Param => if N.eqb c colon then [Param] else []
  | [] => []
  end.

(** [ExtractPathParams<Path>]: the members of the union.  [Segment] collects
    the code units of [Path] before its first ['/']. *)
Fixpoint ExtractPathParams_from (Segment Path : jsstring) : list jsstring :=
  match Path with
  | [] => ExtractParamFromSegment Segment
  | c :: Rest =>
      if N.eqb c slash
      then ExtractParamFromSegment Segment ++ ExtractPathParams_from [] Rest
      else ExtractPathParams_from (Segment ++ [c]) Rest
  end.

Definition ExtractPathParams (Path : jsstring) : list jsstring :=
  ExtractPathParams_from [] Path.

(* ================================================================== *)
(** ** route-inputs.ts: [createTypedRedirect] *)
(* ================================================================== *)

(** The URL [createTypedRedirect] hands to [createUrlTree]:
    [let url = "/" + path;] and then the loop of [buildPath], over [url]. *)
Definition createTypedRedirect_url (path : jsstring) (params : object jsstring)
  : outcome jsstring :=
  substitute (slash :: path) params.

(* ================================================================== *)
(** ** The directives *)
(* ================================================================== *)

(** typed-router-link-active-directive.ts, [updateActiveState]: the value of
    [nowActive].  The path input may be unset, and ["/" + undefined] is
    ["/undefined"]. *)
Definition typedLinkActive_nowActive (url : jsstring)
  (typedLinkActiveFor : option jsstring) (exact : bool) : option (outcome bool) :=
  let path :=
    slash :: match typedLinkActiveFor with
             | Some p => p
             | None => js "undefined"
             end in
  let pattern := render_pieces (js "[^/]+") (param_pieces path) in
  let source := if exact then 94 :: pattern ++ [dollar] else 94 :: pattern in
  match RegExp source with
  | Some (Returns regex) => Some (Returns (RegExp_test regex (currentPath_of url)))
  | Some (Throws e) => Some (Throws e)
  | None => None
  end.

Section TypedRouterLink.

Variable number : Type.
Variable Number_toString : number -> jsstring.

(** A value of [linkParams]: [string | number]. *)
Inductive LinkParamValue :=
| LString (s : jsstring)
| LNumber (n : number).

(** The values of [linkParams] as [buildPath] reads them, through
    [String(value)]. *)
Definition link_params_strings (linkParams : object LinkParamValue)
  : object jsstring :=
  map (fun kv => (fst kv, match snd kv with
                          | LString s => s
                          | LNumber n => Number_toString n
                          end)) linkParams.

(** typed-router-link-directive.ts, [updateHref]: the new value of [href],
    [None] for [null].  An exception in the [try] block gives [null]. *)
Definition updateHref (path : jsstring) (linkParams : option (object LinkParamValue))
  (queryParams : option (object (QueryParamValue number)))
  (fragment : option jsstring) : option jsstring :=
  if negb (truthy path) then None
  else
    let params := match linkParams with Some o => o | None => [] end in
    match
      (url <- buildPath path (link_params_strings params) ;;
       let url :=
         match queryParams with
         | Some q =>
             let query := usp_toString (query_pairs Number_toString q) in
             if truthy query then url ++ question :: query else url
         | None => url
         end in
       let url :=
         match fragment with
         | Some f => if truthy f then url ++ hash :: f else url
         | None => url
         end in
       Returns url)
    with
    | Returns url => Some url
    | Throws _ => None
    end.

(** The fields of the click event that [onClick] reads. *)
Record MouseEvent := {
  button : N;
  ctrlKey : bool;
  metaKey : bool;
  shiftKey : bool;
  altKey : bool
}.

(** What a call of [onClick] does: it returns [true] and does nothing else;
    or it calls [preventDefault] and returns [false], after navigating with
    the router when a URL is given; or it calls [preventDefault] and
    [buildPath] throws. *)
Inductive ClickResult :=
| FollowsLink
| Prevented (navigatedTo : option jsstring)
| PreventedThenThrows (e : error).

(** [onClick]; [target] is the value of the input [target], [None] when it is
    not set.  The input [this.target] itself is a signal, which is truthy. *)
Definition onClick (event : MouseEvent) (target : option jsstring)
  (href : option jsstring) (path : jsstring)
  (linkParams : option (object LinkParamValue)) : ClickResult :=
  if negb (N.eqb (button event) 0) || ctrlKey event || metaKey event
     || shiftKey event || altKey event
  then FollowsLink
  else if match target with
          | Some t => negb (str_eqb t (js "_self"))
          | None => true
          end
  then FollowsLink
  else
    if match href with Some h => negb (truthy h) | None => true end
    then Prevented None
    else
      let params := match linkParams with Some o => o | None => [] end in
      match buildPath path (link_params_strings params) with
      | Returns url => Prevented (Some url)
      | Throws e => PreventedThenThrows e
      end.

End TypedRouterLink.

Arguments LString {number} s.
Arguments LNumber {number} n.
Arguments link_params_strings {number} Number_toString linkParams.
Arguments updateHref {number} Number_toString path linkParams queryParams fragment.
Arguments onClick {number} Number_toString event target href path linkParams.

(* ================================================================== *)
(** ** typed-activated-route-service.ts: [url$] *)
(* ================================================================== *)

(** The function [url$] maps over the segments, on their paths:
    ["/" + segments.map((s) => s.path).join("/")]. *)
Definition url_of_segments (paths : list jsstring) : jsstring :=
  slash :: join_with slash paths.

(* ================================================================== *)
(** ** The route tree indexer, in the words of the specification *)
(* ================================================================== *)

(** "collapsing repeated ['/']": a ['/'] that comes after a ['/'] is left
    out. *)
Fixpoint collapse_repeated_spec (after_slash : bool) (s : jsstring) : jsstring :=
  match s with
  | [] => []
  | c :: r =>
      if N.eqb c slash
      then (if after_slash then collapse_repeated_spec true r
            else c :: collapse_repeated_spec true r)
      else c :: collapse_repeated_spec false r
  end.

(** "stripping a single leading ['/']" *)
Definition strip_single_leading_spec (s : jsstring) : jsstring :=
  if startsWith [slash] s then tl s else s.

Definition normalize_spec (fullPath : jsstring) : jsstring :=
  strip_single_leading_spec (collapse_repeated_spec false fullPath).

(** "registers the normalized path (or the sentinel ["/"] when the
    normalized result is empty and no prefix is active)" *)
Definition registered_spec (prefix fullPath : jsstring) : list jsstring :=
  match normalize_spec fullPath with
  | [] => match prefix with [] => [[slash]] | _ :: _ => [] end
  | c :: n => [c :: n]
  end.

(** [buildFullPathIndex]: "for each node with a defined path segment,
    computes [fullPath = joinSegments(prefix, node.path)] ...; if the node
    has children, recurses with [fullPath] as the new prefix". *)
Fixpoint index_route_spec (node : Route) (prefix : jsstring) : list jsstring :=
  match node with
  | MkRoute None _ => []
  | MkRoute (Some path) children =>
      registered_spec prefix (joinSegments_spec prefix path)
      ++ match children with
         | Some cs =>
             (fix each (cs : list Route) : list jsstring :=
                match cs with
                | [] => []
                | c :: cs' =>
                    index_route_spec c (joinSegments_spec prefix path) ++ each cs'
                end) cs
         | None => []
         end
  end.

Fixpoint buildFullPathIndex_spec (tree : list Route) (prefix : jsstring)
  : list jsstring :=
  match tree with
  | [] => []
  | node :: rest =>
      index_route_spec node prefix ++ buildFullPathIndex_spec rest prefix
  end.

(** A tree in which a node with the empty path has no prefix above it. *)
Fixpoint empty_path_only_at_root_route (node : Route) (prefix : jsstring) : bool :=
  match node with
  | MkRoute None _ => true
  | MkRoute (Some path) children =>
      (str_eqb prefix [] || negb (str_eqb path []))
      && match children with
         | Some cs =>
             (fix all (cs : list Route) : bool :=
                match cs with
                | [] => true
                | c :: cs' =>
                    empty_path_only_at_root_route c (joinSegments_spec prefix path)
                    && all cs'
                end) cs
         | None => true
         end
  end.

Definition empty_path_only_at_root (tree : list Route) (prefix : jsstring) : bool :=
  forallb (fun node => empty_path_only_at_root_route node prefix) tree.

(* ================================================================== *)
(** ** The matching pattern, in the words of the specification *)
(* ================================================================== *)

(** A matching pattern: literal code units and wildcards. *)
Inductive pattern_item :=
| Literal (c : N)
| Wildcard.

(** "replacing every parameter segment token ([:name]) with a wildcard": a
    segment that starts with [':'] is a parameter segment, the other
    segments stand for themselves. *)
Definition segment_pattern_spec (segment : jsstring) : list pattern_item :=
  match segment with
  | c :: _ => if N.eqb c colon then [Wildcard] else map Literal segment
  | [] => []
  end.

Fixpoint segments_pattern_spec (segments : list jsstring) : list pattern_item :=
  match segments with
  | [] => []
  | segment :: rest =>
      match rest with
      | [] => segment_pattern_spec segment
      | _ :: _ =>
          segment_pattern_spec segment ++ Literal slash :: segments_pattern_spec rest
      end
  end.

(** "prefixing template with ['/']" *)
Definition matching_pattern_spec (template : jsstring) : list pattern_item :=
  Literal slash :: segments_pattern_spec (split_on slash template).

(** A string matches a pattern from its first to its last code unit: a
    literal matches itself, "a wildcard ... matches one or more characters
    excluding ['/']". *)
Inductive Matches : list pattern_item -> jsstring -> Prop :=
| Matches_nil : Matches [] []
| Matches_literal c p s : Matches p s -> Matches (Literal c :: p) (c :: s)
| Matches_wildcard p w s :
    w <> [] -> ~ In slash w -> Matches p s -> Matches (Wildcard :: p) (w ++ s).

(** "strips any query string and fragment from [currentPath]": what comes
    before the first ['?'] or ['#']. *)
Definition strip_query_and_fragment_spec (currentPath : jsstring) : jsstring :=
  takeWhile (fun c => negb (N.eqb c question || N.eqb c hash)) currentPath.

(** "anchors the pattern at the start always, and additionally at the end
    when [exact] is true" *)
Definition isActive_spec (template currentPath : jsstring) (exact : bool) : Prop :=
  if exact
  then Matches (matching_pattern_spec template)
         (strip_query_and_fragment_spec currentPath)
  else exists s rest,
         strip_query_and_fragment_spec currentPath = s ++ rest
         /\ Matches (matching_pattern_spec template) s.

Definition item_of_piece (p : piece) : pattern_item :=
  match p with
  | Char c => Literal c
  | Match _ => Wildcard
  end.

(* ================================================================== *)
(** ** Declarative counterparts used in the statements *)
(* ================================================================== *)

(** The paths a route tree registers under a prefix, declaratively: the key
    of a route with a path, when its normalized path is not empty or the
    prefix is, and the paths its children register under its full path. *)
Inductive Registered : list Route -> jsstring -> jsstring -> Prop :=
| Registered_here routes prefix path children :
    In (MkRoute (Some path) children) routes ->
    truthy (normalizedPath_of (fullPath_of prefix path)) = true \/ prefix = [] ->
    Registered routes prefix (path_key (normalizedPath_of (fullPath_of prefix path)))
| Registered_child routes prefix path cs k :
    In (MkRoute (Some path) (Some cs)) routes ->
    Registered cs (fullPath_of prefix path) k ->
    Registered routes prefix k.

(** Whether a string has two ['/'] in a row. *)
Fixpoint double_slash (s : jsstring) : bool :=
  match s with
  | c :: r =>
      (N.eqb c slash && match r with d :: _ => N.eqb d slash | [] => false end)
      || double_slash r
  | [] => false
  end.

(** The query pairs one entry of [queryParams] stands for, as the
    specification words it: none for null or undefined, one per element of a
    sequence, in order and under the same key, and one for a scalar, with
    its string form. *)
Definition entry_pairs_spec {number : Type} (Number_toString : number -> jsstring)
  (entry : jsstring * QueryParamValue number) : list (jsstring * jsstring) :=
  let (key, value) := entry in
  match value with
  | QNull | QUndefined => []
  | QArray vs => map (fun v => (toUSVString key, toUSVString v)) vs
  | QString _ | QNumber _ | QBoolean _ =>
      [(toUSVString key, toUSVString (scalar_toString Number_toString value))]
  end.

Definition is_scalar {number : Type} (v : QueryParamValue number) : bool :=
  match v with
  | QString _ | QNumber _ | QBoolean _ => true
  | QArray _ | QNull | QUndefined => false
  end.

(** A string is an instance of the pieces of a template when it is the
    template with each parameter token replaced by one or more code units
    other than ['/']. *)
Inductive Instance : list piece -> jsstring -> Prop :=
| Instance_nil : Instance [] []
| Instance_char c ps s : Instance ps s -> Instance (Char c :: ps) (c :: s)
| Instance_param name ps w s :
    w <> [] -> ~ In slash w -> Instance ps s ->
    Instance (Match name :: ps) (w ++ s).

Definition atom_of_piece (p : piece) : atom :=
  match p with
  | Char c => AChar c
  | Match _ => ANotSlashPlus
  end.

(** A template none of whose code units is a syntax character of regular
    expressions. *)
Definition regexp_plain (path : jsstring) : bool :=
  forallb (fun c => negb (isSyntaxChar c)) path.

Definition no_backslash (path : jsstring) : bool :=
  forallb (fun c => negb (N.eqb c backslash)) path.

(** Every [':'] of the template begins a match of [/:(\w+)/g]: it is
    followed by a word character. *)
Definition colons_begin_tokens (t : jsstring) : bool :=
  forallb (fun p => match p with
                    | Char c => negb (N.eqb c colon)
                    | Match _ => true
                    end) (param_pieces t).

(** No name of the list is a prefix of a name at another place of the list;
    in particular the names are distinct. *)
Fixpoint prefix_free (names : list jsstring) : bool :=
  match names with
  | [] => true
  | n :: rest =>
      forallb (fun m => negb (startsWith n m) && negb (startsWith m n)) rest
      && prefix_free rest
  end.

(** The string a list of pieces stands for, a match written [:name]. *)
Fixpoint pieces_text (ps : list piece) : jsstring :=
  match ps with
  | [] => []
  | Char c :: r => c :: pieces_text r
  | Match n :: r => colon :: n ++ pieces_text r
  end.

(** [s.replace(pat, rep)] for a replacement without ['$']. *)
Definition replace_first (s pat rep : jsstring) : jsstring :=
  match split_at_first pat s with
  | Some (before, after) => before ++ rep ++ after
  | None => s
  end.

(** [l1] is [l2] with some elements left out. *)
Inductive sublist {A : Type} : list A -> list A -> Prop :=
| sublist_nil : sublist [] []
| sublist_skip x l1 l2 : sublist l1 l2 -> sublist l1 (x :: l2)
| sublist_keep x l1 l2 : sublist l1 l2 -> sublist (x :: l1) (x :: l2).

(** The sequence of atoms in front of a parsed pattern. *)
Definition cons_atoms (l : list atom) (r : option (outcome (list atom)))
  : option (outcome (list atom)) :=
  fold_right cons_atom r l.

(** A piece whose text has no [':'] but the one that begins a match. *)
Definition clean_piece (p : piece) : Prop :=
  match p with
  | Char c => c <> colon
  | Match n => ~ In colon n
  end.

(** A code unit that is neither [':'] nor ['$']. *)
Definition inert (c : N) : Prop := c <> colon /\ c <> dollar.

(** Induction on a route tree, with the property known of every child. *)
Section RouteInduction.

Variable P : Route -> Prop.
Hypothesis P_leaf : forall path, P (MkRoute path None).
Hypothesis P_node : forall path cs, Forall P cs -> P (MkRoute path (Some cs)).

Fixpoint Route_nested_ind (r : Route) : P r :=
  match r with
  | MkRoute path None => P_leaf path
  | MkRoute path (Some cs) =>
      P_node path cs
        ((fix all (l : list Route) : Forall P l :=
            match l with
            | [] => Forall_nil P
            | x :: l' => Forall_cons x (Route_nested_ind x) (all l')
            end) cs)
  end.

End RouteInduction.

(* ================================================================== *)
(** ** Further declarative counterparts *)
(* ================================================================== *)

(** The characters [encodeURIComponent] always escapes:
    [# $ & + , / : ; = ? @]. *)
Definition uri_reserved (c : N) : bool :=
  existsb (N.eqb c) [35; 36; 38; 43; 44; 47; 58; 59; 61; 63; 64].

(** [encodeURIComponent(v)] where it returns. *)
Definition encoded (v : jsstring) : jsstring :=
  match encodeURIComponent v with
  | Returns e => e
  | Throws _ => []
  end.

(** The template with each token written out: the encoded value of the
    first entry of that name, or the token itself when [params] has no such
    entry. *)
Fixpoint fill_pieces (params : object jsstring) (ps : list piece) : jsstring :=
  match ps with
  | [] => []
  | Char c :: r => c :: fill_pieces params r
  | Match n :: r =>
      match obj_get n params with
      | Some v => encoded v ++ fill_pieces params r
      | None => colon :: n ++ fill_pieces params r
      end
  end.

(** [result.startsWith("/") ? result : "/" + result] *)
Definition with_leading_slash (result : jsstring) : jsstring :=
  if startsWith [slash] result then result else slash :: result.

(** An entry of the paths map as [buildPathsMap] writes it: the key is its
    own value, has no two ['/'] in a row, and is ["/"] or a non-empty string
    that does not start with ['/']. *)
Definition normalized_entry (kv : jsstring * jsstring) : Prop :=
  fst kv = snd kv
  /\ double_slash (fst kv) = false
  /\ (fst kv = [slash] \/ (fst kv <> [] /\ startsWith [slash] (fst kv) = false)).

(** route-registry.ts, [ExtractAllPaths<TRoutes, Prefix>]: the members of the
    union type, for one route and for the routes of a list. *)
Fixpoint ExtractAllPaths_route (First : Route) (Prefix : jsstring) : list jsstring :=
  match First with
  | MkRoute None _ => []
  | MkRoute (Some P) (Some C) =>
      (if str_eqb P [] then (if str_eqb Prefix [] then [] else [Prefix])
       else [JoinPath Prefix P])
      ++ (fix members (cs : list Route) : list jsstring :=
            match cs with
            | [] => []
            | c :: cs' =>
                ExtractAllPaths_route c
                  (if str_eqb P [] then Prefix else JoinPath Prefix P)
                ++ members cs'
            end) C
  | MkRoute (Some P) None =>
      if str_eqb P [] then (if str_eqb Prefix [] then [[]] else [Prefix])
      else [JoinPath Prefix P]
  end.

Fixpoint ExtractAllPaths (TRoutes : list Route) (Prefix : jsstring) : list jsstring :=
  match TRoutes with
  | [] => []
  | First :: Rest => ExtractAllPaths_route First Prefix ++ ExtractAllPaths Rest Prefix
  end.

Fixpoint ends_with_slash (s : jsstring) : bool :=
  match s with
  | [] => false
  | c :: r =>
      match r with
      | [] => N.eqb c slash
      | _ :: _ => ends_with_slash r
      end
  end.

(** A route path that is not empty, neither starts nor ends with ['/'] and
    has no two ['/'] in a row. *)
Definition clean_path (p : jsstring) : bool :=
  negb (str_eqb p []) && negb (startsWith [slash] p)
  && negb (ends_with_slash p) && negb (double_slash p).

(** A route tree all of whose defined paths are clean. *)
Fixpoint clean_route (r : Route) : bool :=
  match r with
  | MkRoute path children =>
      match path with Some p => clean_path p | None => true end
      && match children with
         | Some cs =>
             (fix all (cs : list Route) : bool :=
                match cs with
                | [] => true
                | c :: cs' => clean_route c && all cs'
                end) cs
         | None => true
         end
  end.

(* ================================================================== *)
(** ** route-types.ts and route-registry.ts: further types over routes *)
(* ================================================================== *)

(** route-types.ts, [GetRoutePaths<TRoutes>]: the paths of the routes of the
    list itself. *)
Fixpoint GetRoutePaths (TRoutes : list Route) : list jsstring :=
  match TRoutes with
  | [] => []
  | MkRoute (Some P) _ :: Rest => P :: GetRoutePaths Rest
  | MkRoute None _ :: Rest => GetRoutePaths Rest
  end.

(** route-types.ts, [BuildRoutePaths<TRoutes, Prefix>]: the members of the
    union type, for one route and for the routes of a list. *)
Fixpoint BuildRoutePaths_route (First : Route) (Prefix : jsstring) : list jsstring :=
  match First with
  | MkRoute None _ => []
  | MkRoute (Some P) (Some C) =>
      JoinPath Prefix P
      :: (fix members (cs : list Route) : list jsstring :=
            match cs with
            | [] => []
            | c :: cs' => BuildRoutePaths_route c (JoinPath Prefix P) ++ members cs'
            end) C
  | MkRoute (Some P) None => [JoinPath Prefix P]
  end.

Fixpoint BuildRoutePaths (TRoutes : list Route) (Prefix : jsstring) : list jsstring :=
  match TRoutes with
  | [] => []
  | First :: Rest => BuildRoutePaths_route First Prefix ++ BuildRoutePaths Rest Prefix
  end.

(** route-registry.ts, [FindRoute<TRoutes, TargetPath>], [None] for [never]:
    the first route, parents before children and children before the next
    sibling, whose own path is the target. *)
Fixpoint FindRoute_route (First : Route) (TargetPath : jsstring) : option Route :=
  match First with
  | MkRoute None _ => None
  | MkRoute (Some P) children =>
      if str_eqb TargetPath P then Some First
      else
        match children with
        | Some C =>
            (fix find (cs : list Route) : option Route :=
               match cs with
               | [] => None
               | c :: cs' =>
                   match FindRoute_route c TargetPath with
                   | Some r => Some r
                   | None => find cs'
                   end
               end) C
        | None => None
        end
  end.

Fixpoint FindRoute (TRoutes : list Route) (TargetPath : jsstring) : option Route :=
  match TRoutes with
  | [] => None
  | First :: Rest =>
      match FindRoute_route First TargetPath with
      | Some r => Some r
      | None => FindRoute Rest TargetPath
      end
  end.

(** route-registry.ts, [GetFullPath<TRoutes, TargetPath, Prefix>].  For one
    route: whether its own path is the target, in which case the routes after
    it are not looked at, and the members it gives. *)
Fixpoint GetFullPath_route (First : Route) (TargetPath Prefix : jsstring)
  : bool * list jsstring :=
  match First with
  | MkRoute None _ => (false, [])
  | MkRoute (Some P) children =>
      if str_eqb TargetPath P then (true, [JoinPath Prefix P])
      else
        match children with
        | Some C =>
            (false,
             (fix members (cs : list Route) : list jsstring :=
                match cs with
                | [] => []
                | c :: cs' =>
                    let (hit, found) :=
                      GetFullPath_route c TargetPath (JoinPath Prefix P) in
                    if hit then found else found ++ members cs'
                end) C)
        | None => (false, [])
        end
  end.

Fixpoint GetFullPath (TRoutes : list Route) (TargetPath Prefix : jsstring)
  : list jsstring :=
  match TRoutes with
  | [] => []
  | First :: Rest =>
      let (hit, found) := GetFullPath_route First TargetPath Prefix in
      if hit then found else found ++ GetFullPath Rest TargetPath Prefix
  end.

(** route-types.ts, [NormalizePath<T>].  Each step of the type removes one
    ['/'] from the front or, when there is none, from the end; [fuel] bounds
    the number of steps, and the length of [T] is enough of it. *)
Fixpoint NormalizePath_steps (fuel : nat) (T : jsstring) : jsstring :=
  match fuel with
  | O => T
  | S fuel' =>
      match T with
      | c :: Rest =>
          if N.eqb c slash then NormalizePath_steps fuel' Rest
          else if ends_with_slash T then NormalizePath_steps fuel' (removelast T)
          else T
      | [] => T
      end
  end.

Definition NormalizePath (T : jsstring) : jsstring :=
  NormalizePath_steps (length T) T.

(* ================================================================== *)
(** ** The router service: [getPath], [serializePath], [createUrl] *)
(* ================================================================== *)

(** [return "/" + path;] *)
Definition getPath (path : jsstring) : jsstring := slash :: path.

(** [const params = args[0] ?? {}; return buildPath(path, params);] *)
Definition serializePath (path : jsstring) (params : option (object jsstring))
  : outcome jsstring :=
  buildPath path match params with Some p => p | None => [] end.

(** [createUrl], on the fields [params] and [queryParams] of its options. *)
Definition createUrl {number : Type} (Number_toString : number -> jsstring)
  (path : jsstring) (params : option (object jsstring))
  (queryParams : option (object (QueryParamValue number))) : outcome jsstring :=
  buildUrl Number_toString path match params with Some p => p | None => [] end
    queryParams.

(* ================================================================== *)
(** ** route-inputs.ts: [queryParamBoolean] *)
(* ================================================================== *)

Definition lower_ascii (c : N) : N :=
  if N.leb 65 c && N.leb c 90 then c + 32 else c.

(** [value.toLowerCase()] of a string of ASCII code units; [None] for a
    string with another code unit, which this model does not cover. *)
Fixpoint toLowerCase (s : jsstring) : option jsstring :=
  match s with
  | [] => Some []
  | c :: r =>
      if N.ltb c 128 then
        match toLowerCase r with
        | Some l => Some (lower_ascii c :: l)
        | None => None
        end
      else None
  end.

(** The transform of [queryParamBoolean(defaultValue)]; the value is [None]
    when the query parameter is absent. *)
Definition queryParamBoolean_transform (defaultValue : bool)
  (value : option jsstring) : option bool :=
  match value with
  | None => Some defaultValue
  | Some v =>
      match toLowerCase v with
      | Some l => Some (existsb (str_eqb l) [js "true"; js "1"; js "yes"])
      | None => None
      end
  end.

(** Two ASCII strings that differ in the case of letters only. *)
Fixpoint same_ignoring_case (a b : jsstring) : bool :=
  match a, b with
  | [], [] => true
  | x :: a', y :: b' => N.eqb (lower_ascii x) (lower_ascii y) && same_ignoring_case a' b'
  | _, _ => false
  end.

Definition route_path (r : Route) : option jsstring :=
  match r with MkRoute path _ => path end.

(** The routes of a tree: those of the list and, below each, its children. *)
Inductive InTree : Route -> list Route -> Prop :=
| InTree_here r rs : In r rs -> InTree r rs
| InTree_below r path cs rs :
    In (MkRoute path (Some cs)) rs -> InTree r cs -> InTree r rs.

(** What [GetFullPath] and [FindRoute] have in common on one route. *)
Definition GetFullPath_agrees (TargetPath : jsstring) (r : Route) : Prop :=
  forall Prefix,
    (fst (GetFullPath_route r TargetPath Prefix) = true ->
     snd (GetFullPath_route r TargetPath Prefix) <> []
     /\ FindRoute_route r TargetPath <> None)
    /\ (fst (GetFullPath_route r TargetPath Prefix) = false ->
        (snd (GetFullPath_route r TargetPath Prefix) = []
         <-> FindRoute_route r TargetPath = None))
    /\ (forall x, In x (snd (GetFullPath_route r TargetPath Prefix)) ->
          In x (BuildRoutePaths_route r Prefix)
          /\ exists q, x = JoinPath q TargetPath).

(* ================================================================== *)
(** * Properties *)
(* ================================================================== *)

(** ** Strings *)

Lemma str_eqb_eq (a b : jsstring) : str_eqb a b = true <-> a = b.
Proof.
  revert b; induction a as [|x a IH]; intros [|y b]; simpl;
    try (split; [discriminate | congruence]); try tauto.
  rewrite andb_true_iff, N.eqb_eq, IH.
  split; [intros [-> ->]; reflexivity | intros H; inversion H; auto].
Qed.

Lemma str_eqb_refl (a : jsstring) : str_eqb a a = true.
Proof. apply str_eqb_eq; reflexivity. Qed.

Lemma str_eqb_neq (a b : jsstring) : str_eqb a b = false <-> a <> b.
Proof.
  rewrite <- str_eqb_eq. destruct (str_eqb a b); split; congruence.
Qed.

Lemma startsWith_app (p r : jsstring) : startsWith p (p ++ r) = true.
Proof. induction p; simpl; [reflexivity | now rewrite N.eqb_refl]. Qed.

Lemma startsWith_spec (p s : jsstring) :
  startsWith p s = true <-> exists r, s = p ++ r.
Proof.
  split.
  - revert s; induction p as [|x p IH]; intros s H; simpl in *.
    + now exists s.
    + destruct s as [|y s]; [discriminate|].
      apply andb_true_iff in H as [Hxy H]. apply N.eqb_eq in Hxy; subst y.
      destruct (IH _ H) as [r ->]. now exists r.
  - intros [r ->]. apply startsWith_app.
Qed.

Lemma skipn_length_app (p r : jsstring) : skipn (length p) (p ++ r) = r.
Proof. induction p; simpl; auto. Qed.

Lemma isWord_not_colon (c : N) : isWord c = true -> N.eqb c colon = false.
Proof.
  unfold isWord, colon. intros H. apply N.eqb_neq. intros ->.
  vm_compute in H. discriminate.
Qed.

Lemma isWord_not_slash (c : N) : isWord c = true -> N.eqb c slash = false.
Proof.
  unfold isWord, slash. intros H. apply N.eqb_neq. intros ->.
  vm_compute in H. discriminate.
Qed.

Lemma takeWhile_word (w rest : jsstring) :
  forallb isWord w = true ->
  match rest with [] => True | d :: _ => isWord d = false end ->
  takeWhile isWord (w ++ rest) = w.
Proof.
  intros Hw Hr. induction w as [|c w IH]; simpl in *.
  - destruct rest as [|d rest]; simpl; [reflexivity | now rewrite Hr].
  - apply andb_true_iff in Hw as [Hc Hw]. now rewrite Hc, IH.
Qed.

Lemma takeWhile_app_stop (f : N -> bool) (a b : jsstring) (x : N) :
  f x = false -> takeWhile f (a ++ x :: b) = takeWhile f a.
Proof.
  intros Hx. induction a as [|c a IH]; simpl.
  - now rewrite Hx.
  - now rewrite IH.
Qed.

Lemma takeWhile_forall (f : N -> bool) (s : jsstring) :
  forallb f (takeWhile f s) = true.
Proof.
  induction s as [|c s IH]; simpl; [reflexivity|].
  destruct (f c) eqn:E; simpl; [now rewrite E | reflexivity].
Qed.

(** ** The scan with [/:(\w+)/g] *)

Lemma match_names_flag (s : jsstring) :
  match_names (pieces_from true s) = match_names (pieces_from false s).
Proof.
  induction s as [|c r IH]; simpl; [reflexivity|].
  destruct (isWord c) eqn:W; [|reflexivity].
  now rewrite (isWord_not_colon _ W).
Qed.

(** The names, read off the string: each [':'] that is followed by word
    characters gives the longest run of them. *)
Lemma getParamNames_cons (c : N) (r : jsstring) :
  getParamNames (c :: r) =
  if N.eqb c colon then
    match takeWhile isWord r with
    | [] => getParamNames r
    | w => w :: getParamNames r
    end
  else getParamNames r.
Proof.
  unfold getParamNames, param_pieces. simpl.
  destruct (N.eqb c colon); [|reflexivity].
  destruct (takeWhile isWord r); simpl; [reflexivity|].
  now rewrite match_names_flag.
Qed.

Lemma getParamNames_nil : getParamNames [] = [].
Proof. reflexivity. Qed.

Lemma getParamNames_app_slash (a b : jsstring) :
  getParamNames (a ++ slash :: b) = getParamNames a ++ getParamNames b.
Proof.
  induction a as [|c a IH]; simpl app.
  - now rewrite getParamNames_cons.
  - rewrite !getParamNames_cons, IH.
    rewrite takeWhile_app_stop by reflexivity.
    destruct (N.eqb c colon); [|reflexivity].
    now destruct (takeWhile isWord a).
Qed.

Lemma getParamNames_join (segs : list jsstring) :
  getParamNames (join_with slash segs) = flat_map getParamNames segs.
Proof.
  induction segs as [|seg rest IH]; [reflexivity|].
  simpl. destruct rest as [|seg' rest'].
  - simpl. now rewrite app_nil_r.
  - now rewrite getParamNames_app_slash, IH.
Qed.

Lemma getParamNames_no_colon (s : jsstring) :
  plain_segment s = true -> getParamNames s = [].
Proof.
  unfold plain_segment. induction s as [|c s IH]; simpl; intros H; [reflexivity|].
  apply andb_true_iff in H as [Hc H]. rewrite getParamNames_cons.
  apply negb_true_iff in Hc. rewrite Hc. auto.
Qed.

Lemma forallb_word_plain (w : jsstring) :
  forallb isWord w = true -> plain_segment w = true.
Proof.
  unfold plain_segment. induction w as [|c w IH]; simpl; intros H; [reflexivity|].
  apply andb_true_iff in H as [Hc H].
  now rewrite (isWord_not_colon _ Hc), IH.
Qed.

Lemma getParamNames_param_segment (seg : jsstring) :
  param_segment seg = true -> getParamNames seg = segment_param seg.
Proof.
  destruct seg as [|c w]; simpl; [discriminate|]. intros H.
  apply andb_true_iff in H as [H Hw]. apply andb_true_iff in H as [Hc Hne].
  rewrite getParamNames_cons, Hc.
  assert (E : takeWhile isWord w = w).
  { rewrite <- (app_nil_r w) at 1. now apply takeWhile_word. }
  rewrite E. destruct w as [|d w]; [discriminate|].
  now rewrite (getParamNames_no_colon _ (forallb_word_plain _ Hw)).
Qed.

Lemma getParamNames_plain_segment (seg : jsstring) :
  plain_segment seg = true -> getParamNames seg = segment_param seg.
Proof.
  intros H. rewrite (getParamNames_no_colon _ H).
  destruct seg as [|c r]; [reflexivity|]. simpl in *.
  apply andb_true_iff in H as [Hc _]. apply negb_true_iff in Hc. now rewrite Hc.
Qed.

Lemma join_split (sep : N) (s : jsstring) :
  join_with sep (split_on sep s) = s.
Proof.
  induction s as [|c r IH]; [reflexivity|]. simpl.
  destruct (N.eqb c sep) eqn:E.
  - apply N.eqb_eq in E; subst c. simpl.
    destruct (split_on sep r) eqn:S; [simpl in IH; now subst r|].
    now rewrite IH.
  - destruct (split_on sep r) as [|seg segs] eqn:S; [simpl in IH; now subst r|].
    simpl in *. destruct segs; simpl; now rewrite <- IH.
Qed.

(** Where every segment is a literal without [':'] or [':'] and a word, the
    scan and the split by segments find the same names. *)
Lemma getParamNames_template_ok (t : jsstring) :
  template_ok t = true -> getParamNames t = extractParameterNames_spec t.
Proof.
  unfold template_ok, extractParameterNames_spec. intros H.
  rewrite <- (join_split slash t) at 1. rewrite getParamNames_join.
  induction (split_on slash t) as [|seg segs IH]; [reflexivity|].
  simpl in *. apply andb_true_iff in H as [Hseg H]. rewrite (IH H). f_equal.
  apply orb_true_iff in Hseg as [P|P];
    [now apply getParamNames_plain_segment | now apply getParamNames_param_segment].
Qed.

Lemma getParamNames_nonempty (t : jsstring) (name : jsstring) :
  In name (getParamNames t) -> name <> [].
Proof.
  induction t as [|c r IH]; [intros []|].
  rewrite getParamNames_cons.
  destruct (N.eqb c colon); [|exact IH].
  destruct (takeWhile isWord r) as [|d w]; [exact IH|].
  intros [<-|H]; [discriminate | auto].
Qed.

Lemma split_on_cons (sep : N) (s : jsstring) :
  exists seg segs, split_on sep s = seg :: segs.
Proof.
  destruct s as [|c r]; simpl; [eauto|].
  destruct (N.eqb c sep); [eauto|]. destruct (split_on sep r); eauto.
Qed.

Lemma ExtractPathParams_from_split (Path Segment : jsstring) :
  ExtractPathParams_from Segment Path
  = match split_on slash Path with
    | s :: rest =>
        ExtractParamFromSegment (Segment ++ s) ++ flat_map ExtractParamFromSegment rest
    | [] => ExtractParamFromSegment Segment
    end.
Proof.
  revert Segment. induction Path as [|c Rest IH]; intros Segment.
  - cbn [ExtractPathParams_from split_on flat_map]. now rewrite !app_nil_r.
  - cbn [ExtractPathParams_from split_on].
    destruct (N.eqb c slash).
    + rewrite IH. destruct (split_on_cons slash Rest) as (s & rest & ->).
      cbn [flat_map app]. now rewrite app_nil_r.
    + rewrite IH. destruct (split_on_cons slash Rest) as (s & rest & ->).
      now rewrite <- app_assoc.
Qed.

Lemma ExtractPathParams_by_segments (t : jsstring) :
  ExtractPathParams t = extractParameterNames_spec t.
Proof.
  unfold ExtractPathParams, extractParameterNames_spec.
  rewrite ExtractPathParams_from_split.
  destruct (split_on_cons slash t) as (s & rest & ->). reflexivity.
Qed.

(** ** C3: the names [getParamNames] extracts *)

(** C3: [getParamNames] does not follow the rule of the specification.  It scans the
    template with [/:(\w+)/g]: a name ends at the first code unit that is
    not a word character, and a [':'] counts wherever it stands.  On
    [users/:user-id] it gives [user], where the split on ['/'] gives
    [user-id]; the type [ExtractPathParams], which the names are meant to
    mirror, follows the rule on every template and gives [user-id] too.
    The two extractions agree on every template whose segments are each
    without [':'] or a [':'] followed by one or more word characters; the
    empty template has no names, and [users/:userId/posts/:postId] has the
    names [userId], [postId]. *)
Theorem getParamNames_truncates_names :
  (getParamNames (js "users/:user-id") = [js "user"]
   /\ extractParameterNames_spec (js "users/:user-id") = [js "user-id"]
   /\ ExtractPathParams (js "users/:user-id") = [js "user-id"])
  /\ (getParamNames (js "a:b/c") = [js "b"]
      /\ extractParameterNames_spec (js "a:b/c") = []
      /\ ExtractPathParams (js "a:b/c") = [])
  /\ (forall t, ExtractPathParams t = extractParameterNames_spec t)
  /\ (forall c r,
        getParamNames (c :: r) =
        if N.eqb c colon then
          match takeWhile isWord r with
          | [] => getParamNames r
          | w => w :: getParamNames r
          end
        else getParamNames r)
  /\ (forall t, template_ok t = true ->
        getParamNames t = extractParameterNames_spec t)
  /\ getParamNames [] = []
  /\ extractParameterNames_spec [] = []
  /\ getParamNames (js "users/:userId/posts/:postId")
     = [js "userId"; js "postId"]
  /\ extractParameterNames_spec (js "users/:userId/posts/:postId")
     = [js "userId"; js "postId"].
Proof.
  split; [repeat split|]. split; [repeat split|].
  split; [exact ExtractPathParams_by_segments|].
  split; [exact getParamNames_cons|].
  split; [exact getParamNames_template_ok|].
  repeat split.
Qed.

(** ** C4: a segment that is exactly [':'] *)

Lemma segment_param_lone_colon (segs : list jsstring) :
  In [colon] segs -> In [] (flat_map segment_param segs).
Proof.
  intros H. apply in_flat_map. exists [colon]. split; [exact H | now left].
Qed.

(** C4: [getParamNames] does not give the empty name.  For every template
    with a segment that is exactly [':'], the extraction by segments and the
    type [ExtractPathParams] have the empty name for that segment, as the
    specification says, and [getParamNames] has not: it never gives an empty name,
    and the names of a template are those of the template without such a
    segment.  So [a/:/b] has the empty name by the rule and in the type, and
    no name at run time. *)
Theorem lone_colon_segment_dropped :
  (forall t, In [colon] (split_on slash t) ->
     In [] (extractParameterNames_spec t)
     /\ In [] (ExtractPathParams t)
     /\ ~ In [] (getParamNames t))
  /\ (forall t, ~ In [] (getParamNames t))
  /\ (forall pre post : list jsstring,
        getParamNames (join_with slash (pre ++ [[colon]] ++ post))
        = getParamNames (join_with slash (pre ++ post)))
  /\ (In [colon] (split_on slash (js "a/:/b"))
      /\ getParamNames (js "a/:/b") = []
      /\ extractParameterNames_spec (js "a/:/b") = [[]]
      /\ ExtractPathParams (js "a/:/b") = [[]]).
Proof.
  assert (N : forall t, ~ In [] (getParamNames t)).
  { intros t H. now apply (getParamNames_nonempty t []). }
  split; [|split; [exact N|split]].
  - intros t H. split; [|split; [|apply N]].
    + now apply segment_param_lone_colon.
    + rewrite ExtractPathParams_by_segments. now apply segment_param_lone_colon.
  - intros pre post. rewrite !getParamNames_join, !flat_map_app. reflexivity.
  - split; [vm_compute; auto | repeat split].
Qed.

(** ** C2: [validateParams] *)

Lemma all_provided_iff (names : list jsstring) (params : JSObject) :
  all_provided names params = true <->
  forall name, In name names ->
    exists v, get_property name params = Some v /\ is_nullish v = false.
Proof.
  induction names as [|n names IH]; simpl.
  - split; [intros _ ? [] | reflexivity].
  - unfold has_property, obj_read.
    destruct (get_property n params) as [v|] eqn:G; simpl.
    + destruct (is_nullish v) eqn:Nv.
      * split; [discriminate|]. intros H.
        destruct (H n (or_introl eq_refl)) as (v' & E & Hv'). congruence.
      * rewrite IH. split.
        -- intros H name [<-|Hin]; [now exists v | auto].
        -- intros H name Hin. auto.
    + split; [discriminate|]. intros H.
      destruct (H n (or_introl eq_refl)) as (v' & E & _). congruence.
Qed.

Lemma obj_get_set_other {V : Type} (key k : jsstring) (v : V) (o : object V) :
  key <> k -> obj_get key (obj_set k v o) = obj_get key o.
Proof.
  intros Hne. induction o as [|[k' w] o IH]; simpl.
  - destruct (str_eqb k key) eqn:E; [apply str_eqb_eq in E; congruence | reflexivity].
  - destruct (str_eqb k' k) eqn:E; simpl.
    + apply str_eqb_eq in E; subst k'.
      destruct (str_eqb k key) eqn:E'; [apply str_eqb_eq in E'; congruence | reflexivity].
    + now rewrite IH.
Qed.

Lemma all_provided_set_other (names : list jsstring) (params : JSObject)
  (k : jsstring) (v : unknown) :
  ~ In k names ->
  all_provided names
    {| own := obj_set k v (own params); prototypes := prototypes params |}
  = all_provided names params.
Proof.
  induction names as [|n names IH]; simpl; intros H; [reflexivity|].
  unfold has_property, obj_read, get_property. cbn [own prototypes lookup].
  rewrite obj_get_set_other by (intros ->; apply H; now left).
  rewrite IH by tauto. reflexivity.
Qed.

Lemma is_nullish_false (v : unknown) :
  is_nullish v = false <-> v <> Undefined /\ v <> Null.
Proof.
  destruct v; simpl; split; try discriminate; try (intros []; congruence);
    intros _; split; discriminate.
Qed.

Lemma all_provided_false_iff (names : list jsstring) (params : JSObject) :
  all_provided names params = false <->
  exists name, In name names /\
    (get_property name params = None \/ get_property name params = Some Undefined
     \/ get_property name params = Some Null).
Proof.
  induction names as [|n names IH]; simpl.
  - split; [discriminate | intros (name & [] & _)].
  - unfold has_property, obj_read.
    destruct (get_property n params) as [v|] eqn:G; simpl;
      [destruct (is_nullish v) eqn:Nv|].
    + split; [intros _ | reflexivity].
      exists n. split; [now left|]. rewrite G.
      destruct v; try discriminate; auto.
    + rewrite IH. split.
      * intros (name & Hin & Hc). exists name. split; [now right | exact Hc].
      * intros (name & [<-|Hin] & Hc); [|now exists name].
        rewrite G in Hc.
        destruct Hc as [Hc|[Hc|Hc]]; inversion Hc; subst v; discriminate.
    + split; [intros _ | reflexivity].
      exists n. split; [now left | now left].
Qed.

Lemma get_property_own (name : jsstring) (params : JSObject) :
  lookup name (prototypes params) = None ->
  get_property name params = obj_get name (own params).
Proof.
  intros H. unfold get_property. cbn [lookup]. rewrite H.
  now destruct (obj_get name (own params)).
Qed.

(** C2: [validateParams] counts what the object inherits.  The tests
    [param in params] and [params[param]] follow the prototype chain, so for
    the template [a/:toString] the empty object [{}] is accepted, although it
    holds no entry [toString]: the answer is [true] exactly when, for every
    name of [getParamNames], an own or inherited property holds a value that
    is neither undefined nor null.  For a template whose segments are each
    without [':'] or a [':'] and a word, and an object that inherits no
    property under a required name, the answer is [true] exactly when the
    object holds, for every name of the extraction by segments, an own value
    that is neither undefined nor null.  Setting an own key that is not a
    required name never changes the answer, and the answer is [false]
    exactly when some name is missing, undefined or null. *)
Theorem validateParams_counts_inherited_properties :
  (forall t p,
     validateParams t p = true <->
     forall name, In name (getParamNames t) ->
       exists v, get_property name p = Some v /\ v <> Undefined /\ v <> Null)
  /\ (forall t p,
        template_ok t = true ->
        (forall name, In name (extractParameterNames_spec t) ->
           lookup name (prototypes p) = None) ->
        (validateParams t p = true <->
         forall name, In name (extractParameterNames_spec t) ->
           exists v, obj_get name (own p) = Some v /\ v <> Undefined /\ v <> Null))
  /\ (forall t p k v, ~ In k (getParamNames t) ->
        validateParams t {| own := obj_set k v (own p); prototypes := prototypes p |}
        = validateParams t p)
  /\ (forall t p,
        validateParams t p = false <->
        exists name, In name (getParamNames t) /\
          (get_property name p = None \/ get_property name p = Some Undefined
           \/ get_property name p = Some Null))
  /\ (template_ok (js "a/:toString") = true
      /\ extractParameterNames_spec (js "a/:toString") = [js "toString"]
      /\ obj_get (js "toString") (own (plain_object [])) = None
      /\ validateParams (js "a/:toString") (plain_object []) = true)
  /\ validateParams (js "a/:toString") (plain_object [(js "toString", Null)]) = false
  /\ validateParams (js "a/:id") (plain_object []) = false.
Proof.
  assert (G : forall t p,
            validateParams t p = true <->
            forall name, In name (getParamNames t) ->
              exists v, get_property name p = Some v /\ v <> Undefined /\ v <> Null).
  { intros t p. unfold validateParams, getParamNames. rewrite all_provided_iff.
    split; intros H name Hin; destruct (H name Hin) as (v & E & Hv);
      exists v; split; auto; now apply is_nullish_false. }
  split; [exact G|]. split; [|split; [|split]].
  - intros t p Hok Hp. rewrite G, (getParamNames_template_ok _ Hok).
    split; intros H name Hin; destruct (H name Hin) as (v & E & Hv);
      exists v; (split; [|exact Hv]).
    + now rewrite <- (get_property_own _ _ (Hp name Hin)).
    + now rewrite (get_property_own _ _ (Hp name Hin)).
  - intros t p k v Hk. unfold validateParams. now apply all_provided_set_other.
  - intros t p. apply all_provided_false_iff.
  - repeat split.
Qed.

(** ** C8: the join rule *)

Lemma JoinPath_joinSegments (a b : jsstring) :
  JoinPath a b = joinSegments_spec a b.
Proof.
  unfold JoinPath, joinSegments_spec.
  destruct a as [|x a]; [reflexivity|]. destruct b as [|y b]; reflexivity.
Qed.

Lemma fullPath_of_joinSegments (prefix path : jsstring) :
  prefix = [] \/ path <> [] ->
  fullPath_of prefix path = joinSegments_spec prefix path.
Proof.
  unfold fullPath_of, joinSegments_spec, truthy.
  destruct prefix as [|x a]; [reflexivity|]. simpl.
  destruct path as [|y b]; [intros [H|H]; congruence | reflexivity].
Qed.

(** C8: the type-level [JoinPath] is the join rule, and so is the
    concatenation of [buildPathsMap] when the prefix is empty or the segment
    is not.  For an empty segment under a prefix the concatenation keeps the
    ['/']: under [users] it computes [users/] where the rule gives [users],
    and [users/] is what the paths map registers for the child. *)
Theorem fullPath_of_empty_segment :
  (forall a b, JoinPath a b = joinSegments_spec a b)
  /\ (forall prefix path, path <> [] ->
        fullPath_of prefix path = joinSegments_spec prefix path)
  /\ (forall path, fullPath_of [] path = joinSegments_spec [] path)
  /\ fullPath_of (js "users") [] = js "users/"
  /\ joinSegments_spec (js "users") [] = js "users"
  /\ JoinPath (js "users") [] = js "users"
  /\ obj_keys (registerRoutes_paths
                 [MkRoute (Some (js "users")) (Some [MkRoute (Some []) None])])
     = [js "users"; js "users/"].
Proof.
  split; [exact JoinPath_joinSegments|].
  split; [intros; apply fullPath_of_joinSegments; now right|].
  split; [intros; apply fullPath_of_joinSegments; now left|].
  repeat split.
Qed.

(** ** C7: the paths map *)

Lemma visit_route_children (path : jsstring) (cs : list Route)
  (prefix : jsstring) (result : object jsstring) :
  visit_route (MkRoute (Some path) (Some cs)) prefix result =
  buildPathsMap cs (fullPath_of prefix path)
    (register prefix (normalizedPath_of (fullPath_of prefix path)) result).
Proof.
  simpl. generalize (register prefix (normalizedPath_of (fullPath_of prefix path)) result).
  induction cs as [|c cs IH]; intros res; simpl; [reflexivity | apply IH].
Qed.

Lemma obj_keys_set {V : Type} (key : jsstring) (v : V) (o : object V) (k : jsstring) :
  In k (obj_keys (obj_set key v o)) <-> k = key \/ In k (obj_keys o).
Proof.
  unfold obj_keys. induction o as [|[k' w] o IH]; simpl.
  - intuition congruence.
  - destruct (str_eqb k' key) eqn:E; simpl.
    + apply str_eqb_eq in E; subst k'. intuition congruence.
    + rewrite IH. intuition congruence.
Qed.

Lemma obj_has_keys {V : Type} (key : jsstring) (o : object V) :
  obj_has key o = true <-> In key (obj_keys o).
Proof.
  unfold obj_has, obj_keys. induction o as [|[k w] o IH]; simpl.
  - split; [discriminate | intros []].
  - destruct (str_eqb k key) eqn:E.
    + apply str_eqb_eq in E. split; auto.
    + apply str_eqb_neq in E. rewrite IH. split; [auto | intros [H|H]; [contradiction | exact H]].
Qed.

Lemma obj_keys_insert {V : Type} (key : jsstring) (v : V) (o : object V) (k : jsstring) :
  In k (obj_keys (obj_insert key v o)) <-> k = key \/ In k (obj_keys o).
Proof.
  unfold obj_keys. induction o as [|[k' w] o IH]; cbn [obj_insert].
  - destruct (array_index key); simpl; intuition congruence.
  - destruct (array_index key) as [n|].
    + destruct (array_index k') as [m|]; [destruct (N.ltb m n)|].
      * cbn [map fst In]. rewrite IH. intuition congruence.
      * cbn [map fst In]. intuition congruence.
      * cbn [map fst In]. intuition congruence.
    + rewrite map_app, in_app_iff. cbn [map fst In]. intuition congruence.
Qed.

Lemma obj_keys_assign {V : Type} (key : jsstring) (v : V) (o : object V) (k : jsstring) :
  In k (obj_keys (obj_assign key v o)) <->
  In k (obj_keys o) \/ (k = key /\ key <> proto_key).
Proof.
  unfold obj_assign. destruct (obj_has key o) eqn:H.
  - apply obj_has_keys in H. rewrite obj_keys_set.
    split; [intros [->|Hk]; auto | intros [Hk|[-> _]]; auto].
  - destruct (str_eqb key proto_key) eqn:E.
    + apply str_eqb_eq in E. split; [auto | intros [Hk|[_ Hne]]; [exact Hk | contradiction]].
    + apply str_eqb_neq in E. rewrite obj_keys_insert.
      split; [intros [->|Hk]; auto | intros [Hk|[-> _]]; auto].
Qed.

Lemma register_keys (prefix np : jsstring) (result : object jsstring) (k : jsstring) :
  In k (obj_keys (register prefix np result)) <->
  In k (obj_keys result)
  \/ (((truthy np = true \/ prefix = []) /\ k = path_key np) /\ k <> proto_key).
Proof.
  unfold register. destruct (truthy np) eqn:T; simpl.
  - rewrite obj_keys_assign. intuition congruence.
  - destruct (str_eqb prefix []) eqn:E.
    + apply str_eqb_eq in E. rewrite obj_keys_assign. intuition congruence.
    + apply str_eqb_neq in E. intuition congruence.
Qed.

Lemma Registered_cons (r : Route) (rs : list Route) (prefix k : jsstring) :
  Registered (r :: rs) prefix k <-> Registered [r] prefix k \/ Registered rs prefix k.
Proof.
  split.
  - intros H. inversion H as [? ? path ch Hin Hc | ? ? path cs ? Hin Hc]; subst.
    + destruct Hin as [E|Hin].
      * left. eapply Registered_here; [left; exact E | exact Hc].
      * right. eapply Registered_here; eauto.
    + destruct Hin as [E|Hin].
      * left. eapply Registered_child; [left; exact E | exact Hc].
      * right. eapply Registered_child; eauto.
  - intros [H|H]; inversion H as [? ? path ch Hin Hc | ? ? path cs ? Hin Hc]; subst.
    + destruct Hin as [E|[]]. eapply Registered_here; [left; exact E | exact Hc].
    + destruct Hin as [E|[]]. eapply Registered_child; [left; exact E | exact Hc].
    + eapply Registered_here; [right; exact Hin | exact Hc].
    + eapply Registered_child; [right; exact Hin | exact Hc].
Qed.

Lemma Registered_nil (prefix k : jsstring) : ~ Registered [] prefix k.
Proof. intros H. inversion H; subst; contradiction. Qed.

Lemma Registered_single (path : option jsstring) (children : option (list Route))
  (prefix k : jsstring) :
  Registered [MkRoute path children] prefix k <->
  match path with
  | None => False
  | Some p =>
      ((truthy (normalizedPath_of (fullPath_of prefix p)) = true \/ prefix = [])
       /\ k = path_key (normalizedPath_of (fullPath_of prefix p)))
      \/ match children with
         | Some cs => Registered cs (fullPath_of prefix p) k
         | None => False
         end
  end.
Proof.
  split.
  - intros H. inversion H as [? ? p ch Hin Hc | ? ? p cs ? Hin Hc]; subst.
    + destruct Hin as [E|[]]. inversion E; subst. left. auto.
    + destruct Hin as [E|[]]. inversion E; subst. right. exact Hc.
  - destruct path as [p|]; [|intros []].
    intros [[Hc ->]|H].
    + eapply Registered_here; [now left | exact Hc].
    + destruct children as [cs|]; [|contradiction].
      eapply Registered_child; [now left | exact H].
Qed.

Lemma buildPathsMap_keys_from (rs : list Route) :
  Forall (fun r => forall prefix result k,
            In k (obj_keys (visit_route r prefix result)) <->
            In k (obj_keys result) \/ (Registered [r] prefix k /\ k <> proto_key)) rs ->
  forall prefix result k,
    In k (obj_keys (buildPathsMap rs prefix result)) <->
    In k (obj_keys result) \/ (Registered rs prefix k /\ k <> proto_key).
Proof.
  induction 1 as [|r rs Hr _ IH]; intros prefix result k; simpl.
  - split; [auto | intros [H|[H _]]; [exact H | now apply Registered_nil in H]].
  - rewrite IH, Hr, (Registered_cons r rs). tauto.
Qed.

Lemma visit_route_keys (r : Route) :
  forall prefix result k,
    In k (obj_keys (visit_route r prefix result)) <->
    In k (obj_keys result) \/ (Registered [r] prefix k /\ k <> proto_key).
Proof.
  induction r as [path | path cs IH] using Route_nested_ind;
    intros prefix result k; rewrite Registered_single.
  - destruct path as [p|]; simpl; [|tauto]. rewrite register_keys. tauto.
  - destruct path as [p|]; [|simpl; tauto].
    rewrite visit_route_children, (buildPathsMap_keys_from cs IH), register_keys.
    tauto.
Qed.

Lemma buildPathsMap_keys (rs : list Route) (prefix : jsstring)
  (result : object jsstring) (k : jsstring) :
  In k (obj_keys (buildPathsMap rs prefix result)) <->
  In k (obj_keys result) \/ (Registered rs prefix k /\ k <> proto_key).
Proof.
  apply buildPathsMap_keys_from. apply Forall_forall. intros r _.
  apply visit_route_keys.
Qed.

Lemma collapse_slashes_head (s : jsstring) :
  hd_error (collapse_slashes s) = hd_error s.
Proof.
  induction s as [|c r IH]; [reflexivity|]. simpl.
  destruct (N.eqb c slash) eqn:E; simpl; [|reflexivity].
  destruct r as [|d r']; [reflexivity|].
  destruct (N.eqb d slash) eqn:E'; [|reflexivity].
  rewrite IH. simpl. apply N.eqb_eq in E, E'. congruence.
Qed.

Lemma collapse_slashes_no_double (s : jsstring) :
  double_slash (collapse_slashes s) = false.
Proof.
  induction s as [|c r IH]; [reflexivity|]. simpl.
  destruct (N.eqb c slash && match r with d :: _ => N.eqb d slash | [] => false end)
    eqn:E; [exact IH|].
  simpl. rewrite IH, orb_false_r.
  pose proof (collapse_slashes_head r) as Hh.
  destruct (collapse_slashes r) as [|d' r'']; destruct r as [|d r']; simpl in *;
    try discriminate; try (now rewrite andb_false_r).
  inversion Hh; subst d'. exact E.
Qed.

Lemma double_slash_tail (c : N) (r : jsstring) :
  double_slash (c :: r) = false -> double_slash r = false.
Proof. simpl. intros H. now apply orb_false_iff in H. Qed.

Lemma startsWith_single (c : N) (s : jsstring) :
  startsWith [c] s = match s with d :: _ => N.eqb c d | [] => false end.
Proof. destruct s; [reflexivity|]. cbn [startsWith]. apply andb_true_r. Qed.

Lemma double_slash_cons (c : N) (r : jsstring) :
  double_slash (c :: r) =
  (N.eqb c slash && match r with d :: _ => N.eqb d slash | [] => false end)
  || double_slash r.
Proof. reflexivity. Qed.

Lemma normalizedPath_of_shape (full : jsstring) :
  double_slash (normalizedPath_of full) = false
  /\ startsWith [slash] (normalizedPath_of full) = false.
Proof.
  unfold normalizedPath_of, strip_leading_slash.
  pose proof (collapse_slashes_no_double full) as H.
  destruct (collapse_slashes full) as [|c r]; [split; reflexivity|].
  rewrite startsWith_single.
  destruct (N.eqb c slash) eqn:E.
  - rewrite double_slash_cons, E in H. apply orb_false_iff in H as [H1 H2].
    split; [exact H2|].
    destruct r as [|d r']; [reflexivity|]. rewrite N.eqb_sym. exact H1.
  - split; [exact H|]. rewrite N.eqb_sym. exact E.
Qed.

Lemma collapse_repeated_spec_eq (s : jsstring) :
  collapse_repeated_spec false s = collapse_slashes s
  /\ collapse_repeated_spec true s = strip_leading_slash (collapse_slashes s).
Proof.
  induction s as [|c r [IH1 IH2]]; [split; reflexivity|].
  cbn [collapse_repeated_spec collapse_slashes]. rewrite IH1, IH2.
  pose proof (collapse_slashes_head r) as Hh.
  destruct (N.eqb c slash) eqn:Ec; cbn [andb].
  - apply N.eqb_eq in Ec; subst c.
    destruct r as [|d r'].
    + split; reflexivity.
    + destruct (collapse_slashes (d :: r')) as [|d' x] eqn:Ex; [discriminate|].
      cbn [hd_error] in Hh. injection Hh as ->.
      unfold strip_leading_slash. destruct (N.eqb d slash) eqn:Ed.
      * apply N.eqb_eq in Ed; subst d. rewrite N.eqb_refl. split; reflexivity.
      * rewrite N.eqb_refl. split; reflexivity.
  - unfold strip_leading_slash. rewrite Ec. split; reflexivity.
Qed.

Lemma normalize_spec_eq (fullPath : jsstring) :
  normalize_spec fullPath = normalizedPath_of fullPath.
Proof.
  unfold normalize_spec, normalizedPath_of, strip_single_leading_spec.
  rewrite (proj1 (collapse_repeated_spec_eq fullPath)).
  destruct (collapse_slashes fullPath) as [|c r]; [reflexivity|].
  rewrite startsWith_single, N.eqb_sym. reflexivity.
Qed.

Lemma registered_spec_iff (prefix fullPath k : jsstring) :
  In k (registered_spec prefix fullPath) <->
  (truthy (normalizedPath_of fullPath) = true \/ prefix = [])
  /\ k = path_key (normalizedPath_of fullPath).
Proof.
  unfold registered_spec, path_key. rewrite normalize_spec_eq.
  destruct (normalizedPath_of fullPath) as [|c n]; unfold truthy; cbn [str_eqb negb].
  - destruct prefix; cbn [In].
    + split; [intros [<-|[]]; split; [now right | reflexivity]
             | intros [_ ->]; now left].
    + split; [intros [] | intros [[H|H] _]; discriminate].
  - cbn [In]. split; [intros [<-|[]]; split; [now left | reflexivity]
                     | intros [_ ->]; now left].
Qed.

Lemma index_route_spec_children (path : jsstring) (cs : list Route) (prefix : jsstring) :
  index_route_spec (MkRoute (Some path) (Some cs)) prefix
  = registered_spec prefix (joinSegments_spec prefix path)
    ++ buildFullPathIndex_spec cs (joinSegments_spec prefix path).
Proof.
  simpl. f_equal. induction cs as [|c cs IH]; simpl; [reflexivity | now rewrite IH].
Qed.

Lemma empty_path_only_at_root_children (path : jsstring) (cs : list Route)
  (prefix : jsstring) :
  empty_path_only_at_root_route (MkRoute (Some path) (Some cs)) prefix
  = (str_eqb prefix [] || negb (str_eqb path []))
    && empty_path_only_at_root cs (joinSegments_spec prefix path).
Proof. reflexivity. Qed.

Lemma fullPath_of_joinSegments_bool (prefix path : jsstring) :
  str_eqb prefix [] || negb (str_eqb path []) = true ->
  fullPath_of prefix path = joinSegments_spec prefix path.
Proof.
  intros H. apply fullPath_of_joinSegments.
  apply orb_true_iff in H as [H|H].
  - left. now apply str_eqb_eq.
  - right. apply negb_true_iff in H. now apply str_eqb_neq.
Qed.

Lemma Registered_index_from (rs : list Route) :
  Forall (fun r => forall prefix k,
            empty_path_only_at_root_route r prefix = true ->
            (Registered [r] prefix k <-> In k (index_route_spec r prefix))) rs ->
  forall prefix k,
    empty_path_only_at_root rs prefix = true ->
    (Registered rs prefix k <-> In k (buildFullPathIndex_spec rs prefix)).
Proof.
  induction 1 as [|r rs Hr _ IH]; intros prefix k Hc.
  - split; [intros H; now apply Registered_nil in H | intros []].
  - cbn [empty_path_only_at_root forallb] in Hc.
    apply andb_true_iff in Hc as [Hc1 Hc2].
    rewrite (Registered_cons r rs). cbn [buildFullPathIndex_spec].
    rewrite in_app_iff, (Hr prefix k Hc1), (IH prefix k Hc2). tauto.
Qed.

Lemma Registered_index_route (r : Route) :
  forall prefix k,
    empty_path_only_at_root_route r prefix = true ->
    (Registered [r] prefix k <-> In k (index_route_spec r prefix)).
Proof.
  induction r as [path | path cs IH] using Route_nested_ind;
    intros prefix k Hc; rewrite Registered_single.
  - destruct path as [p|]; [|simpl; tauto].
    cbn [empty_path_only_at_root_route] in Hc. rewrite andb_true_r in Hc.
    cbn [index_route_spec]. rewrite app_nil_r, registered_spec_iff.
    rewrite (fullPath_of_joinSegments_bool _ _ Hc). tauto.
  - destruct path as [p|]; [|simpl; tauto].
    rewrite empty_path_only_at_root_children in Hc.
    apply andb_true_iff in Hc as [Hc1 Hc2].
    rewrite index_route_spec_children, in_app_iff, registered_spec_iff.
    rewrite (fullPath_of_joinSegments_bool _ _ Hc1).
    rewrite (Registered_index_from cs IH _ k Hc2). tauto.
Qed.

(** C7: the paths map differs from the index of the specification.  The
    specification joins the prefix and the path of a node with
    [joinSegments] and registers every normalized path.  [buildPathsMap]
    writes the prefix, a ['/'] and the path, also for the empty path, and
    stores into a plain object: for the tree of [users] with a child of the
    empty path it registers [users/] besides [users], where the index of the
    specification holds [users] only; and the path [__proto__] is not
    registered at all.  On every tree in which a node with the empty path
    has no prefix above it the keys of the map are the paths of the index
    of the specification other than [__proto__]: the joined full path,
    normalized by collapsing repeated ['/'] and stripping one leading ['/'],
    or ["/"] when that is empty and the prefix is empty, and the paths of
    the children under the full path.  On the tree of
    [products/:categoryId] with the child [:productId] the keys are exactly
    [products/:categoryId] and [products/:categoryId/:productId]. *)
Theorem buildPathsMap_vs_index_spec :
  (forall tree prefix result k,
     empty_path_only_at_root tree prefix = true ->
     (In k (obj_keys (buildPathsMap tree prefix result)) <->
      In k (obj_keys result)
      \/ (In k (buildFullPathIndex_spec tree prefix) /\ k <> js "__proto__")))
  /\ (forall tree k,
        empty_path_only_at_root tree [] = true ->
        (In k (obj_keys (registerRoutes_paths tree)) <->
         In k (buildFullPathIndex_spec tree [] ) /\ k <> js "__proto__"))
  /\ (let tree := [MkRoute (Some (js "users")) (Some [MkRoute (Some []) None])] in
      obj_keys (registerRoutes_paths tree) = [js "users"; js "users/"]
      /\ buildFullPathIndex_spec tree [] = [js "users"; js "users"])
  /\ (let tree := [MkRoute (Some (js "__proto__")) None] in
      obj_keys (registerRoutes_paths tree) = []
      /\ buildFullPathIndex_spec tree [] = [js "__proto__"])
  /\ (let tree := [MkRoute (Some (js "products/:categoryId"))
                     (Some [MkRoute (Some (js ":productId")) None])] in
      obj_keys (registerRoutes_paths tree)
      = [js "products/:categoryId"; js "products/:categoryId/:productId"]
      /\ buildFullPathIndex_spec tree []
         = [js "products/:categoryId"; js "products/:categoryId/:productId"])
  /\ (let tree := [MkRoute (Some []) None; MkRoute (Some (js "about")) None] in
      obj_keys (registerRoutes_paths tree) = [js "/"; js "about"]
      /\ buildFullPathIndex_spec tree [] = [js "/"; js "about"]).
Proof.
  assert (H : forall tree prefix result k,
            empty_path_only_at_root tree prefix = true ->
            (In k (obj_keys (buildPathsMap tree prefix result)) <->
             In k (obj_keys result)
             \/ (In k (buildFullPathIndex_spec tree prefix) /\ k <> js "__proto__"))).
  { intros tree prefix result k Hc. rewrite buildPathsMap_keys.
    rewrite (Registered_index_from tree); [reflexivity | | exact Hc].
    apply Forall_forall. intros r _. apply Registered_index_route. }
  split; [exact H|]. split.
  - intros tree k Hc. unfold registerRoutes_paths. rewrite (H tree [] [] k Hc).
    simpl. tauto.
  - repeat split.
Qed.

(** ** C9: required and optional accessors *)

Lemma includes_app (pat a b : jsstring) : includes pat (a ++ pat ++ b) = true.
Proof.
  unfold includes. induction a as [|c a IH]; simpl app.
  - destruct (pat ++ b) eqn:E; simpl.
    + destruct pat; [reflexivity | discriminate].
    + rewrite <- E, startsWith_app. reflexivity.
  - simpl. destruct (startsWith pat (c :: a ++ pat ++ b)); [reflexivity|].
    destruct (split_at_first pat (a ++ pat ++ b)) as [[b0 a0]|]; [reflexivity|].
    discriminate.
Qed.

Lemma missing_message_names_param (param : jsstring) :
  includes param (missing_message param) = true.
Proof.
  unfold missing_message.
  change (34 :: param ++ 34 :: js " is missing")
    with ([34] ++ param ++ 34 :: js " is missing").
  rewrite app_assoc. apply includes_app.
Qed.

(** C9: when the parameter map has no value for the name, the required
    accessors [getRequiredTypedParam] and [paramSnapshotRequired] throw, at
    the call, an [Error] whose message contains the name, and the optional
    accessors [getTypedParam] and [paramSnapshot] return [null]; the optional
    accessors never throw, and the required ones return the value when there
    is one. *)
Theorem required_accessors_throw_optional_return_null
  (route : ActivatedRouteSnapshot) (param : jsstring) :
  (get (paramMap route) param = None ->
     (exists message,
        getRequiredTypedParam route param = Throws (Error message)
        /\ paramSnapshotRequired route param = Throws (Error message)
        /\ includes param message = true)
     /\ getTypedParam route param = Returns None
     /\ paramSnapshot route param = Returns None)
  /\ (forall v, get (paramMap route) param = Some v ->
        getRequiredTypedParam route param = Returns v
        /\ paramSnapshotRequired route param = Returns v
        /\ getTypedParam route param = Returns (Some v)
        /\ paramSnapshot route param = Returns (Some v))
  /\ (exists r, getTypedParam route param = Returns r
                /\ paramSnapshot route param = Returns r).
Proof.
  unfold getRequiredTypedParam, paramSnapshotRequired, getTypedParam, paramSnapshot.
  split; [|split].
  - intros E. rewrite E. split; [|split; reflexivity].
    exists (missing_message param).
    split; [reflexivity|]. split; [reflexivity|].
    apply missing_message_names_param.
  - intros v E. rewrite E. repeat split.
  - eexists. split; reflexivity.
Qed.

Lemma required_accessors_witness :
  let route := {| paramMap := {| get := fun _ => None |} |} in
  get (paramMap route) (js "userId") = None
  /\ (exists message,
        getRequiredTypedParam route (js "userId") = Throws (Error message)
        /\ paramSnapshotRequired route (js "userId") = Throws (Error message)
        /\ includes (js "userId") message = true)
  /\ getTypedParam route (js "userId") = Returns None
  /\ paramSnapshot route (js "userId") = Returns None.
Proof.
  intros route. split; [reflexivity|].
  apply (proj1 (required_accessors_throw_optional_return_null route (js "userId"))).
  reflexivity.
Defined.


(** ** C5: [buildUrl] *)

Section BuildUrl.

Variable number : Type.
Variable Number_toString : number -> jsstring.

Lemma fold_usp_append (key : jsstring) (vs : list jsstring) (acc : URLSearchParams) :
  fold_left (fun sp v => usp_append key v sp) vs acc
  = acc ++ map (fun v => (toUSVString key, toUSVString v)) vs.
Proof.
  revert acc. induction vs as [|v vs IH]; intros acc; simpl.
  - now rewrite app_nil_r.
  - rewrite IH. unfold usp_append. now rewrite <- app_assoc.
Qed.

Lemma set_pair_fresh (name value : jsstring) (l : URLSearchParams) :
  ~ In name (map fst l) -> set_pair name value l = l ++ [(name, value)].
Proof.
  induction l as [|[n v] l IH]; simpl; intros H; [reflexivity|].
  destruct (str_eqb n name) eqn:E.
  - apply str_eqb_eq in E. tauto.
  - rewrite IH by tauto. reflexivity.
Qed.

Lemma filter_other_then_same (name : jsstring) (l : URLSearchParams) :
  filter (fun nv => str_eqb (fst nv) name)
         (filter (fun nv => negb (str_eqb (fst nv) name)) l) = [].
Proof.
  induction l as [|[n v] l IH]; simpl; [reflexivity|].
  destruct (str_eqb n name) eqn:E; simpl; [exact IH|].
  now rewrite E.
Qed.

Lemma set_pair_once (name value : jsstring) (l : URLSearchParams) :
  filter (fun nv => str_eqb (fst nv) name) (set_pair name value l)
  = [(name, value)].
Proof.
  induction l as [|[n v] l IH]; simpl.
  - now rewrite str_eqb_refl.
  - destruct (str_eqb n name) eqn:E; simpl; rewrite E.
    + rewrite filter_other_then_same. apply str_eqb_eq in E. now subst n.
    + exact IH.
Qed.

Lemma add_query_entry_fresh (acc : URLSearchParams) (key : jsstring)
  (v : QueryParamValue number) :
  ~ In (toUSVString key) (map fst acc) ->
  add_query_entry Number_toString acc (key, v)
  = acc ++ entry_pairs_spec Number_toString (key, v).
Proof.
  intros H. unfold add_query_entry, entry_pairs_spec, usp_set.
  destruct v; try (now apply set_pair_fresh).
  - apply fold_usp_append.
  - now rewrite app_nil_r.
  - now rewrite app_nil_r.
Qed.

Lemma entry_pairs_names (key : jsstring) (v : QueryParamValue number) (n : jsstring) :
  In n (map fst (entry_pairs_spec Number_toString (key, v))) -> n = toUSVString key.
Proof.
  unfold entry_pairs_spec. destruct v; simpl; try tauto;
    try (intros [<-|[]]; reflexivity).
  rewrite map_map. simpl. rewrite in_map_iff. now intros (x & <- & _).
Qed.

Lemma query_pairs_from (q : object (QueryParamValue number)) :
  forall acc : URLSearchParams,
    NoDup (map toUSVString (obj_keys q)) ->
    (forall k, In k (obj_keys q) -> ~ In (toUSVString k) (map fst acc)) ->
    fold_left (add_query_entry Number_toString) q acc
    = acc ++ flat_map (entry_pairs_spec Number_toString) q.
Proof.
  unfold obj_keys.
  induction q as [|[key v] q IH]; intros acc Hnd Hacc.
  - simpl. now rewrite app_nil_r.
  - cbn [fold_left flat_map]. cbn [map fst] in Hnd, Hacc.
    inversion Hnd as [|? ? Hk Hnd']; subst.
    rewrite add_query_entry_fresh by (apply Hacc; now left).
    rewrite IH, <- app_assoc; [reflexivity | exact Hnd' |].
    intros k Hin. rewrite map_app, in_app_iff. intros [H|H].
    + revert H. apply Hacc. now right.
    + apply entry_pairs_names in H. apply Hk. rewrite <- H.
      now apply in_map.
Qed.

Lemma usp_toString_empty (l : URLSearchParams) :
  usp_toString l = [] <-> l = [].
Proof.
  destruct l as [|[n v] r]; simpl; [tauto|].
  split; [|discriminate].
  destruct r; intros H; apply app_eq_nil in H as [_ H]; discriminate.
Qed.

(** C5: [buildUrl] is [buildPath] followed, when the query string is not
    empty, by ['?'] and the query string; the query string is empty exactly
    when no pair was collected.  For an object (its keys are distinct) the
    pairs are, entry by entry and in order: none for null or undefined, one
    per element of an array under the key of the entry, one for a scalar
    with its string form.  After a scalar entry its key has exactly one
    pair, whatever was collected before under that key.  The two examples of
    the specification evaluate as stated. *)
Theorem buildUrl_appends_query (path : jsstring) (params : object jsstring) :
  buildUrl Number_toString path params None = buildPath path params
  /\ (forall q,
        buildUrl Number_toString path params (Some q)
        = match buildPath path params with
          | Returns url =>
              Returns match usp_toString (query_pairs Number_toString q) with
                      | [] => url
                      | qs => url ++ question :: qs
                      end
          | Throws e => Throws e
          end)
  /\ (forall q, usp_toString (query_pairs Number_toString q) = []
                <-> query_pairs Number_toString q = [])
  /\ (forall q, NoDup (map toUSVString (obj_keys q)) ->
        query_pairs Number_toString q
        = flat_map (entry_pairs_spec Number_toString) q)
  /\ (forall q key v, is_scalar v = true ->
        filter (fun nv => str_eqb (fst nv) (toUSVString key))
               (query_pairs Number_toString (q ++ [(key, v)]))
        = [(toUSVString key, toUSVString (scalar_toString Number_toString v))])
  /\ buildUrl Number_toString (js "users/:userId") [(js "userId", js "42")]
       (Some [(js "tab", QString (js "posts"))])
     = Returns (js "/users/42?tab=posts")
  /\ buildUrl Number_toString (js "search") []
       (Some [(js "tag", QArray [js "a"; js "b"])])
     = Returns (js "/search?tag=a&tag=b").
Proof.
  split; [|split; [|split; [|split; [|split; [|split]]]]].
  - unfold buildUrl. now destruct (buildPath path params).
  - intros q. unfold buildUrl. destruct (buildPath path params) as [url|e]; simpl;
      [|reflexivity].
    now destruct (usp_toString (query_pairs Number_toString q)).
  - intros q. apply usp_toString_empty.
  - intros q Hnd. unfold query_pairs.
    rewrite query_pairs_from; [reflexivity | exact Hnd | intros k _ []].
  - intros q key v Hv. unfold query_pairs. rewrite fold_left_app. simpl.
    destruct v; try discriminate; apply set_pair_once.
  - reflexivity.
  - reflexivity.
Qed.

End BuildUrl.

Lemma buildUrl_appends_query_witness :
  let q : object (QueryParamValue unit) :=
    [(js "q", QString (js "a b")); (js "page", QNumber tt); (js "skip", QNull);
     (js "tag", QArray [js "x"; js "y"])] in
  NoDup (map toUSVString (obj_keys q))
  /\ query_pairs (fun _ => js "2") q
     = [(js "q", js "a b"); (js "page", js "2"); (js "tag", js "x"); (js "tag", js "y")].
Proof.
  intros q. split.
  - repeat constructor; simpl; intuition discriminate.
  - pose proof (buildUrl_appends_query unit (fun _ => js "2") [] []) as H.
    destruct H as (_ & _ & _ & H & _).
    rewrite (H q); [reflexivity|].
    repeat constructor; simpl; intuition discriminate.
Defined.

(** ** C6 and C10: [isActive] *)

Lemma RegExp_plain_char (c : N) (r : jsstring) :
  isSyntaxChar c = false -> RegExp (c :: r) = cons_atom (AChar c) (RegExp r).
Proof.
  intros H. unfold isSyntaxChar in H. cbn [existsb] in H.
  repeat (apply orb_false_iff in H as [? H]).
  cbn [RegExp]. unfold dollar, backslash.
  repeat match goal with
         | E : N.eqb c ?k = false |- context [N.eqb c ?k] => rewrite E
         end.
  unfold isSyntaxChar. cbn [existsb].
  repeat match goal with
         | E : N.eqb c ?k = false |- context [N.eqb c ?k] => rewrite E
         end.
  reflexivity.
Qed.

Lemma RegExp_caret (r : jsstring) :
  RegExp (94 :: r) = cons_atom AStart (RegExp r).
Proof. reflexivity. Qed.

Lemma RegExp_wildcard (r : jsstring) :
  RegExp (js "[^/]+" ++ r) = cons_atom ANotSlashPlus (RegExp r).
Proof. reflexivity. Qed.

Lemma pieces_chars (f : N -> bool) (s : jsstring) :
  forallb f s = true ->
  forall b, Forall (fun p => match p with Char c => f c = true | Match _ => True end)
                   (pieces_from b s).
Proof.
  induction s as [|c r IH]; intros H b; simpl; [constructor|].
  simpl in H. apply andb_true_iff in H as [Hc H].
  destruct (b && isWord c); [now apply IH|].
  destruct (N.eqb c colon).
  - destruct (takeWhile isWord r); constructor; auto.
  - constructor; auto.
Qed.

Lemma RegExp_rendered (ps : list piece) (tail : jsstring) :
  Forall (fun p => match p with
                   | Char c => negb (isSyntaxChar c) = true
                   | Match _ => True
                   end) ps ->
  RegExp (render_pieces (js "[^/]+") ps ++ tail)
  = cons_atoms (map atom_of_piece ps) (RegExp tail).
Proof.
  induction 1 as [|p ps Hp _ IH]; [reflexivity|].
  destruct p as [c|name]; cbn [render_pieces map atom_of_piece cons_atoms fold_right].
  - apply negb_true_iff in Hp. cbn [app].
    rewrite (RegExp_plain_char _ _ Hp). now rewrite IH.
  - rewrite <- app_assoc, RegExp_wildcard. now rewrite IH.
Qed.

Lemma cons_atoms_returns (l l' : list atom) :
  cons_atoms l (Some (Returns l')) = Some (Returns (l ++ l')).
Proof. induction l as [|a l IH]; simpl; [reflexivity | now rewrite IH]. Qed.

Lemma RegExp_active_source (path : jsstring) (exact : bool) :
  regexp_plain path = true ->
  RegExp (active_source path exact)
  = Some (Returns (AStart :: AChar slash
                     :: map atom_of_piece (param_pieces path)
                     ++ if exact then [AEnd] else [])).
Proof.
  intros H. unfold active_source, active_pattern.
  pose proof (pieces_chars _ _ H false) as Hps. fold (param_pieces path) in Hps.
  destruct exact.
  - change (94 :: (slash :: render_pieces (js "[^/]+") (param_pieces path)) ++ [dollar])
      with (94 :: slash :: (render_pieces (js "[^/]+") (param_pieces path) ++ [dollar])).
    rewrite RegExp_caret, (RegExp_plain_char slash) by reflexivity.
    rewrite (RegExp_rendered _ _ Hps).
    change (RegExp [dollar]) with (Some (Returns [AEnd])).
    now rewrite cons_atoms_returns.
  - rewrite <- (app_nil_r (render_pieces (js "[^/]+") (param_pieces path))).
    rewrite RegExp_caret, (RegExp_plain_char slash) by reflexivity.
    rewrite (RegExp_rendered _ _ Hps).
    change (RegExp []) with (Some (Returns (@nil atom))).
    now rewrite cons_atoms_returns.
Qed.

Lemma match_atoms_plus_cons (rest : list atom) (st : bool) (d : N) (s : jsstring) :
  match_atoms (ANotSlashPlus :: rest) st (d :: s)
  = negb (N.eqb d slash)
    && (match_atoms rest false s || match_atoms (ANotSlashPlus :: rest) st s).
Proof. reflexivity. Qed.

Lemma match_atoms_plus (rest : list atom) (st : bool) (s : jsstring) :
  match_atoms (ANotSlashPlus :: rest) st s = true <->
  exists w s', s = w ++ s' /\ w <> [] /\ ~ In slash w
               /\ match_atoms rest false s' = true.
Proof.
  induction s as [|d s IH].
  - split; [discriminate|]. intros (w & s' & E & Hw & _).
    destruct w; [congruence | discriminate].
  - rewrite match_atoms_plus_cons, andb_true_iff, orb_true_iff, negb_true_iff,
      N.eqb_neq, IH.
    split.
    + intros [Hd [H|(w & s' & -> & Hw & Hs & Hm)]].
      * exists [d], s. repeat split; auto; [discriminate|].
        intros [E|[]]; congruence.
      * exists (d :: w), s'. repeat split; auto; [discriminate|].
        intros [E|Hin]; [congruence | auto].
    + intros (w & s' & E & Hw & Hs & Hm).
      destruct w as [|x w]; [congruence|]. injection E as -> ->.
      split; [intros ->; apply Hs; now left|].
      destruct w as [|y w]; [now left|]. right.
      exists (y :: w), s'. repeat split; auto; [discriminate|].
      intros Hin. apply Hs. now right.
Qed.

Lemma match_atoms_pieces (ps : list piece) (tail : list atom) :
  (forall st s, match_atoms tail st s = match_atoms tail false s) ->
  forall st s,
    match_atoms (map atom_of_piece ps ++ tail) st s = true <->
    exists s1 s2, s = s1 ++ s2 /\ Instance ps s1
                  /\ match_atoms tail false s2 = true.
Proof.
  intros Htail. induction ps as [|p ps IH]; intros st s.
  - simpl. rewrite Htail. split.
    + intros H. exists [], s. repeat split; [constructor | exact H].
    + intros (s1 & s2 & -> & Hi & H). inversion Hi; subst. exact H.
  - destruct p as [c|name]; cbn [map atom_of_piece app].
    + destruct s as [|d s]; cbn [match_atoms].
      * split; [discriminate|]. intros (s1 & s2 & E & Hi & _).
        inversion Hi; subst. discriminate.
      * rewrite andb_true_iff, N.eqb_eq, IH. split.
        -- intros [<- (s1 & s2 & -> & Hi & H)].
           exists (c :: s1), s2. repeat split; [now constructor | exact H].
        -- intros (s1 & s2 & E & Hi & H).
           inversion Hi as [| ? ? s0 Hi' |]; subst.
           simpl in E. inversion E; subst. split; [reflexivity|].
           now exists s0, s2.
    + rewrite match_atoms_plus. split.
      * intros (w & s' & -> & Hw & Hs & Hm). apply IH in Hm.
        destruct Hm as (s1 & s2 & -> & Hi & H).
        exists (w ++ s1), s2. rewrite app_assoc. repeat split; auto.
        now constructor.
      * intros (s1 & s2 & -> & Hi & H).
        inversion Hi as [| | ? ? w s0 Hw Hs Hi']; subst.
        exists w, (s0 ++ s2). rewrite app_assoc. repeat split; auto.
        apply IH. now exists s0, s2.
Qed.

Lemma test_from_start_false (l : list atom) (s : jsstring) :
  test_from (AStart :: l) false s = false.
Proof. induction s as [|c s IH]; simpl; [reflexivity | exact IH]. Qed.

Lemma RegExp_test_anchored (l : list atom) (s : jsstring) :
  RegExp_test (AStart :: l) s = match_atoms l true s.
Proof.
  unfold RegExp_test. destruct s as [|c s]; cbn [test_from].
  - cbn [match_atoms]. simpl. now rewrite orb_false_r.
  - rewrite test_from_start_false, orb_false_r. reflexivity.
Qed.

Lemma isActive_plain (url path : jsstring) (exact : bool) :
  regexp_plain path = true ->
  isActive url path exact =
  Some (Returns
          match currentPath_of url with
          | d :: s =>
              N.eqb d slash
              && match_atoms (map atom_of_piece (param_pieces path)
                              ++ if exact then [AEnd] else []) false s
          | [] => false
          end).
Proof.
  intros H. unfold isActive. rewrite (RegExp_active_source _ exact H).
  rewrite RegExp_test_anchored. destruct (currentPath_of url) as [|d s];
    [reflexivity|].
  cbn [match_atoms]. now rewrite (N.eqb_sym slash d).
Qed.

Lemma isActive_exact_iff (url path : jsstring) :
  regexp_plain path = true ->
  isActive url path true = Some (Returns true) <->
  exists s, currentPath_of url = slash :: s /\ Instance (param_pieces path) s.
Proof.
  intros H. rewrite (isActive_plain url _ true H). split.
  - intros E. injection E as E. destruct (currentPath_of url) as [|d s]; [discriminate|].
    apply andb_true_iff in E as [Ed E]. apply N.eqb_eq in Ed; subst d.
    apply match_atoms_pieces in E; [|reflexivity].
    destruct E as (s1 & s2 & -> & Hi & E). destruct s2; [|discriminate].
    rewrite app_nil_r. now exists s1.
  - intros (s & -> & Hi). f_equal. f_equal. rewrite N.eqb_refl. simpl.
    apply match_atoms_pieces; [reflexivity|].
    exists s, []. rewrite app_nil_r. repeat split; auto.
Qed.

Lemma isActive_prefix_iff (url path : jsstring) :
  regexp_plain path = true ->
  isActive url path false = Some (Returns true) <->
  exists s rest, currentPath_of url = slash :: s ++ rest
                 /\ Instance (param_pieces path) s.
Proof.
  intros H. rewrite (isActive_plain url _ false H). split.
  - intros E. injection E as E. destruct (currentPath_of url) as [|d s]; [discriminate|].
    apply andb_true_iff in E as [Ed E]. apply N.eqb_eq in Ed; subst d.
    apply match_atoms_pieces in E; [|reflexivity].
    destruct E as (s1 & s2 & -> & Hi & E). now exists s1, s2.
  - intros (s & rest & -> & Hi). f_equal. f_equal. rewrite N.eqb_refl. simpl.
    apply match_atoms_pieces; [reflexivity|].
    exists s, rest. repeat split; auto.
Qed.

Lemma before_first_spec (sep : N) (s : jsstring) :
  ~ In sep (before_first sep s)
  /\ (s = before_first sep s
      \/ exists rest, s = before_first sep s ++ sep :: rest).
Proof.
  induction s as [|c r [IH1 IH2]]; simpl.
  - split; [tauto | now left].
  - destruct (N.eqb c sep) eqn:E.
    + apply N.eqb_eq in E; subst c. split; [simpl; tauto|]. right. now exists r.
    + apply N.eqb_neq in E. split.
      * simpl. intros [H|H]; [congruence | tauto].
      * destruct IH2 as [IH2|[rest IH2]].
        -- left. now rewrite <- IH2.
        -- right. exists rest. simpl. now rewrite <- IH2.
Qed.

Lemma before_first_incl (sep c : N) (s : jsstring) :
  In c (before_first sep s) -> In c s.
Proof.
  induction s as [|x r IH]; simpl; [tauto|].
  destruct (N.eqb x sep); simpl; [tauto|]. intros [H|H]; auto.
Qed.

Lemma currentPath_of_spec (url : jsstring) :
  ~ In question (currentPath_of url)
  /\ ~ In hash (currentPath_of url)
  /\ exists rest,
       url = currentPath_of url ++ rest
       /\ (rest = [] \/ exists c r, rest = c :: r /\ (c = question \/ c = hash)).
Proof.
  unfold currentPath_of.
  destruct (before_first_spec question url) as [Hq Hurl].
  destruct (before_first_spec hash (before_first question url)) as [Hh Hcp].
  split; [intros H; apply Hq; now apply before_first_incl in H|].
  split; [exact Hh|].
  destruct Hcp as [Hcp|[r2 Hcp]]; destruct Hurl as [Hurl|[r1 Hurl]].
  - exists []. rewrite app_nil_r. split; [congruence | now left].
  - exists (question :: r1). split; [congruence|]. right. eauto.
  - exists (hash :: r2). split; [congruence|]. right. eauto.
  - exists (hash :: r2 ++ question :: r1). split.
    + rewrite Hurl at 1. rewrite Hcp at 1. now rewrite <- app_assoc.
    + right. eauto.
Qed.

(** *** C6: the pattern of the specification *)

Lemma pieces_from_app_slash (a b : jsstring) :
  forall inw,
    pieces_from inw (a ++ slash :: b)
    = pieces_from inw a ++ Char slash :: pieces_from false b.
Proof.
  induction a as [|c a IH]; intros inw.
  - cbn [app pieces_from]. change (isWord slash) with false.
    rewrite andb_false_r. reflexivity.
  - cbn [app pieces_from]. rewrite (IH true), (IH false).
    rewrite takeWhile_app_stop by reflexivity.
    destruct (inw && isWord c); [reflexivity|].
    destruct (N.eqb c colon); [|reflexivity].
    destruct (takeWhile isWord a); reflexivity.
Qed.

Lemma pieces_from_plain (s : jsstring) :
  plain_segment s = true -> pieces_from false s = map Char s.
Proof.
  unfold plain_segment. induction s as [|c r IH]; intros H; [reflexivity|].
  cbn [forallb] in H. apply andb_true_iff in H as [Hc H].
  apply negb_true_iff in Hc. cbn [pieces_from andb map]. rewrite Hc.
  now rewrite IH.
Qed.

Lemma pieces_from_word (w : jsstring) :
  forallb isWord w = true -> pieces_from true w = [].
Proof.
  induction w as [|c r IH]; intros H; [reflexivity|].
  cbn [forallb] in H. apply andb_true_iff in H as [Hc H].
  cbn [pieces_from andb]. rewrite Hc. now apply IH.
Qed.

Lemma segment_items (seg : jsstring) :
  plain_segment seg || param_segment seg = true ->
  map item_of_piece (param_pieces seg) = segment_pattern_spec seg.
Proof.
  intros H. apply orb_true_iff in H as [P|P].
  - unfold param_pieces. rewrite (pieces_from_plain _ P), map_map.
    destruct seg as [|c r]; [reflexivity|].
    unfold plain_segment in P. cbn [forallb] in P.
    apply andb_true_iff in P as [Hc _]. apply negb_true_iff in Hc.
    cbn [segment_pattern_spec]. rewrite Hc. reflexivity.
  - destruct seg as [|c w]; [discriminate|]. cbn [param_segment] in P.
    apply andb_true_iff in P as [P Hw]. apply andb_true_iff in P as [Hc Hne].
    assert (E : takeWhile isWord w = w).
    { rewrite <- (app_nil_r w) at 1. now apply takeWhile_word. }
    unfold param_pieces. cbn [pieces_from andb segment_pattern_spec].
    rewrite Hc, E. destruct w as [|d w]; [discriminate|].
    now rewrite (pieces_from_word _ Hw).
Qed.

Lemma segments_items (segs : list jsstring) :
  forallb (fun seg => plain_segment seg || param_segment seg) segs = true ->
  map item_of_piece (param_pieces (join_with slash segs))
  = segments_pattern_spec segs.
Proof.
  induction segs as [|seg rest IH]; intros H; [reflexivity|].
  cbn [forallb] in H. apply andb_true_iff in H as [Hseg H].
  destruct rest as [|seg' rest'].
  - cbn [join_with segments_pattern_spec]. now apply segment_items.
  - change (join_with slash (seg :: seg' :: rest'))
      with (seg ++ slash :: join_with slash (seg' :: rest')).
    unfold param_pieces. rewrite pieces_from_app_slash, map_app.
    cbn [map item_of_piece]. fold (param_pieces seg).
    fold (param_pieces (join_with slash (seg' :: rest'))).
    rewrite (segment_items _ Hseg), (IH H). reflexivity.
Qed.

Lemma template_items (t : jsstring) :
  template_ok t = true ->
  map item_of_piece (param_pieces t) = segments_pattern_spec (split_on slash t).
Proof.
  intros H. rewrite <- (join_split slash t) at 1. now apply segments_items.
Qed.

Lemma Matches_items (ps : list piece) (s : jsstring) :
  Matches (map item_of_piece ps) s <-> Instance ps s.
Proof.
  split.
  - revert s. induction ps as [|p ps IH]; intros s H.
    + inversion H. constructor.
    + destruct p as [c|name]; cbn [map item_of_piece] in H; inversion H; subst.
      * constructor. now apply IH.
      * constructor; auto.
  - induction 1; cbn [map item_of_piece]; constructor; auto.
Qed.

Lemma Matches_literals (l s : jsstring) :
  Matches (map Literal l) s -> s = l.
Proof.
  revert s. induction l as [|c l IH]; intros s H; cbn [map] in H; inversion H; subst.
  - reflexivity.
  - f_equal. now apply IH.
Qed.

Lemma strip_query_and_fragment_spec_eq (url : jsstring) :
  currentPath_of url = strip_query_and_fragment_spec url.
Proof.
  unfold currentPath_of, strip_query_and_fragment_spec.
  induction url as [|c r IH]; [reflexivity|].
  cbn [before_first takeWhile].
  destruct (N.eqb c question); [reflexivity|].
  cbn [before_first orb]. destruct (N.eqb c hash); [reflexivity|].
  cbn [negb]. now rewrite IH.
Qed.

Lemma isActive_spec_agrees (url path : jsstring) (exact : bool) :
  regexp_plain path = true -> template_ok path = true ->
  (isActive url path exact = Some (Returns true) <-> isActive_spec path url exact).
Proof.
  intros Hp Hok. unfold isActive_spec, matching_pattern_spec.
  rewrite <- (template_items _ Hok), <- strip_query_and_fragment_spec_eq.
  destruct exact.
  - rewrite (isActive_exact_iff url path Hp). split.
    + intros (s & -> & Hi). constructor. now apply Matches_items.
    + intros H. inversion H; subst. eexists. split; [reflexivity|].
      now apply Matches_items.
  - rewrite (isActive_prefix_iff url path Hp). split.
    + intros (s & rest & -> & Hi). exists (slash :: s), rest.
      split; [reflexivity|]. constructor. now apply Matches_items.
    + intros (s & rest & E & H). inversion H; subst.
      eexists. exists rest. split; [exact E|]. now apply Matches_items.
Qed.

(** C6: [isActive] hands the template to [new RegExp] as it is, so the
    literal text of a template is read as a regular expression and not, as
    the specification has it, as itself.  For the template [a.b] the current path
    [/axb] is active, exactly and as a prefix, though it does not match the
    pattern of the specification, in which [.] stands for itself.  For a template
    without syntax characters of regular expressions, whose segments are
    each without [':'] or a [':'] followed by one or more word characters,
    [isActive] returns a boolean, and it returns true exactly when the
    current path, cut at the first ['?'] or ['#'], matches the pattern of
    the specification: ['/'] and the template, each parameter segment replaced by a
    wildcard for one or more code units other than ['/'], up to its end
    when [exact] is set and up to some point of it otherwise.  The three
    examples of the specification evaluate as stated. *)
Theorem isActive_reads_template_as_regexp :
  (isActive (js "/axb") (js "a.b") true = Some (Returns true)
   /\ ~ isActive_spec (js "a.b") (js "/axb") true
   /\ isActive (js "/axb") (js "a.b") false = Some (Returns true)
   /\ ~ isActive_spec (js "a.b") (js "/axb") false)
  /\ (forall url path exact,
        regexp_plain path = true -> template_ok path = true ->
        (isActive url path exact = Some (Returns true)
         <-> isActive_spec path url exact)
        /\ exists b, isActive url path exact = Some (Returns b))
  /\ (forall url, currentPath_of url = strip_query_and_fragment_spec url)
  /\ isActive (js "/users/42?x=1") (js "users/:userId") false = Some (Returns true)
  /\ isActive (js "/users/42/edit") (js "users/:userId") true = Some (Returns false)
  /\ isActive (js "/users/42/edit") (js "users/:userId") false = Some (Returns true).
Proof.
  split; [|split; [|split; [exact strip_query_and_fragment_spec_eq | repeat split]]].
  - split; [reflexivity|]. split; [|split; [reflexivity|]].
    + unfold isActive_spec.
      change (matching_pattern_spec (js "a.b")) with (map Literal (js "/a.b")).
      intros H. apply Matches_literals in H. discriminate H.
    + unfold isActive_spec.
      change (matching_pattern_spec (js "a.b")) with (map Literal (js "/a.b")).
      intros (s & rest & E & H). apply Matches_literals in H. subst s.
      discriminate E.
  - intros url path exact Hp Hok. split; [now apply isActive_spec_agrees|].
    rewrite (isActive_plain url _ exact Hp). eauto.
Qed.

(** *** C10: exact and prefix matches *)

Lemma match_atoms_drop_end (l : list atom) :
  forall st s, match_atoms (l ++ [AEnd]) st s = true -> match_atoms l st s = true.
Proof.
  induction l as [|a l IH]; intros st s; [reflexivity|].
  destruct a; cbn [app].
  - cbn [match_atoms]. destruct s as [|d s]; [discriminate|].
    rewrite !andb_true_iff. intros [H1 H2]. split; [exact H1 | now apply IH].
  - cbn [match_atoms]. destruct s as [|d s]; [discriminate|].
    rewrite !andb_true_iff. intros [H1 H2]. split; [exact H1 | now apply IH].
  - rewrite !match_atoms_plus.
    intros (w & s' & E & Hw & Hs & H). exists w, s'. repeat split; auto.
  - cbn [match_atoms]. rewrite !andb_true_iff. intros [H1 H2]. split; auto.
  - cbn [match_atoms]. destruct s; [apply IH | discriminate].
Qed.

Lemma test_from_drop_end (l : list atom) (st : bool) (s : jsstring) :
  test_from (l ++ [AEnd]) st s = true -> test_from l st s = true.
Proof.
  revert st. induction s as [|c s IH]; intros st; cbn [test_from];
    rewrite !orb_true_iff.
  - intros [H|H]; [left; now apply match_atoms_drop_end | discriminate].
  - intros [H|H]; [left; now apply match_atoms_drop_end | right; now apply IH].
Qed.

Lemma cons_atom_returns (a : atom) (r : option (outcome (list atom))) (l : list atom) :
  cons_atom a r = Some (Returns l) ->
  exists l0, r = Some (Returns l0) /\ l = a :: l0.
Proof.
  destruct r as [[l0|e]|]; simpl; try discriminate.
  intros E. injection E as <-. now exists l0.
Qed.

Lemma RegExp_drop_dollar_bounded (n : nat) :
  forall (X : jsstring) (l : list atom),
    (length X <= n)%nat ->
    no_backslash X = true ->
    RegExp (X ++ [dollar]) = Some (Returns l) ->
    exists l', RegExp X = Some (Returns l') /\ l = l' ++ [AEnd].
Proof.
  induction n as [|n IH]; intros X l Hlen Hnb H.
  - destruct X; [|simpl in Hlen; lia].
    simpl in H. injection H as <-. now exists [].
  - destruct X as [|c r].
    { simpl in H. injection H as <-. now exists []. }
    simpl in Hlen. simpl in Hnb. apply andb_true_iff in Hnb as [Hc Hnb].
    apply negb_true_iff in Hc.
    assert (Hstep : forall a, cons_atom a (RegExp (r ++ [dollar])) = Some (Returns l) ->
              exists l', cons_atom a (RegExp r) = Some (Returns l') /\ l = l' ++ [AEnd]).
    { intros a Ha. apply cons_atom_returns in Ha as (l0 & Hr & ->).
      destruct (IH r l0) as (l' & Hl' & ->); [lia | exact Hnb | exact Hr |].
      exists (a :: l'). rewrite Hl'. split; reflexivity. }
    cbn [app RegExp] in H. cbn [RegExp]. rewrite Hc in *.
    destruct (N.eqb c 94); [now apply Hstep|].
    destruct (N.eqb c dollar); [now apply Hstep|].
    destruct (N.eqb c 91).
    + destruct r as [|c1 [|c2 [|c3 [|c4 r']]]]; try discriminate.
      * cbn [app] in H. destruct (N.eqb c1 94 && N.eqb c2 slash && N.eqb c3 93) eqn:E;
          [|rewrite andb_false_l in H; discriminate].
        cbn in H. discriminate.
      * cbn [app] in H.
        destruct (N.eqb c1 94 && N.eqb c2 slash && N.eqb c3 93 && N.eqb c4 43);
          [|discriminate].
        apply cons_atom_returns in H as (l0 & Hr & ->).
        simpl in Hnb. repeat (apply andb_true_iff in Hnb as [_ Hnb]).
        destruct (IH r' l0) as (l' & Hl' & ->);
          [simpl in Hlen; lia | exact Hnb | exact Hr |].
        exists (ANotSlashPlus :: l'). rewrite Hl'. split; reflexivity.
    + destruct (N.eqb c 46); [now apply Hstep|].
      destruct (isSyntaxChar c); [discriminate | now apply Hstep].
Qed.

Lemma RegExp_drop_dollar (X : jsstring) (l : list atom) :
  no_backslash X = true ->
  RegExp (X ++ [dollar]) = Some (Returns l) ->
  exists l', RegExp X = Some (Returns l') /\ l = l' ++ [AEnd].
Proof. apply (RegExp_drop_dollar_bounded (length X)). lia. Qed.

Lemma render_pieces_no_backslash (ps : list piece) :
  Forall (fun p => match p with
                   | Char c => negb (N.eqb c backslash) = true
                   | Match _ => True
                   end) ps ->
  no_backslash (render_pieces (js "[^/]+") ps) = true.
Proof.
  unfold no_backslash. induction 1 as [|p ps Hp _ IH]; [reflexivity|].
  destruct p as [c|name]; cbn [render_pieces].
  - cbn [forallb]. now rewrite Hp.
  - rewrite forallb_app, IH. reflexivity.
Qed.

Lemma active_pattern_no_backslash (path : jsstring) :
  no_backslash path = true -> no_backslash (94 :: active_pattern path) = true.
Proof.
  intros H. unfold active_pattern.
  change (no_backslash (render_pieces (js "[^/]+") (param_pieces path)) = true).
  apply render_pieces_no_backslash. now apply pieces_chars.
Qed.

Lemma exact_implies_prefix_no_backslash (url path : jsstring) :
  no_backslash path = true ->
  isActive url path true = Some (Returns true) ->
  isActive url path false = Some (Returns true).
Proof.
  intros Hnb. unfold isActive.
  change (active_source path true) with ((94 :: active_pattern path) ++ [dollar]).
  change (active_source path false) with (94 :: active_pattern path).
  destruct (RegExp ((94 :: active_pattern path) ++ [dollar])) as [[l|e]|] eqn:E;
    try discriminate.
  apply RegExp_drop_dollar in E as (l' & -> & ->);
    [|now apply active_pattern_no_backslash].
  intros H. injection H as H. unfold RegExp_test in *.
  now rewrite (test_from_drop_end _ _ _ H).
Qed.

(** C10: an exact match is not always a prefix match, because the template
    is not escaped: a backslash that ends it escapes the ['$'] of the exact
    pattern.  For the template [a\] at the URL [/a$] the exact pattern
    [^/a\$] matches, and the prefix pattern [^/a\] is not a regular
    expression, so that [isActive] throws a [SyntaxError].  With the pattern
    of the specification an exact match is a prefix match for every template
    and URL; so it is for [isActive] on every template without a backslash
    whose pattern is read here, and on a template without syntax characters
    of regular expressions [isActive] returns a boolean in both modes. *)
Theorem isActive_exact_match_may_throw_as_prefix :
  (isActive (js "/a$") (js "a\") true = Some (Returns true)
   /\ isActive (js "/a$") (js "a\") false = Some (Throws SyntaxError))
  /\ (forall template currentPath,
        isActive_spec template currentPath true ->
        isActive_spec template currentPath false)
  /\ (forall url path,
        no_backslash path = true ->
        isActive url path true = Some (Returns true) ->
        isActive url path false = Some (Returns true))
  /\ (forall url path exact,
        regexp_plain path = true ->
        exists b, isActive url path exact = Some (Returns b)).
Proof.
  split; [split; reflexivity|]. split; [|split].
  - unfold isActive_spec. intros template currentPath H.
    exists (strip_query_and_fragment_spec currentPath), [].
    split; [now rewrite app_nil_r | exact H].
  - exact exact_implies_prefix_no_backslash.
  - intros url path exact Hp. rewrite (isActive_plain url _ exact Hp). eauto.
Qed.

(** ** C1: [buildPath] *)

(** *** What [encodeURIComponent] returns *)

Lemma bind_returns {A B : Type} (m : outcome A) (k : A -> outcome B) (b : B) :
  bind m k = Returns b -> exists a, m = Returns a /\ k a = Returns b.
Proof. destruct m as [a|e]; simpl; [eauto | discriminate]. Qed.

Lemma hexDigit_inert (d : N) : inert (hexDigit d).
Proof.
  unfold inert, hexDigit, colon, dollar.
  destruct (N.ltb_spec d 10); split; lia.
Qed.

Lemma uriUnescaped_inert (c : N) : uriUnescaped c = true -> inert c.
Proof. intros H; split; intros ->; vm_compute in H; discriminate. Qed.

Lemma pctBytes_inert (bs : list N) : Forall inert (flat_map pctByte bs).
Proof.
  induction bs as [|b bs IH]; simpl; [constructor|].
  constructor; [split; discriminate|].
  constructor; [apply hexDigit_inert|].
  constructor; [apply hexDigit_inert | exact IH].
Qed.

Lemma encodeURIComponent_inert_bounded (n : nat) :
  forall s r, (length s <= n)%nat ->
    encodeURIComponent s = Returns r -> Forall inert r.
Proof.
  induction n as [|n IH]; intros s r Hlen H.
  - destruct s; [|simpl in Hlen; lia]. injection H as <-. constructor.
  - destruct s as [|c s]; [injection H as <-; constructor|].
    simpl in Hlen. cbn [encodeURIComponent] in H.
    destruct (uriUnescaped c) eqn:U.
    + apply bind_returns in H as (t & Ht & E). injection E as <-.
      constructor; [now apply uriUnescaped_inert | apply (IH s); [lia | exact Ht]].
    + destruct (isLowSurrogate c); [discriminate|].
      destruct (isHighSurrogate c).
      * destruct s as [|d s']; [discriminate|].
        destruct (isLowSurrogate d); [|discriminate].
        apply bind_returns in H as (t & Ht & E). injection E as <-.
        apply Forall_app. split; [apply pctBytes_inert|].
        apply (IH s'); [simpl in Hlen; lia | exact Ht].
      * apply bind_returns in H as (t & Ht & E). injection E as <-.
        apply Forall_app. split; [apply pctBytes_inert|].
        apply (IH s); [lia | exact Ht].
Qed.

Lemma encodeURIComponent_inert (s r : jsstring) :
  encodeURIComponent s = Returns r ->
  ~ In colon r /\ ~ In dollar r.
Proof.
  intros H. apply (encodeURIComponent_inert_bounded (length s)) in H; [|lia].
  rewrite Forall_forall in H.
  split; intros Hin; apply H in Hin; destruct Hin; congruence.
Qed.

(** *** Replacing the first occurrence *)

Lemma getSubstitution_plain (matched before after rep : jsstring) :
  ~ In dollar rep -> getSubstitution matched before after rep = rep.
Proof.
  induction rep as [|c r IH]; simpl; intros H; [reflexivity|].
  destruct (N.eqb c dollar) eqn:E.
  - apply N.eqb_eq in E. exfalso. apply H. now left.
  - rewrite IH; [reflexivity | tauto].
Qed.

Lemma String_replace_plain (s pat rep : jsstring) :
  ~ In dollar rep -> String_replace s pat rep = replace_first s pat rep.
Proof.
  intros H. unfold String_replace, replace_first.
  destruct (split_at_first pat s) as [[b a]|]; [|reflexivity].
  now rewrite getSubstitution_plain.
Qed.

Lemma split_at_first_cons (pat : jsstring) (c : N) (r : jsstring) :
  split_at_first pat (c :: r) =
  if startsWith pat (c :: r) then Some ([], skipn (length pat) (c :: r))
  else match split_at_first pat r with
       | Some (b, a) => Some (c :: b, a)
       | None => None
       end.
Proof. reflexivity. Qed.

Lemma split_at_first_spec (pat s b a : jsstring) :
  split_at_first pat s = Some (b, a) -> s = b ++ pat ++ a.
Proof.
  revert b a. induction s as [|c r IH]; intros b a.
  - simpl. destruct (startsWith pat []) eqn:E; [|discriminate].
    intros H. injection H as <- <-.
    apply startsWith_spec in E as [r0 E]. rewrite E at 1.
    simpl. f_equal. rewrite E. now rewrite skipn_length_app.
  - rewrite split_at_first_cons. destruct (startsWith pat (c :: r)) eqn:E.
    + intros H. injection H as <- <-.
      apply startsWith_spec in E as [r0 E]. rewrite E.
      simpl. now rewrite skipn_length_app.
    + destruct (split_at_first pat r) as [[b0 a0]|]; [|discriminate].
      intros H. injection H as <- <-. simpl. f_equal. now apply IH.
Qed.


Lemma replace_first_cons_nomatch (pat rep : jsstring) (c : N) (s : jsstring) :
  startsWith pat (c :: s) = false ->
  replace_first (c :: s) pat rep = c :: replace_first s pat rep.
Proof.
  intros H. unfold replace_first. rewrite split_at_first_cons, H.
  now destruct (split_at_first pat s) as [[b a]|].
Qed.

Lemma startsWith_colon_other (k : jsstring) (c : N) (s : jsstring) :
  c <> colon -> startsWith (colon :: k) (c :: s) = false.
Proof.
  intros H. cbn [startsWith]. apply andb_false_iff. left.
  apply N.eqb_neq. congruence.
Qed.

Lemma replace_first_skip (k rep n s : jsstring) :
  ~ In colon n ->
  replace_first (n ++ s) (colon :: k) rep = n ++ replace_first s (colon :: k) rep.
Proof.
  induction n as [|x n IH]; intros H; [reflexivity|]. simpl app.
  rewrite replace_first_cons_nomatch.
  - rewrite IH; [reflexivity | simpl in H; tauto].
  - apply startsWith_colon_other. intros ->. apply H. now left.
Qed.

Lemma startsWith_comparable (k n rest : jsstring) :
  startsWith k (n ++ rest) = true ->
  startsWith k n = true \/ startsWith n k = true.
Proof.
  revert n. induction k as [|x k IH]; intros n H; [now left|].
  destruct n as [|y n]; [now right|].
  simpl in *. apply andb_true_iff in H as [Hxy H].
  rewrite (N.eqb_sym y x), Hxy. simpl. now apply IH.
Qed.

(** *** The template as pieces *)

Lemma takeWhile_nil_head (c : N) (r : jsstring) :
  isWord c = false -> takeWhile isWord (c :: r) = [].
Proof. intros H. simpl. now rewrite H. Qed.

Lemma pieces_text_scan (s : jsstring) :
  pieces_text (pieces_from false s) = s
  /\ takeWhile isWord s ++ pieces_text (pieces_from true s) = s.
Proof.
  induction s as [|c r [IH1 IH2]]; [split; reflexivity|].
  assert (F : pieces_text (pieces_from false (c :: r)) = c :: r).
  { simpl. destruct (N.eqb c colon) eqn:E; [|simpl; now rewrite IH1].
    apply N.eqb_eq in E; subst c.
    destruct (takeWhile isWord r) as [|d w] eqn:T; simpl; [now rewrite IH1|].
    f_equal. first [exact IH2 | rewrite <- T; exact IH2]. }
  split; [exact F|].
  destruct (isWord c) eqn:W.
  - simpl. rewrite W. simpl. now rewrite IH2.
  - rewrite takeWhile_nil_head by exact W. simpl app.
    rewrite <- F at 1. simpl. now rewrite W.
Qed.

Lemma pieces_text_param_pieces (t : jsstring) :
  pieces_text (param_pieces t) = t.
Proof. apply pieces_text_scan. Qed.

Lemma pieces_match_words (s : jsstring) :
  forall b, Forall (fun p => match p with
                             | Char _ => True
                             | Match n => forallb isWord n = true
                             end) (pieces_from b s).
Proof.
  induction s as [|c r IH]; intros b; simpl; [constructor|].
  destruct (b && isWord c); [apply IH|].
  destruct (N.eqb c colon); [|constructor; auto].
  destruct (takeWhile isWord r) as [|d w] eqn:T; constructor; auto.
  rewrite <- T. apply takeWhile_forall.
Qed.

Lemma word_no_colon (n : jsstring) : forallb isWord n = true -> ~ In colon n.
Proof.
  intros H Hin. rewrite forallb_forall in H. apply H in Hin.
  vm_compute in Hin. discriminate.
Qed.

Lemma param_pieces_clean (t : jsstring) :
  colons_begin_tokens t = true -> Forall clean_piece (param_pieces t).
Proof.
  unfold colons_begin_tokens. rewrite forallb_forall, Forall_forall.
  intros H p Hin. pose proof (pieces_match_words t false) as Hw.
  rewrite Forall_forall in Hw. specialize (Hw p Hin). specialize (H p Hin).
  destruct p as [c|n]; simpl.
  - apply negb_true_iff, N.eqb_neq in H. exact H.
  - now apply word_no_colon.
Qed.





(** *** Sublists *)

Lemma sublist_refl {A : Type} (l : list A) : sublist l l.
Proof. induction l; [apply sublist_nil | now apply sublist_keep]. Qed.


Lemma sublist_trans {A : Type} (l1 l2 l3 : list A) :
  sublist l1 l2 -> sublist l2 l3 -> sublist l1 l3.
Proof.
  intros H12 H23. revert l1 H12.
  induction H23 as [|x l2 l3 _ IH|x l2 l3 _ IH]; intros l1 H12.
  - exact H12.
  - apply sublist_skip. now apply IH.
  - inversion H12; subst; [apply sublist_skip | apply sublist_keep]; now apply IH.
Qed.

Lemma prefix_free_head (n : jsstring) (rest : list jsstring) (m : jsstring) :
  prefix_free (n :: rest) = true -> In m rest ->
  startsWith n m = false /\ startsWith m n = false.
Proof.
  simpl. intros H Hin. apply andb_true_iff in H as [H _].
  rewrite forallb_forall in H. specialize (H m Hin).
  apply andb_true_iff in H as [H1 H2].
  now apply negb_true_iff in H1, H2.
Qed.

Lemma prefix_free_tail (n : jsstring) (rest : list jsstring) :
  prefix_free (n :: rest) = true -> prefix_free rest = true.
Proof. simpl. intros H. now apply andb_true_iff in H. Qed.


(** *** One replacement, on pieces *)



(** *** The loop of [buildPath], on pieces *)





(* ================================================================== *)
(** * Further properties of the code *)
(* ================================================================== *)

(** ** [getParamNames] *)

Lemma takeWhile_prefix (f : N -> bool) (s : jsstring) :
  exists r, s = takeWhile f s ++ r.
Proof.
  induction s as [|c s [r IH]]; simpl; [now exists []|].
  destruct (f c); [exists r; simpl; now rewrite <- IH | now exists (c :: s)].
Qed.

Lemma pieces_match_occurs (s : jsstring) :
  forall b n, In (Match n) (pieces_from b s) ->
    exists a r, s = a ++ colon :: n ++ r.
Proof.
  induction s as [|c s IH]; intros b n; simpl; [tauto|].
  assert (Hrec : forall b', In (Match n) (pieces_from b' s) ->
            exists a r, c :: s = a ++ colon :: n ++ r).
  { intros b' H. destruct (IH b' n H) as (a & r & ->). now exists (c :: a), r. }
  destruct (b && isWord c); [apply Hrec|].
  destruct (N.eqb c colon) eqn:E.
  - apply N.eqb_eq in E; subst c.
    destruct (takeWhile isWord s) as [|d w] eqn:T.
    + intros [H|H]; [discriminate | now apply (Hrec false)].
    + intros [H|H]; [|now apply (Hrec true)].
      injection H as <-. destruct (takeWhile_prefix isWord s) as [r Hr].
      rewrite T in Hr. exists [], r. simpl. now rewrite Hr.
  - intros [H|H]; [discriminate | now apply (Hrec false)].
Qed.

Lemma match_names_In (ps : list piece) (n : jsstring) :
  In n (match_names ps) <-> In (Match n) ps.
Proof.
  induction ps as [|[c|m] ps IH]; simpl; [tauto | |].
  - rewrite IH. intuition discriminate.
  - rewrite IH. intuition congruence.
Qed.

(** X1: every name [getParamNames] gives is a non-empty run of word
    characters, and the template contains it as the token [:name]. *)
Theorem getParamNames_sound (t : jsstring) :
  Forall (fun n => n <> [] /\ forallb isWord n = true
                   /\ includes (colon :: n) t = true)
         (getParamNames t).
Proof.
  apply Forall_forall. intros n Hin.
  split; [now apply (getParamNames_nonempty t)|].
  unfold getParamNames in Hin. apply match_names_In in Hin. split.
  - pose proof (pieces_match_words t false) as Hw. rewrite Forall_forall in Hw.
    exact (Hw _ Hin).
  - destruct (pieces_match_occurs t false n Hin) as (a & r & ->).
    change (colon :: n ++ r) with ((colon :: n) ++ r). apply includes_app.
Qed.

(** X2: the names of a full path are the names of the prefix followed by
    the names of the segment, for the concatenation of [buildPathsMap] and
    for the type-level [JoinPath] alike. *)
Theorem getParamNames_of_full_path (prefix path : jsstring) :
  getParamNames (fullPath_of prefix path)
  = getParamNames prefix ++ getParamNames path
  /\ getParamNames (JoinPath prefix path)
     = getParamNames prefix ++ getParamNames path.
Proof.
  unfold fullPath_of, JoinPath, truthy. split.
  - destruct (str_eqb prefix []) eqn:E; simpl.
    + apply str_eqb_eq in E; now subst prefix.
    + apply getParamNames_app_slash.
  - destruct (str_eqb prefix []) eqn:E.
    + apply str_eqb_eq in E; now subst prefix.
    + destruct (str_eqb path []) eqn:E'.
      * apply str_eqb_eq in E'; subst path. now rewrite app_nil_r.
      * apply getParamNames_app_slash.
Qed.

(** ** [buildPath]: errors, and what the result is made of *)

Lemma encodeURIComponent_throws_bounded (n : nat) :
  forall s e, (length s <= n)%nat ->
    encodeURIComponent s = Throws e -> e = URIError.
Proof.
  induction n as [|n IH]; intros s e Hlen H.
  - destruct s; [discriminate | simpl in Hlen; lia].
  - destruct s as [|c s]; [discriminate|].
    simpl in Hlen. cbn [encodeURIComponent] in H.
    assert (Hb : forall (s' : jsstring) (k : jsstring -> outcome jsstring),
               (length s' <= n)%nat -> (forall t, k t <> Throws e) ->
               bind (encodeURIComponent s') k = Throws e -> e = URIError).
    { intros s' k Hl Hk Hbind.
      destruct (encodeURIComponent s') as [t|e'] eqn:E; simpl in Hbind.
      - now apply Hk in Hbind.
      - injection Hbind as ->. now apply (IH s'). }
    destruct (uriUnescaped c).
    + apply Hb in H; [exact H | lia | discriminate].
    + destruct (isLowSurrogate c); [now injection H|].
      destruct (isHighSurrogate c).
      * destruct s as [|d s']; [now injection H|].
        destruct (isLowSurrogate d); [|now injection H].
        apply Hb in H; [exact H | simpl in Hlen; lia | discriminate].
      * apply Hb in H; [exact H | lia | discriminate].
Qed.

Lemma encodeURIComponent_throws (s : jsstring) (e : error) :
  encodeURIComponent s = Throws e -> e = URIError.
Proof. apply (encodeURIComponent_throws_bounded (length s)). lia. Qed.

Lemma substitute_outcome (entries : object jsstring) :
  forall s,
    (Forall (fun kv => exists enc, encodeURIComponent (snd kv) = Returns enc) entries
     /\ exists r, substitute s entries = Returns r)
    \/ (Exists (fun kv => encodeURIComponent (snd kv) = Throws URIError) entries
        /\ substitute s entries = Throws URIError).
Proof.
  induction entries as [|[k v] rest IH]; intros s.
  - left. split; [constructor | now exists s].
  - cbn [substitute]. destruct (encodeURIComponent v) as [enc|e] eqn:E; cbn [bind].
    + destruct (IH (String_replace s (colon :: k) enc)) as [[HF Hr]|[HE Ht]].
      * left. split; [constructor; [now exists enc | exact HF] | exact Hr].
      * right. split; [now apply Exists_cons_tl | exact Ht].
    + pose proof (encodeURIComponent_throws _ _ E) as ->.
      right. split; [now apply Exists_cons_hd | reflexivity].
Qed.

(** X3: [buildPath] returns exactly when [encodeURIComponent] accepts the
    value of every entry of [params], whether or not the key of the entry
    occurs in the template; otherwise it throws a [URIError], and nothing
    else. *)
Theorem buildPath_returns_iff_values_encode (path : jsstring) (params : object jsstring) :
  ((exists r, buildPath path params = Returns r) <->
   Forall (fun kv => exists enc, encodeURIComponent (snd kv) = Returns enc) params)
  /\ (buildPath path params = Throws URIError <->
      Exists (fun kv => encodeURIComponent (snd kv) = Throws URIError) params)
  /\ (forall e, buildPath path params = Throws e -> e = URIError).
Proof.
  unfold buildPath.
  destruct (substitute_outcome params path) as [[HF [r Hr]]|[HE Ht]].
  - rewrite Hr. cbn [bind].
    assert (Hret : exists r', (if negb (startsWith [slash] r)
                               then Returns (slash :: r) else Returns r)
                              = Returns r').
    { destruct (negb (startsWith [slash] r)); eauto. }
    destruct Hret as [r' Hr']. rewrite Hr'.
    split; [split; [intros _; exact HF | intros _; now exists r']|].
    split; [|discriminate].
    split; [discriminate|]. intros HE. exfalso.
    apply Exists_exists in HE as (kv & Hin & Hkv).
    rewrite Forall_forall in HF. destruct (HF kv Hin) as [enc He]. congruence.
  - rewrite Ht. cbn [bind].
    split; [split; [intros [r Hr]; discriminate|]|].
    + intros HF. exfalso.
      apply Exists_exists in HE as (kv & Hin & Hkv).
      rewrite Forall_forall in HF. destruct (HF kv Hin) as [enc He]. congruence.
    + split; [split; [intros _; exact HE | reflexivity]|].
      intros e H. now injection H.
Qed.

Lemma hexDigit_unreserved (d : N) : uri_reserved (hexDigit d) = false.
Proof.
  unfold uri_reserved, hexDigit. cbn [existsb].
  destruct (N.ltb_spec d 10);
    repeat (apply orb_false_iff; split); try reflexivity; apply N.eqb_neq; lia.
Qed.

Lemma uriUnescaped_unreserved (c : N) :
  uriUnescaped c = true -> uri_reserved c = false.
Proof.
  intros H. destruct (uri_reserved c) eqn:R; [|reflexivity].
  unfold uri_reserved in R. apply existsb_exists in R as (k & Hk & E).
  apply N.eqb_eq in E; subst k. simpl in Hk.
  repeat (destruct Hk as [<-|Hk]; [vm_compute in H; discriminate|]).
  contradiction.
Qed.

Lemma pctBytes_unreserved (bs : list N) :
  Forall (fun c => uri_reserved c = false) (flat_map pctByte bs).
Proof.
  induction bs as [|b bs IH]; simpl; [constructor|].
  constructor; [reflexivity|].
  constructor; [apply hexDigit_unreserved|].
  constructor; [apply hexDigit_unreserved | exact IH].
Qed.

Lemma encodeURIComponent_unreserved_bounded (n : nat) :
  forall s r, (length s <= n)%nat ->
    encodeURIComponent s = Returns r ->
    Forall (fun c => uri_reserved c = false) r /\ (s <> [] -> r <> []).
Proof.
  induction n as [|n IH]; intros s r Hlen H.
  - destruct s; [|simpl in Hlen; lia]. injection H as <-.
    split; [constructor | congruence].
  - destruct s as [|c s]; [injection H as <-; split; [constructor | congruence]|].
    simpl in Hlen. cbn [encodeURIComponent] in H.
    destruct (uriUnescaped c) eqn:U.
    + apply bind_returns in H as (t & Ht & E). injection E as <-.
      split; [|discriminate].
      constructor; [now apply uriUnescaped_unreserved|].
      apply (IH s); [lia | exact Ht].
    + destruct (isLowSurrogate c); [discriminate|].
      destruct (isHighSurrogate c).
      * destruct s as [|d s']; [discriminate|].
        destruct (isLowSurrogate d); [|discriminate].
        apply bind_returns in H as (t & Ht & E). injection E as <-.
        split.
        -- apply Forall_app. split; [apply pctBytes_unreserved|].
           apply (IH s'); [simpl in Hlen; lia | exact Ht].
        -- intros _. unfold utf8.
           repeat match goal with |- context [if ?b then _ else _] => destruct b end;
             discriminate.
      * apply bind_returns in H as (t & Ht & E). injection E as <-.
        split.
        -- apply Forall_app. split; [apply pctBytes_unreserved|].
           apply (IH s); [lia | exact Ht].
        -- intros _. unfold utf8.
           repeat match goal with |- context [if ?b then _ else _] => destruct b end;
             discriminate.
Qed.

Lemma encodeURIComponent_unreserved (s r : jsstring) :
  encodeURIComponent s = Returns r ->
  (forall c, In c r -> uri_reserved c = false) /\ (s <> [] -> r <> []).
Proof.
  intros H. apply (encodeURIComponent_unreserved_bounded (length s)) in H; [|lia].
  destruct H as [H1 H2]. split; [now apply Forall_forall | exact H2].
Qed.

Lemma replace_first_In (s pat rep : jsstring) (c : N) :
  In c (replace_first s pat rep) -> In c s \/ In c rep.
Proof.
  unfold replace_first. destruct (split_at_first pat s) as [[b a]|] eqn:E; [|tauto].
  apply split_at_first_spec in E. subst s.
  rewrite !in_app_iff. tauto.
Qed.

Lemma substitute_In (entries : object jsstring) :
  forall s r, substitute s entries = Returns r ->
    forall c, In c r -> In c s \/ uri_reserved c = false.
Proof.
  induction entries as [|[k v] rest IH]; intros s r H c Hc.
  - injection H as <-. now left.
  - cbn [substitute] in H. apply bind_returns in H as (enc & He & H).
    destruct (encodeURIComponent_inert _ _ He) as [_ Hd].
    destruct (encodeURIComponent_unreserved _ _ He) as [Hu _].
    rewrite String_replace_plain in H by exact Hd.
    destruct (IH _ _ H c Hc) as [Hin|Hin]; [|now right].
    apply replace_first_In in Hin as [Hin|Hin]; [now left | right; now apply Hu].
Qed.

Lemma sublist_nil_l {A : Type} (l : list A) : sublist [] l.
Proof. induction l; [apply sublist_nil | now apply sublist_skip]. Qed.

Lemma sublist_app {A : Type} (l1 l2 l1' l2' : list A) :
  sublist l1 l2 -> sublist l1' l2' -> sublist (l1 ++ l1') (l2 ++ l2').
Proof.
  intros H H'. induction H as [|x l1 l2 _ IH|x l1 l2 _ IH]; cbn [app].
  - exact H'.
  - now apply sublist_skip.
  - now apply sublist_keep.
Qed.

Lemma filter_none {A : Type} (f : A -> bool) (l : list A) :
  (forall x, In x l -> f x = false) -> filter f l = [].
Proof.
  induction l as [|x l IH]; intros H; [reflexivity|].
  cbn [filter]. rewrite (H x (or_introl eq_refl)). apply IH.
  intros y Hy. apply H. now right.
Qed.

Lemma replace_first_reserved (s pat rep : jsstring) :
  (forall c, In c rep -> uri_reserved c = false) ->
  sublist (filter uri_reserved (replace_first s pat rep)) (filter uri_reserved s).
Proof.
  intros Hrep. unfold replace_first.
  destruct (split_at_first pat s) as [[b a]|] eqn:E; [|apply sublist_refl].
  apply split_at_first_spec in E. subst s.
  rewrite !filter_app, (filter_none _ rep Hrep). cbn [app].
  apply sublist_app; [apply sublist_refl|].
  rewrite <- (app_nil_l (filter uri_reserved a)) at 1.
  apply sublist_app; [apply sublist_nil_l | apply sublist_refl].
Qed.

Lemma substitute_reserved (entries : object jsstring) :
  forall s r, substitute s entries = Returns r ->
    sublist (filter uri_reserved r) (filter uri_reserved s).
Proof.
  induction entries as [|[k v] rest IH]; intros s r H.
  - injection H as <-. apply sublist_refl.
  - cbn [substitute] in H. apply bind_returns in H as (enc & He & H).
    destruct (encodeURIComponent_inert _ _ He) as [_ Hd].
    destruct (encodeURIComponent_unreserved _ _ He) as [Hu _].
    rewrite String_replace_plain in H by exact Hd.
    apply (sublist_trans _ _ _ (IH _ _ H)). now apply replace_first_reserved.
Qed.

(** X4: what [buildPath] returns is the template after the substitutions,
    with one ['/'] put in front unless it starts with one, and it starts
    with ['/'].  The substitutions add no reserved character: the reserved
    characters [# $ & + , / : ; = ? @] of the substituted template are, in
    their order, reserved characters of the template, some of them left
    out, and every code unit of it comes from the template or is not
    reserved.  So every ['/'], ['?'] and ['#'] of the substituted template
    is one of the template, and a value never adds one. *)
Theorem buildPath_adds_no_reserved (path : jsstring) (params : object jsstring) :
  forall r, buildPath path params = Returns r ->
    exists body,
      substitute path params = Returns body
      /\ r = with_leading_slash body
      /\ startsWith [slash] r = true
      /\ sublist (filter uri_reserved body) (filter uri_reserved path)
      /\ forall c, In c body -> In c path \/ uri_reserved c = false.
Proof.
  intros r H. unfold buildPath in H.
  apply bind_returns in H as (body & Hb & H).
  exists body. split; [exact Hb|].
  assert (E : r = with_leading_slash body).
  { unfold with_leading_slash.
    destruct (startsWith [slash] body); cbn [negb] in H; now injection H as <-. }
  split; [exact E|]. split.
  - subst r. unfold with_leading_slash.
    destruct (startsWith [slash] body) eqn:S; [exact S | reflexivity].
  - split; [now apply (substitute_reserved params path)|].
    now apply (substitute_In params path).
Qed.

(** ** [buildPath]: what it builds *)

Lemma split_at_first_none_includes (pat s : jsstring) :
  includes pat s = false -> split_at_first pat s = None.
Proof.
  unfold includes. now destruct (split_at_first pat s) as [[b a]|].
Qed.

Lemma String_replace_absent (s pat rep : jsstring) :
  includes pat s = false -> String_replace s pat rep = s.
Proof.
  intros H. unfold String_replace. now rewrite split_at_first_none_includes.
Qed.

Lemma substitute_absent (entries : object jsstring) (s : jsstring) :
  (forall k, In k (obj_keys entries) -> includes (colon :: k) s = false) ->
  Forall (fun kv => exists enc, encodeURIComponent (snd kv) = Returns enc) entries ->
  substitute s entries = Returns s.
Proof.
  intros Habs Henc. induction Henc as [|[k v] rest [enc He] _ IH]; [reflexivity|].
  cbn [substitute]. simpl in He. rewrite He. cbn [bind].
  rewrite String_replace_absent by (apply Habs; now left).
  apply IH. intros k' Hk'. apply Habs. now right.
Qed.

(** X5: entries whose token does not occur in the template leave it as it
    is: when no [:key] of [params] occurs in the template (in particular for
    the empty [params]) and the values encode, [buildPath] returns the
    template, with a ['/'] in front unless it starts with one. *)
Theorem buildPath_ignores_absent_keys (path : jsstring) (params : object jsstring) :
  (forall k, In k (obj_keys params) -> includes (colon :: k) path = false) ->
  Forall (fun kv => exists enc, encodeURIComponent (snd kv) = Returns enc) params ->
  buildPath path params = Returns (with_leading_slash path).
Proof.
  intros Habs Henc. unfold buildPath, with_leading_slash.
  rewrite (substitute_absent params path Habs Henc). cbn [bind].
  now destruct (startsWith [slash] path).
Qed.

Lemma buildPath_ignores_absent_keys_witness :
  (forall k, In k (obj_keys [(js "tab", js "a b")]) ->
     includes (colon :: k) (js "users/:userId") = false)
  /\ buildPath (js "users/:userId") [(js "tab", js "a b")]
     = Returns (js "/users/:userId").
Proof.
  assert (H : forall k, In k (obj_keys [(js "tab", js "a b")]) ->
            includes (colon :: k) (js "users/:userId") = false).
  { intros k [<-|[]]. reflexivity. }
  split; [exact H|].
  apply (buildPath_ignores_absent_keys (js "users/:userId") [(js "tab", js "a b")] H).
  repeat constructor. eexists. reflexivity.
Defined.

Lemma obj_get_app {V : Type} (n : jsstring) (d e : object V) :
  obj_get n (d ++ e) =
  match obj_get n d with Some v => Some v | None => obj_get n e end.
Proof.
  induction d as [|[k v] d IH]; simpl; [reflexivity|].
  now destruct (str_eqb k n).
Qed.

Lemma fill_pieces_ext (d1 d2 : object jsstring) (ps : list piece) :
  (forall n, In n (match_names ps) -> obj_get n d1 = obj_get n d2) ->
  fill_pieces d1 ps = fill_pieces d2 ps.
Proof.
  induction ps as [|[c|n] ps IH]; simpl; intros H; [reflexivity | |].
  - now rewrite IH.
  - rewrite <- (H n) by now left.
    rewrite IH by (intros m Hm; apply H; now right). reflexivity.
Qed.

Lemma fill_pieces_nil (ps : list piece) : fill_pieces [] ps = pieces_text ps.
Proof. induction ps as [|[c|n] ps IH]; simpl; now rewrite ?IH. Qed.

Lemma encoded_returns (v enc : jsstring) :
  encodeURIComponent v = Returns enc -> encoded v = enc.
Proof. unfold encoded. now intros ->. Qed.

Lemma encoded_no_colon (v : jsstring) : ~ In colon (encoded v).
Proof.
  unfold encoded. destruct (encodeURIComponent v) as [e|e] eqn:E; [|simpl; tauto].
  now apply encodeURIComponent_inert in E.
Qed.

Lemma startsWith_refl (s : jsstring) : startsWith s s = true.
Proof. rewrite <- (app_nil_r s) at 2. apply startsWith_app. Qed.

Lemma prefix_free_not_in (n : jsstring) (rest : list jsstring) :
  prefix_free (n :: rest) = true -> ~ In n rest.
Proof.
  intros H Hin. destruct (prefix_free_head _ _ _ H Hin) as [H1 _].
  now rewrite startsWith_refl in H1.
Qed.

Lemma prefix_free_incomparable (l : list jsstring) (a b : jsstring) :
  prefix_free l = true -> In a l -> In b l -> a <> b ->
  startsWith a b = false.
Proof.
  induction l as [|x l IH]; intros H Ha Hb Hab; [contradiction|].
  destruct Ha as [->|Ha]; destruct Hb as [->|Hb].
  - congruence.
  - now destruct (prefix_free_head _ _ _ H Hb).
  - now destruct (prefix_free_head _ _ _ H Ha).
  - apply IH; auto. now apply prefix_free_tail in H.
Qed.

Lemma replace_first_nil (pat rep : jsstring) (c : N) :
  replace_first [] (c :: pat) rep = [].
Proof. reflexivity. Qed.

Lemma fill_step (k v enc : jsstring) (done : object jsstring) (ps : list piece) :
  encodeURIComponent v = Returns enc ->
  Forall clean_piece ps ->
  prefix_free (match_names ps) = true ->
  (forall n, In n (match_names ps) -> n <> k ->
     startsWith k n = false /\ startsWith n k = false) ->
  replace_first (fill_pieces done ps) (colon :: k) enc
  = fill_pieces (done ++ [(k, v)]) ps.
Proof.
  intros He. induction ps as [|p ps IH]; intros Hc Hpf Hinc; [reflexivity|].
  inversion Hc as [|? ? Hp Hc']; subst.
  destruct p as [c|n]; simpl in Hp.
  - simpl. rewrite replace_first_cons_nomatch by now apply startsWith_colon_other.
    now rewrite IH.
  - simpl in Hpf, Hinc. cbn [fill_pieces]. rewrite obj_get_app.
    assert (Hpf' : prefix_free (match_names ps) = true)
      by now apply prefix_free_tail in Hpf.
    assert (Hinc' : forall m, In m (match_names ps) -> m <> k ->
               startsWith k m = false /\ startsWith m k = false)
      by (intros m Hm; apply Hinc; now right).
    destruct (obj_get n done) as [v'|] eqn:G.
    + rewrite replace_first_skip by apply encoded_no_colon. now rewrite IH.
    + cbn [obj_get]. destruct (str_eqb k n) eqn:E.
      * apply str_eqb_eq in E; subst n.
        unfold replace_first. rewrite split_at_first_cons. cbn [startsWith].
        rewrite N.eqb_refl, startsWith_app. cbn [andb length skipn app].
        rewrite skipn_length_app, (encoded_returns _ _ He). f_equal.
        apply fill_pieces_ext. intros m Hm. rewrite obj_get_app.
        destruct (obj_get m done); [reflexivity|]. cbn [obj_get].
        destruct (str_eqb k m) eqn:E'; [|reflexivity].
        apply str_eqb_eq in E'; subst m.
        now apply prefix_free_not_in in Hpf.
      * apply str_eqb_neq in E.
        assert (M : startsWith k (n ++ fill_pieces done ps) = false).
        { destruct (startsWith k (n ++ fill_pieces done ps)) eqn:M; [|reflexivity].
          destruct (Hinc n (or_introl eq_refl)) as [H1 H2]; [congruence|].
          apply startsWith_comparable in M. destruct M; congruence. }
        rewrite replace_first_cons_nomatch
          by (cbn [startsWith]; now rewrite N.eqb_refl, M).
        rewrite replace_first_skip by exact Hp. now rewrite IH.
Qed.

Lemma substitute_fill (ps : list piece) (entries : object jsstring) :
  forall done : object jsstring,
    Forall clean_piece ps ->
    prefix_free (match_names ps) = true ->
    (forall k, In k (obj_keys entries) -> In k (match_names ps)) ->
    Forall (fun kv => exists enc, encodeURIComponent (snd kv) = Returns enc) entries ->
    substitute (fill_pieces done ps) entries
    = Returns (fill_pieces (done ++ entries) ps).
Proof.
  induction entries as [|[k v] rest IH]; intros done Hc Hpf Hkeys Henc.
  - now rewrite app_nil_r.
  - inversion Henc as [|? ? [enc He] Henc']; subst. simpl in He.
    cbn [substitute]. rewrite He. cbn [bind].
    rewrite String_replace_plain by now apply encodeURIComponent_inert in He.
    rewrite (fill_step k v enc done ps He Hc Hpf).
    + rewrite IH; auto.
      * now rewrite <- app_assoc.
      * intros k' Hk'. apply Hkeys. now right.
    + intros n Hn Hnk.
      assert (Hk : In k (match_names ps)) by (apply Hkeys; now left).
      split; apply (prefix_free_incomparable (match_names ps)); auto.
Qed.

(** X6: for a template in which every [':'] begins a token and no name is a
    prefix of another, and [params] whose keys are names of the template and
    whose values encode, [buildPath] returns the template with each token
    replaced, in place, by the percent-encoded value of its name, a token
    without an entry left as it is, and a ['/'] in front unless the result
    starts with one. *)
Theorem buildPath_fills_tokens (t : jsstring) (params : object jsstring) :
  colons_begin_tokens t = true ->
  prefix_free (getParamNames t) = true ->
  (forall k, In k (obj_keys params) -> In k (getParamNames t)) ->
  Forall (fun kv => exists enc, encodeURIComponent (snd kv) = Returns enc) params ->
  buildPath t params
  = Returns (with_leading_slash (fill_pieces params (param_pieces t))).
Proof.
  intros Hc Hpf Hkeys Henc. unfold buildPath, with_leading_slash.
  rewrite <- (pieces_text_param_pieces t) at 1.
  rewrite <- fill_pieces_nil.
  rewrite (substitute_fill (param_pieces t) params []); auto.
  - cbn [bind app]. now destruct (startsWith [slash] (fill_pieces params (param_pieces t))).
  - now apply param_pieces_clean.
Qed.

Lemma buildPath_fills_tokens_witness :
  let t := js "shops/:shopId/items/:itemId/:tab" in
  let p := [(js "itemId", js "a/b"); (js "shopId", js "7")] in
  colons_begin_tokens t = true
  /\ prefix_free (getParamNames t) = true
  /\ fill_pieces p (param_pieces t) = js "shops/7/items/a%2Fb/:tab"
  /\ buildPath t p = Returns (js "/shops/7/items/a%2Fb/:tab").
Proof.
  intros t p. split; [reflexivity|]. split; [reflexivity|]. split; [reflexivity|].
  rewrite (buildPath_fills_tokens t p); [reflexivity | reflexivity | reflexivity | |].
  - intros k Hk. simpl in Hk. destruct Hk as [<-|[<-|[]]]; vm_compute; tauto.
  - repeat constructor; eexists; reflexivity.
Defined.

(** ** [isActive] and the URLs that are built *)

Lemma before_first_absent (sep : N) (s : jsstring) :
  ~ In sep s -> before_first sep s = s.
Proof.
  induction s as [|c s IH]; simpl; intros H; [reflexivity|].
  destruct (N.eqb c sep) eqn:E.
  - apply N.eqb_eq in E. exfalso. apply H. now left.
  - rewrite IH; [reflexivity | tauto].
Qed.

Lemma before_first_app (sep : N) (s q : jsstring) :
  ~ In sep s -> before_first sep (s ++ sep :: q) = s.
Proof.
  induction s as [|c s IH]; simpl; intros H.
  - now rewrite N.eqb_refl.
  - destruct (N.eqb c sep) eqn:E.
    + apply N.eqb_eq in E. exfalso. apply H. now left.
    + rewrite IH; [reflexivity | tauto].
Qed.

Lemma currentPath_of_idempotent (url : jsstring) :
  currentPath_of (currentPath_of url) = currentPath_of url.
Proof.
  destruct (currentPath_of_spec url) as (Hq & Hh & _).
  unfold currentPath_of at 1.
  now rewrite (before_first_absent question), (before_first_absent hash).
Qed.

Lemma currentPath_of_cut (u q : jsstring) (c : N) :
  c = question \/ c = hash ->
  ~ In question u -> ~ In hash u ->
  currentPath_of (u ++ c :: q) = u.
Proof.
  intros [->| ->] Hq Hh; unfold currentPath_of.
  - rewrite before_first_app by exact Hq. now apply before_first_absent.
  - destruct (before_first_spec question (u ++ hash :: q)) as [_ [E|[rest E]]].
    + rewrite <- E. now apply before_first_app.
    + assert (Hpre : exists r', before_first question (u ++ hash :: q) = u ++ hash :: r').
      { clear E. induction u as [|x u IH]; simpl.
        - change (N.eqb hash question) with false. cbv iota. eauto.
        - destruct (N.eqb x question) eqn:Ex.
          + apply N.eqb_eq in Ex. exfalso. apply Hq. now left.
          + destruct IH as [r' ->]; [simpl in Hq; tauto | simpl in Hh; tauto|].
            eauto. }
      destruct Hpre as [r' ->]. now apply before_first_app.
Qed.

(** X7: [isActive] looks at the current URL only up to its first ['?'] or
    ['#']: cutting the URL there does not change the answer, and neither
    does a query string or a fragment added to a URL that has none. *)
Theorem isActive_ignores_query_and_fragment (url path : jsstring) (exact : bool) :
  isActive url path exact = isActive (currentPath_of url) path exact
  /\ (forall u q c, url = u ++ c :: q -> c = question \/ c = hash ->
        ~ In question u -> ~ In hash u ->
        isActive url path exact = isActive u path exact).
Proof.
  split.
  - unfold isActive. now rewrite currentPath_of_idempotent.
  - intros u q c -> Hc Hq Hh. unfold isActive.
    rewrite (currentPath_of_cut u q c Hc Hq Hh).
    unfold currentPath_of.
    now rewrite (before_first_absent question u Hq), (before_first_absent hash u Hh).
Qed.

Lemma obj_get_In {V : Type} (n : jsstring) (v : V) (o : object V) :
  obj_get n o = Some v -> In (n, v) o.
Proof.
  induction o as [|[k w] o IH]; simpl; [discriminate|].
  destruct (str_eqb k n) eqn:E.
  - apply str_eqb_eq in E; subst k. intros H; injection H as ->. now left.
  - intros H. right. now apply IH.
Qed.

Lemma obj_get_None {V : Type} (n : jsstring) (o : object V) :
  obj_get n o = None -> ~ In n (obj_keys o).
Proof.
  unfold obj_keys. induction o as [|[k w] o IH]; simpl; [tauto|].
  destruct (str_eqb k n) eqn:E; [discriminate|].
  apply str_eqb_neq in E. intros H [Hk|Hin]; [congruence | now apply IH].
Qed.

Lemma uri_reserved_marks (c : N) :
  c = slash \/ c = question \/ c = hash -> uri_reserved c = true.
Proof. intros [->|[->| ->]]; reflexivity. Qed.

Lemma encoded_shape (v : jsstring) :
  (exists enc, encodeURIComponent v = Returns enc) -> v <> [] ->
  encoded v <> [] /\ forall c, In c (encoded v) -> uri_reserved c = false.
Proof.
  intros [enc He] Hv. rewrite (encoded_returns _ _ He).
  destruct (encodeURIComponent_unreserved _ _ He) as [H1 H2]. auto.
Qed.

Lemma fill_pieces_instance (params : object jsstring) (ps : list piece) :
  (forall n, In n (match_names ps) ->
     exists v, obj_get n params = Some v /\ encoded v <> []
               /\ forall c, In c (encoded v) -> uri_reserved c = false) ->
  Instance ps (fill_pieces params ps)
  /\ (forall c, In c (fill_pieces params ps) ->
        In (Char c) ps \/ uri_reserved c = false).
Proof.
  induction ps as [|[c|n] ps IH]; intros H; simpl.
  - split; [constructor | tauto].
  - destruct (IH H) as [Hi Hc]. split; [now constructor|].
    intros d [<-|Hd]; [left; now left|].
    destruct (Hc d Hd); [left; now right | now right].
  - destruct (H n (or_introl eq_refl)) as (v & -> & Hne & Hv).
    destruct IH as [Hi Hc]; [intros m Hm; apply H; now right|].
    split.
    + constructor; auto. intros Hs. apply Hv in Hs. discriminate.
    + intros d Hd. apply in_app_iff in Hd as [Hd|Hd]; [right; now apply Hv|].
      destruct (Hc d Hd); [left; now right | now right].
Qed.

Lemma param_pieces_head (t : jsstring) (c : N) (ps : list piece) :
  param_pieces t = Char c :: ps -> exists r, t = c :: r.
Proof.
  intros H. rewrite <- (pieces_text_param_pieces t), H. simpl. eauto.
Qed.

(** X8: a URL that [buildPath] builds from a template is active for that
    template, exactly and as a prefix, also with a query string or a
    fragment behind it.  This holds for a template without syntax characters
    of regular expressions, without ['#'] and without a leading ['/'], in
    which every [':'] begins a token and no name is a prefix of another,
    and for [params] whose keys are exactly the names of the template and
    whose values are not empty and encode. *)
Theorem built_path_is_active (t : jsstring) (params : object jsstring) :
  regexp_plain t = true ->
  forallb (fun c => negb (N.eqb c hash)) t = true ->
  startsWith [slash] t = false ->
  colons_begin_tokens t = true ->
  prefix_free (getParamNames t) = true ->
  (forall k, In k (obj_keys params) <-> In k (getParamNames t)) ->
  (forall k v, In (k, v) params ->
     v <> [] /\ exists enc, encodeURIComponent v = Returns enc) ->
  exists url,
    buildPath t params = Returns url
    /\ isActive url t true = Some (Returns true)
    /\ isActive url t false = Some (Returns true)
    /\ forall q c, c = question \/ c = hash ->
         isActive (url ++ c :: q) t true = Some (Returns true).
Proof.
  intros Hplain Hhash Hlead Hcolons Hpf Hkeys Hvals.
  assert (Henc : Forall (fun kv => exists enc, encodeURIComponent (snd kv) = Returns enc)
                        params).
  { apply Forall_forall. intros [k v] Hin. now apply (Hvals k v). }
  assert (Hfill : forall n, In n (match_names (param_pieces t)) ->
            exists v, obj_get n params = Some v /\ encoded v <> []
                      /\ forall c, In c (encoded v) -> uri_reserved c = false).
  { intros n Hn. destruct (obj_get n params) as [v|] eqn:G.
    - exists v. split; [reflexivity|]. apply obj_get_In in G.
      destruct (Hvals n v G) as [Hne He]. now apply encoded_shape.
    - exfalso. apply obj_get_None in G. apply G. now apply Hkeys. }
  destruct (fill_pieces_instance params (param_pieces t) Hfill) as [Hinst Hchars].
  set (body := fill_pieces params (param_pieces t)) in *.
  assert (Hbody : startsWith [slash] body = false).
  { rewrite startsWith_single. destruct body as [|d body'] eqn:Eb; [reflexivity|].
    destruct (Hchars d (or_introl eq_refl)) as [Hd|Hd].
    - destruct (N.eqb slash d) eqn:E; [|reflexivity].
      apply N.eqb_eq in E; subst d.
      unfold body in Eb. destruct (param_pieces t) as [|[c|n] ps] eqn:Ep;
        [discriminate | |].
      + simpl in Eb. injection Eb as -> _.
        apply param_pieces_head in Ep as [r ->].
        rewrite startsWith_single in Hlead. now rewrite N.eqb_refl in Hlead.
      + destruct (Hfill n (or_introl eq_refl)) as (v & G & Hne & Hv).
        simpl in Eb. rewrite G in Eb.
        destruct (encoded v) as [|x e]; [congruence|].
        injection Eb as -> _. specialize (Hv slash (or_introl eq_refl)).
        discriminate Hv.
    - destruct (N.eqb slash d) eqn:E; [|reflexivity].
      apply N.eqb_eq in E; subst d. discriminate. }
  assert (Hmarks : ~ In question body /\ ~ In hash body).
  { pose proof (pieces_chars _ t Hplain false) as Hp.
    pose proof (pieces_chars _ t Hhash false) as Hh.
    fold (param_pieces t) in Hp, Hh. rewrite Forall_forall in Hp, Hh.
    split; intros Hin; destruct (Hchars _ Hin) as [Hc|Hc]; try discriminate.
    - now apply Hp in Hc.
    - now apply Hh in Hc. }
  destruct Hmarks as [Hq Hh].
  assert (Hurl : buildPath t params = Returns (slash :: body)).
  { unfold buildPath. rewrite <- (pieces_text_param_pieces t) at 1.
    rewrite <- fill_pieces_nil.
    rewrite (substitute_fill (param_pieces t) params []); auto.
    - cbn [bind app]. fold body. now rewrite Hbody.
    - now apply param_pieces_clean.
    - intros k Hk. now apply Hkeys. }
  assert (Hcp : currentPath_of (slash :: body) = slash :: body).
  { unfold currentPath_of.
    rewrite (before_first_absent question), (before_first_absent hash);
      [reflexivity | |]; intros [E|Hin]; try discriminate; tauto. }
  assert (Hex : isActive (slash :: body) t true = Some (Returns true)).
  { apply isActive_exact_iff; [exact Hplain|]. exists body. now split. }
  exists (slash :: body). split; [exact Hurl|]. split; [exact Hex|]. split.
  - apply isActive_prefix_iff; [exact Hplain|]. exists body, [].
    rewrite app_nil_r. now split.
  - intros q c Hc. rewrite <- Hex. unfold isActive.
    rewrite (currentPath_of_cut (slash :: body) q c Hc), Hcp; [reflexivity | |];
      intros [E|Hin]; try discriminate; tauto.
Qed.

Lemma built_path_is_active_witness :
  let t := js "users/:userId/posts/:postId" in
  let p := [(js "postId", js "a b"); (js "userId", js "42")] in
  regexp_plain t = true
  /\ colons_begin_tokens t = true
  /\ prefix_free (getParamNames t) = true
  /\ exists url,
       buildPath t p = Returns url
       /\ isActive url t true = Some (Returns true)
       /\ isActive url t false = Some (Returns true)
       /\ forall q c, c = question \/ c = hash ->
            isActive (url ++ c :: q) t true = Some (Returns true).
Proof.
  intros t p. split; [reflexivity|]. split; [reflexivity|]. split; [reflexivity|].
  apply built_path_is_active; try reflexivity.
  - intros k. vm_compute. tauto.
  - intros k v Hin. simpl in Hin.
    destruct Hin as [E|[E|[]]]; injection E as <- <-;
      (split; [discriminate | eexists; reflexivity]).
Defined.

Lemma buildPath_adds_no_reserved_witness :
  buildPath (js "files/:name") [(js "name", js "a/b?c#d")]
  = Returns (js "/files/a%2Fb%3Fc%23d")
  /\ exists body,
       substitute (js "files/:name") [(js "name", js "a/b?c#d")] = Returns body
       /\ js "/files/a%2Fb%3Fc%23d" = with_leading_slash body
       /\ startsWith [slash] (js "/files/a%2Fb%3Fc%23d") = true
       /\ sublist (filter uri_reserved body) (filter uri_reserved (js "files/:name"))
       /\ forall c, In c body -> In c (js "files/:name") \/ uri_reserved c = false.
Proof.
  split; [reflexivity|].
  apply (buildPath_adds_no_reserved (js "files/:name") [(js "name", js "a/b?c#d")]).
  reflexivity.
Defined.

(** ** The paths map: what its entries look like *)

Lemma obj_set_Forall {V : Type} (Q : jsstring * V -> Prop) (k : jsstring) (v : V)
  (o : object V) :
  Q (k, v) -> Forall Q o -> Forall Q (obj_set k v o).
Proof.
  intros Hq. induction 1 as [|[k' w] o Hkw Ho IH]; simpl.
  - repeat constructor. exact Hq.
  - destruct (str_eqb k' k) eqn:E.
    + apply str_eqb_eq in E; subst k'. now constructor.
    + now constructor.
Qed.

Lemma obj_insert_Forall {V : Type} (Q : jsstring * V -> Prop) (k : jsstring) (v : V)
  (o : object V) :
  Q (k, v) -> Forall Q o -> Forall Q (obj_insert k v o).
Proof.
  intros Hq. induction 1 as [|[k' w] o Hkw Ho IH]; cbn [obj_insert].
  - destruct (array_index k); repeat constructor; exact Hq.
  - destruct (array_index k) as [n|].
    + destruct (array_index k') as [m|]; [destruct (N.ltb m n)|];
        repeat (constructor; auto).
    + apply Forall_app. split; [now constructor | repeat constructor; exact Hq].
Qed.

Lemma obj_assign_Forall {V : Type} (Q : jsstring * V -> Prop) (k : jsstring) (v : V)
  (o : object V) :
  Q (k, v) -> Forall Q o -> Forall Q (obj_assign k v o).
Proof.
  intros Hq Ho. unfold obj_assign. destruct (obj_has k o).
  - now apply obj_set_Forall.
  - destruct (str_eqb k proto_key); [exact Ho | now apply obj_insert_Forall].
Qed.

Lemma truthy_nonempty (s : jsstring) : truthy s = true <-> s <> [].
Proof. unfold truthy. rewrite negb_true_iff. apply str_eqb_neq. Qed.

Lemma path_key_normalized (full : jsstring) :
  normalized_entry (path_key (normalizedPath_of full),
                    path_key (normalizedPath_of full)).
Proof.
  destruct (normalizedPath_of_shape full) as [Hd Hs].
  unfold normalized_entry, path_key. simpl.
  destruct (truthy (normalizedPath_of full)) eqn:T.
  - apply truthy_nonempty in T. repeat split; auto.
  - repeat split; auto.
Qed.

Lemma register_normalized (prefix full : jsstring) (result : object jsstring) :
  Forall normalized_entry result ->
  Forall normalized_entry (register prefix (normalizedPath_of full) result).
Proof.
  intros H. unfold register.
  destruct (truthy (normalizedPath_of full) || str_eqb prefix []); [|exact H].
  apply obj_assign_Forall; [apply path_key_normalized | exact H].
Qed.

Lemma buildPathsMap_normalized_from (rs : list Route) :
  Forall (fun r => forall prefix result,
            Forall normalized_entry result ->
            Forall normalized_entry (visit_route r prefix result)) rs ->
  forall prefix result,
    Forall normalized_entry result ->
    Forall normalized_entry (buildPathsMap rs prefix result).
Proof.
  induction 1 as [|r rs Hr _ IH]; intros prefix result H; simpl; auto.
Qed.

Lemma visit_route_normalized (r : Route) :
  forall prefix result,
    Forall normalized_entry result ->
    Forall normalized_entry (visit_route r prefix result).
Proof.
  induction r as [path | path cs IH] using Route_nested_ind; intros prefix result H.
  - destruct path as [p|]; simpl; [now apply register_normalized | exact H].
  - destruct path as [p|]; [|exact H].
    rewrite visit_route_children.
    apply (buildPathsMap_normalized_from cs IH). now apply register_normalized.
Qed.

(** X9: each entry of the paths map of [registerRoutes] maps a path to
    itself, and each registered path has no two ['/'] in a row and is
    either ["/"] or a non-empty string that does not start with ['/']. *)
Theorem registerRoutes_paths_normalized (routes : list Route) :
  Forall normalized_entry (registerRoutes_paths routes)
  /\ forall k v, obj_get k (registerRoutes_paths routes) = Some v ->
       v = k /\ double_slash k = false
       /\ (k = [slash] \/ (k <> [] /\ startsWith [slash] k = false)).
Proof.
  assert (H : Forall normalized_entry (registerRoutes_paths routes)).
  { unfold registerRoutes_paths. apply buildPathsMap_normalized_from; [|constructor].
    apply Forall_forall. intros r _. apply visit_route_normalized. }
  split; [exact H|]. intros k v G. apply obj_get_In in G.
  rewrite Forall_forall in H. destruct (H _ G) as (E & Hd & Hs). simpl in *.
  subst v. auto.
Qed.

Lemma Registered_incl (rs rs' : list Route) (prefix k : jsstring) :
  (forall r, In r rs -> In r rs') ->
  Registered rs prefix k -> Registered rs' prefix k.
Proof.
  intros Hincl H. inversion H as [? ? path ch Hin Hc | ? ? path cs ? Hin Hc]; subst.
  - eapply Registered_here; [apply Hincl; exact Hin | exact Hc].
  - eapply Registered_child; [apply Hincl; exact Hin | exact Hc].
Qed.

(** X10: the set of paths [buildPathsMap] registers does not depend on the
    order of the routes nor on a route being listed twice: two lists with the
    same routes give the same keys. *)
Theorem buildPathsMap_order_independent (routes routes' : list Route)
  (prefix : jsstring) (result : object jsstring) :
  (forall r, In r routes <-> In r routes') ->
  forall k, In k (obj_keys (buildPathsMap routes prefix result))
            <-> In k (obj_keys (buildPathsMap routes' prefix result)).
Proof.
  intros Hsame k. rewrite !buildPathsMap_keys.
  split; intros [H|[H Hk]]; auto; right; (split; [|exact Hk]);
    eapply Registered_incl; try exact H; intros r Hr; now apply Hsame.
Qed.

Lemma buildPathsMap_order_independent_witness :
  let a := MkRoute (Some (js "users")) (Some [MkRoute (Some (js ":id")) None]) in
  let b := MkRoute (Some (js "about")) None in
  (forall r, In r [a; b] <-> In r [b; a; b])
  /\ forall k, In k (obj_keys (buildPathsMap [a; b] [] []))
               <-> In k (obj_keys (buildPathsMap [b; a; b] [] [])).
Proof.
  intros a b.
  assert (H : forall r, In r [a; b] <-> In r [b; a; b]) by (intros r; simpl; tauto).
  split; [exact H|]. exact (buildPathsMap_order_independent [a; b] [b; a; b] [] [] H).
Defined.

(** ** The paths map and the type [ExtractAllPaths] *)

Lemma collapse_slashes_id (s : jsstring) :
  double_slash s = false -> collapse_slashes s = s.
Proof.
  induction s as [|c r IH]; [reflexivity|].
  rewrite double_slash_cons. intros H. apply orb_false_iff in H as [H1 H2].
  simpl. rewrite H1. now rewrite IH.
Qed.

Lemma strip_leading_slash_id (s : jsstring) :
  startsWith [slash] s = false -> strip_leading_slash s = s.
Proof.
  rewrite startsWith_single. destruct s as [|c r]; [reflexivity|].
  intros H. rewrite N.eqb_sym in H. unfold strip_leading_slash. now rewrite H.
Qed.

Lemma ends_with_slash_app (a p : jsstring) :
  p <> [] -> ends_with_slash (a ++ p) = ends_with_slash p.
Proof.
  intros Hp. induction a as [|c a IH]; [reflexivity|].
  simpl app. cbn [ends_with_slash].
  destruct (a ++ p) eqn:E; [|exact IH].
  apply app_eq_nil in E as [_ E]. congruence.
Qed.

Lemma double_slash_join (a p : jsstring) :
  double_slash a = false -> ends_with_slash a = false ->
  double_slash p = false -> startsWith [slash] p = false ->
  double_slash (a ++ slash :: p) = false.
Proof.
  intros Ha He Hp Hs. induction a as [|c a IH].
  - simpl app. rewrite double_slash_cons, Hp, orb_false_r.
    rewrite startsWith_single in Hs. destruct p as [|d p']; [apply andb_false_r|].
    rewrite N.eqb_sym in Hs. now rewrite Hs, andb_false_r.
  - rewrite double_slash_cons in Ha. apply orb_false_iff in Ha as [Ha1 Ha2].
    change ((c :: a) ++ slash :: p) with (c :: (a ++ slash :: p)).
    rewrite double_slash_cons.
    destruct a as [|d a'].
    + cbn [ends_with_slash] in He. rewrite He. cbn [andb orb].
      now apply IH.
    + cbn [ends_with_slash] in He.
      cbn [app]. cbn [app] in IH. rewrite Ha1. cbn [orb]. now apply IH.
Qed.

Lemma clean_path_parts (p : jsstring) :
  clean_path p = true ->
  p <> [] /\ startsWith [slash] p = false
  /\ ends_with_slash p = false /\ double_slash p = false.
Proof.
  unfold clean_path. rewrite !andb_true_iff, !negb_true_iff, str_eqb_neq. tauto.
Qed.

Lemma fullPath_of_clean (prefix p : jsstring) :
  prefix = [] \/ clean_path prefix = true ->
  clean_path p = true ->
  fullPath_of prefix p = JoinPath prefix p
  /\ clean_path (fullPath_of prefix p) = true
  /\ path_key (normalizedPath_of (fullPath_of prefix p)) = fullPath_of prefix p
  /\ truthy (normalizedPath_of (fullPath_of prefix p)) = true.
Proof.
  intros Hprefix Hp. destruct (clean_path_parts p Hp) as (Hne & Hs & He & Hd).
  assert (Hclean : clean_path (fullPath_of prefix p) = true).
  { destruct Hprefix as [->|Hpre]; [exact Hp|].
    destruct (clean_path_parts prefix Hpre) as (Hne' & Hs' & He' & Hd').
    unfold fullPath_of. rewrite (proj2 (truthy_nonempty prefix) Hne').
    unfold clean_path. rewrite !andb_true_iff, !negb_true_iff, str_eqb_neq.
    repeat split.
    - destruct prefix; [congruence | discriminate].
    - rewrite startsWith_single in *. destruct prefix; [congruence | exact Hs'].
    - rewrite ends_with_slash_app by discriminate.
      cbn [ends_with_slash]. destruct p; [congruence | exact He].
    - now apply double_slash_join. }
  split; [|split; [exact Hclean|]].
  - rewrite fullPath_of_joinSegments by now right. now rewrite JoinPath_joinSegments.
  - destruct (clean_path_parts _ Hclean) as (Hne' & Hs' & _ & Hd').
    unfold normalizedPath_of, path_key.
    rewrite collapse_slashes_id by exact Hd'.
    rewrite strip_leading_slash_id by exact Hs'.
    rewrite (proj2 (truthy_nonempty _) Hne'). split; reflexivity.
Qed.

Lemma ExtractAllPaths_children (P : jsstring) (C : list Route) (Prefix : jsstring) :
  ExtractAllPaths_route (MkRoute (Some P) (Some C)) Prefix
  = (if str_eqb P [] then (if str_eqb Prefix [] then [] else [Prefix])
     else [JoinPath Prefix P])
    ++ ExtractAllPaths C (if str_eqb P [] then Prefix else JoinPath Prefix P).
Proof.
  simpl. f_equal. induction C as [|c cs IH]; simpl; [reflexivity | now rewrite IH].
Qed.

Lemma clean_route_children (path : option jsstring) (cs : list Route) :
  clean_route (MkRoute path (Some cs)) = true ->
  match path with Some p => clean_path p = true | None => True end
  /\ forallb clean_route cs = true.
Proof.
  simpl. intros H. apply andb_true_iff in H as [H1 H2]. split.
  - destruct path; [exact H1 | exact I].
  - clear H1. induction cs as [|c cs IH]; [reflexivity|].
    apply andb_true_iff in H2 as [Hc H2]. simpl. now rewrite Hc, IH.
Qed.

Lemma Registered_ExtractAllPaths_from (rs : list Route) :
  Forall (fun r => forall prefix k,
            prefix = [] \/ clean_path prefix = true ->
            clean_route r = true ->
            Registered [r] prefix k <-> In k (ExtractAllPaths_route r prefix)) rs ->
  forall prefix k,
    prefix = [] \/ clean_path prefix = true ->
    forallb clean_route rs = true ->
    Registered rs prefix k <-> In k (ExtractAllPaths rs prefix).
Proof.
  induction 1 as [|r rs Hr _ IH]; intros prefix k Hp Hc.
  - simpl. split; [intros H; now apply Registered_nil in H | tauto].
  - simpl in Hc. apply andb_true_iff in Hc as [Hc1 Hc2].
    rewrite (Registered_cons r rs). simpl. rewrite in_app_iff.
    rewrite (Hr prefix k Hp Hc1), (IH prefix k Hp Hc2). tauto.
Qed.

Lemma Registered_ExtractAllPaths_route (r : Route) :
  forall prefix k,
    prefix = [] \/ clean_path prefix = true ->
    clean_route r = true ->
    Registered [r] prefix k <-> In k (ExtractAllPaths_route r prefix).
Proof.
  induction r as [path | path cs IH] using Route_nested_ind;
    intros prefix k Hp Hc; rewrite Registered_single.
  - destruct path as [p|]; [|simpl; tauto].
    simpl in Hc. rewrite andb_true_r in Hc.
    destruct (fullPath_of_clean prefix p Hp Hc) as (Hj & Hcl & Hk & T).
    destruct (clean_path_parts p Hc) as (Hne & _).
    apply str_eqb_neq in Hne. cbn [ExtractAllPaths_route]. rewrite Hne, Hk, <- Hj.
    simpl. intuition congruence.
  - apply clean_route_children in Hc as [Hpath Hcs].
    destruct path as [p|]; [|simpl; tauto].
    destruct (fullPath_of_clean prefix p Hp Hpath) as (Hj & Hcl & Hk & T).
    destruct (clean_path_parts p Hpath) as (Hne & _).
    apply str_eqb_neq in Hne. rewrite ExtractAllPaths_children, Hne, Hk, <- Hj.
    rewrite (Registered_ExtractAllPaths_from cs IH (fullPath_of prefix p) k)
      by (auto).
    simpl. intuition congruence.
Qed.

(** X11: for a route tree all of whose paths are clean (not empty, no ['/']
    at either end, no two ['/'] in a row), the keys of the paths map that
    [registerRoutes] builds at run time are the members of the type
    [ExtractAllPaths] that the map is cast to, apart from [__proto__]: that
    member of the type, if there is one, is no key of the map, because
    storing under it into a plain object creates no property. *)
Theorem registerRoutes_paths_match_type (routes : list Route) :
  forallb clean_route routes = true ->
  (forall k, In k (obj_keys (registerRoutes_paths routes))
             <-> In k (ExtractAllPaths routes []) /\ k <> js "__proto__")
  /\ ~ In (js "__proto__") (obj_keys (registerRoutes_paths routes)).
Proof.
  intros Hc.
  assert (H : forall k, In k (obj_keys (registerRoutes_paths routes))
                        <-> In k (ExtractAllPaths routes []) /\ k <> js "__proto__").
  { intros k. unfold registerRoutes_paths. rewrite buildPathsMap_keys.
    rewrite (Registered_ExtractAllPaths_from routes); auto.
    - simpl. tauto.
    - apply Forall_forall. intros r _. apply Registered_ExtractAllPaths_route. }
  split; [exact H|]. intros Hin. apply H in Hin as [_ Hne]. now apply Hne.
Qed.

Lemma registerRoutes_paths_match_type_witness :
  let routes :=
    [MkRoute (Some (js "users")) None;
     MkRoute (Some (js "__proto__")) None;
     MkRoute (Some (js "products/:categoryId"))
       (Some [MkRoute (Some (js ":productId")) None;
              MkRoute (Some (js "reviews")) (Some [MkRoute (Some (js ":reviewId")) None])])] in
  forallb clean_route routes = true
  /\ ExtractAllPaths routes []
     = [js "users"; js "__proto__"; js "products/:categoryId";
        js "products/:categoryId/:productId";
        js "products/:categoryId/reviews";
        js "products/:categoryId/reviews/:reviewId"]
  /\ obj_keys (registerRoutes_paths routes)
     = [js "users"; js "products/:categoryId";
        js "products/:categoryId/:productId";
        js "products/:categoryId/reviews";
        js "products/:categoryId/reviews/:reviewId"]
  /\ forall k, In k (obj_keys (registerRoutes_paths routes))
               <-> In k (ExtractAllPaths routes []) /\ k <> js "__proto__".
Proof.
  intros routes. split; [reflexivity|]. split; [reflexivity|]. split; [reflexivity|].
  apply (registerRoutes_paths_match_type routes). reflexivity.
Defined.

(** ** [createTypedRedirect] and [buildPath] *)

Lemma substitute_cons (c : N) (entries : object jsstring) :
  c <> colon ->
  forall s, substitute (c :: s) entries
            = (r <- substitute s entries ;; Returns (c :: r)).
Proof.
  intros Hc. induction entries as [|[k v] rest IH]; intros s; [reflexivity|].
  cbn [substitute]. destruct (encodeURIComponent v) as [enc|e] eqn:E; cbn [bind];
    [|reflexivity].
  destruct (encodeURIComponent_inert _ _ E) as [_ Hd].
  rewrite !String_replace_plain by exact Hd.
  rewrite replace_first_cons_nomatch by now apply startsWith_colon_other.
  apply IH.
Qed.

(** X12: the URL of [createTypedRedirect] is ['/'] followed by the
    substituted template.  It throws exactly when [buildPath] throws; it is
    the path [buildPath] returns, or that path with one more ['/'] in front;
    the two agree whenever the template starts with a code unit other than
    ['/'] and [':'], and for a template that starts with ['/'] the redirect
    URL starts with two. *)
Theorem createTypedRedirect_url_vs_buildPath (path : jsstring) (params : object jsstring) :
  (forall e, createTypedRedirect_url path params = Throws e
             <-> buildPath path params = Throws e)
  /\ (forall r, buildPath path params = Returns r ->
        createTypedRedirect_url path params = Returns r
        \/ createTypedRedirect_url path params = Returns (slash :: r))
  /\ (forall c rest r, path = c :: rest -> c <> slash -> c <> colon ->
        buildPath path params = Returns r ->
        createTypedRedirect_url path params = Returns r)
  /\ (forall rest r, path = slash :: rest ->
        buildPath path params = Returns r ->
        createTypedRedirect_url path params = Returns (slash :: r)).
Proof.
  unfold createTypedRedirect_url, buildPath.
  rewrite substitute_cons by discriminate.
  destruct (substitute path params) as [body|e0] eqn:E; cbn [bind].
  - split; [intros e; split; [discriminate|]|].
    { destruct (negb (startsWith [slash] body)); discriminate. }
    split; [|split].
    + intros r H. destruct (startsWith [slash] body); cbn [negb] in H;
        injection H as <-; auto.
    + intros c rest r -> Hs Hc H.
      rewrite substitute_cons in E by exact Hc.
      apply bind_returns in E as (b' & _ & E). injection E as <-.
      rewrite startsWith_single in H.
      destruct (N.eqb slash c) eqn:Ec; [apply N.eqb_eq in Ec; congruence|].
      cbn [negb] in H. now injection H as <-.
    + intros rest r -> H.
      rewrite substitute_cons in E by discriminate.
      apply bind_returns in E as (b' & _ & E). injection E as <-.
      rewrite startsWith_single, N.eqb_refl in H. cbn [negb] in H.
      now injection H as <-.
  - split; [intros e; tauto|].
    split; [discriminate|]. split; [intros c rest r _ _ _ H; discriminate|].
    intros rest r _ H; discriminate.
Qed.

(** ** The directives *)

(** X13: the active state the directive [typedLinkActive] computes is the
    answer of [isActive] of the router service for the same path, URL and
    [exact]; with the path input unset it is the answer for the path
    [undefined]. *)
Theorem typedLinkActive_agrees_with_isActive (url : jsstring) (exact : bool) :
  (forall path, typedLinkActive_nowActive url (Some path) exact
                = isActive url path exact)
  /\ typedLinkActive_nowActive url None exact
     = isActive url (js "undefined") exact.
Proof.
  assert (H : forall p, param_pieces (slash :: p) = Char slash :: param_pieces p)
    by reflexivity.
  split; [intros path|];
    unfold typedLinkActive_nowActive, isActive, active_source, active_pattern;
    rewrite H; cbn [render_pieces]; reflexivity.
Qed.

Section TypedRouterLinkProperties.

Variable number : Type.
Variable Number_toString : number -> jsstring.

(** X14: [updateHref] never throws.  The [href] is [null] exactly when the
    path is empty or [encodeURIComponent] rejects the value of a link
    parameter; otherwise it is the URL [buildUrl] returns for the same path,
    parameters and query parameters, followed by ['#'] and the fragment when
    there is a non-empty one, and it starts with ['/']. *)
Theorem updateHref_is_buildUrl_with_fragment (path : jsstring)
  (linkParams : option (object (LinkParamValue number)))
  (queryParams : option (object (QueryParamValue number)))
  (fragment : option jsstring) :
  let params :=
    link_params_strings Number_toString
      match linkParams with Some o => o | None => [] end in
  (updateHref Number_toString path linkParams queryParams fragment = None <->
   path = [] \/ Exists (fun kv => encodeURIComponent (snd kv) = Throws URIError) params)
  /\ (forall href,
        updateHref Number_toString path linkParams queryParams fragment = Some href ->
        startsWith [slash] href = true
        /\ exists url,
             buildUrl Number_toString path params queryParams = Returns url
             /\ href = url ++ match fragment with
                              | Some (c :: f) => hash :: c :: f
                              | _ => []
                              end).
Proof.
  intros params. unfold updateHref, buildUrl. fold params.
  destruct (truthy path) eqn:T; cbn [negb].
  - apply truthy_nonempty in T.
    destruct (substitute_outcome params path) as [[HF [b Hb]]|[HE Ht]].
    + assert (Hbp : exists r, buildPath path params = Returns r
                              /\ startsWith [slash] r = true).
      { unfold buildPath. rewrite Hb. cbn [bind].
        destruct (startsWith [slash] b) eqn:S; cbn [negb]; eauto. }
      destruct Hbp as (r & Hr & Hs). rewrite Hr. cbn [bind]. split.
      * split; [discriminate|]. intros [E|HE]; [congruence|]. exfalso.
        apply Exists_exists in HE as (kv & Hin & Hkv).
        rewrite Forall_forall in HF. destruct (HF kv Hin) as [enc He]. congruence.
      * intros href H. injection H as <-.
        assert (Hq : exists u, match queryParams with
                       | Some q =>
                           if truthy (usp_toString (query_pairs Number_toString q))
                           then Returns (r ++ question :: usp_toString (query_pairs Number_toString q))
                           else Returns r
                       | None => Returns r
                       end = Returns u
                       /\ match queryParams with
                          | Some q =>
                              if truthy (usp_toString (query_pairs Number_toString q))
                              then r ++ question :: usp_toString (query_pairs Number_toString q)
                              else r
                          | None => r
                          end = u
                       /\ startsWith [slash] u = true).
        { destruct queryParams as [q|]; [|eauto].
          destruct (truthy (usp_toString (query_pairs Number_toString q))); [|eauto].
          eexists. split; [reflexivity|]. split; [reflexivity|].
          rewrite startsWith_single in *. now destruct r. }
        destruct Hq as (u & Hu1 & Hu2 & Hu3). rewrite Hu2.
        assert (Hf : match fragment with
                     | Some f => if truthy f then u ++ hash :: f else u
                     | None => u
                     end = u ++ match fragment with
                                | Some (c :: f) => hash :: c :: f
                                | _ => []
                                end).
        { destruct fragment as [[|c f]|]; simpl; now rewrite ?app_nil_r. }
        rewrite Hf. split.
        -- rewrite startsWith_single in *. destruct u; [discriminate | exact Hu3].
        -- exists u. split; [exact Hu1 | reflexivity].
    + assert (Hbp : buildPath path params = Throws URIError).
      { unfold buildPath. now rewrite Ht. }
      rewrite Hbp. cbn [bind]. split; [|discriminate].
      split; [intros _; now right | reflexivity].
  - assert (E : path = []).
    { destruct path; [reflexivity | discriminate]. }
    split; [split; [intros _; now left | reflexivity] | discriminate].
Qed.

(** X15: [onClick] navigates with the router only when the input [target] is
    exactly [_self]: then, for an unmodified click of the main button on a
    link with an [href], it prevents the default and navigates to the path
    [buildPath] returns.  With the input [target] unset, or set to anything
    else, every click returns [true] and nothing is prevented or navigated. *)
Theorem onClick_navigates_only_for_self_target (event : MouseEvent)
  (target href : option jsstring) (path : jsstring)
  (linkParams : option (object (LinkParamValue number))) :
  let params :=
    link_params_strings Number_toString
      match linkParams with Some o => o | None => [] end in
  (forall url,
     onClick Number_toString event target href path linkParams = Prevented (Some url)
     <-> (target = Some (js "_self")
          /\ button event = 0
          /\ ctrlKey event = false /\ metaKey event = false
          /\ shiftKey event = false /\ altKey event = false
          /\ (exists c h, href = Some (c :: h))
          /\ buildPath path params = Returns url))
  /\ (target <> Some (js "_self") ->
      onClick Number_toString event target href path linkParams = FollowsLink).
Proof.
  intros params. unfold onClick. fold params. split.
  - intros url.
    destruct (N.eqb_spec (button event) 0) as [Hb|Hb]; cbn [negb orb].
    + destruct (ctrlKey event), (metaKey event), (shiftKey event), (altKey event);
        cbn [orb]; try (split; [discriminate | intros (_ & _ & ? & ? & ? & ? & _); discriminate]).
      destruct target as [t|].
      * destruct (str_eqb t (js "_self")) eqn:Et; cbn [negb].
        -- apply str_eqb_eq in Et; subst t.
           destruct href as [[|c h]|]; cbn [truthy str_eqb negb].
           ++ split; [discriminate | intros (_ & _ & _ & _ & _ & _ & (c & h & E) & _); discriminate].
           ++ destruct (buildPath path params) as [u|e].
              ** split.
                 --- intros H. injection H as <-. repeat split; eauto.
                 --- intros (_ & _ & _ & _ & _ & _ & _ & E). now injection E as <-.
              ** split; [discriminate | intros (_ & _ & _ & _ & _ & _ & _ & E); discriminate].
           ++ split; [discriminate | intros (_ & _ & _ & _ & _ & _ & (c & h & E) & _); discriminate].
        -- apply str_eqb_neq in Et.
           split; [discriminate | intros (E & _); congruence].
      * split; [discriminate | intros (E & _); discriminate].
    + split; [discriminate | intros (_ & E & _); congruence].
  - intros Ht.
    destruct (negb (N.eqb (button event) 0) || ctrlKey event || metaKey event
              || shiftKey event || altKey event); [reflexivity|].
    destruct target as [t|]; [|reflexivity].
    destruct (str_eqb t (js "_self")) eqn:Et; [|reflexivity].
    apply str_eqb_eq in Et. congruence.
Qed.

End TypedRouterLinkProperties.

Lemma onClick_navigates_only_for_self_target_witness :
  let click := {| button := 0; ctrlKey := false; metaKey := false;
                  shiftKey := false; altKey := false |} in
  (None : option jsstring) <> Some (js "_self")
  /\ onClick (fun _ : unit => js "1") click None (Some (js "/users/1"))
       (js "users/:userId") (Some [(js "userId", LNumber tt)]) = FollowsLink.
Proof.
  intros click. split; [discriminate|].
  apply (onClick_navigates_only_for_self_target unit (fun _ => js "1") click None
           (Some (js "/users/1")) (js "users/:userId")
           (Some [(js "userId", LNumber tt)])).
  discriminate.
Defined.

(** ** [url$] of the activated route *)

Lemma split_on_app_sep (sep : N) (a rest : jsstring) :
  ~ In sep a -> split_on sep (a ++ sep :: rest) = a :: split_on sep rest.
Proof.
  induction a as [|c a IH]; intros Ha.
  - simpl. now rewrite N.eqb_refl.
  - cbn [app split_on].
    destruct (N.eqb_spec c sep) as [E|E]; [exfalso; apply Ha; now left|].
    rewrite IH; [reflexivity|]. intros H. apply Ha. now right.
Qed.

Lemma split_on_no_sep (sep : N) (a : jsstring) :
  ~ In sep a -> split_on sep a = [a].
Proof.
  induction a as [|c a IH]; intros Ha; [reflexivity|].
  cbn [split_on].
  destruct (N.eqb_spec c sep) as [E|E]; [exfalso; apply Ha; now left|].
  rewrite IH; [reflexivity|]. intros H. apply Ha. now right.
Qed.

Lemma split_join (sep : N) (p : jsstring) (paths : list jsstring) :
  Forall (fun p => ~ In sep p) (p :: paths) ->
  split_on sep (join_with sep (p :: paths)) = p :: paths.
Proof.
  revert p. induction paths as [|q paths IH]; intros p H.
  - apply split_on_no_sep. now inversion H.
  - inversion H as [|? ? Hp Hrest]; subst.
    change (join_with sep (p :: q :: paths))
      with (p ++ sep :: join_with sep (q :: paths)).
    rewrite split_on_app_sep by exact Hp. now rewrite IH.
Qed.

(** X16: the URL of [url$] starts with ['/'].  Where no segment path holds a
    ['/'], splitting the URL on ['/'] gives the empty string and then the
    segment paths back, so that the segments can be read off the URL; an
    empty list of segments gives the URL of one empty segment.  A segment
    path that holds a ['/'] gives the URL of the two segments around it. *)
Theorem url_of_segments_split (paths : list jsstring)
  (H : Forall (fun p => ~ In slash p) paths) :
  startsWith [slash] (url_of_segments paths) = true
  /\ split_on slash (url_of_segments paths)
     = [] :: match paths with [] => [[]] | _ :: _ => paths end
  /\ (forall a b rest,
        url_of_segments ((a ++ slash :: b) :: rest) = url_of_segments (a :: b :: rest)).
Proof.
  split; [reflexivity|]. split.
  - unfold url_of_segments. cbn [split_on]. rewrite N.eqb_refl. f_equal.
    destruct paths as [|p paths]; [reflexivity|]. now apply split_join.
  - intros a b rest. unfold url_of_segments. f_equal.
    cbn [join_with]. destruct rest; [reflexivity|]. now rewrite <- app_assoc.
Qed.

Lemma url_of_segments_split_witness :
  Forall (fun p => ~ In slash p) [js "users"; js "42"]
  /\ split_on slash (url_of_segments [js "users"; js "42"])
     = [[]; js "users"; js "42"].
Proof.
  assert (H : Forall (fun p => ~ In slash p) [js "users"; js "42"]).
  { repeat constructor; intros H; vm_compute in H; intuition discriminate. }
  split; [exact H|]. exact (proj1 (proj2 (url_of_segments_split _ H))).
Defined.

(** ** The type [ExtractPathParams] and the guard [validateParams] *)

(** X17: the type [ExtractPathParams<Path>] has one member for each segment of
    [Path] that starts with [':'], the rest of the segment.  For a template
    whose segments are each without [':'] or a [':'] followed by one or more
    word characters these are the names [getParamNames] gives, and
    [validateParams], which narrows to [PathParams<Path>], answers [true]
    exactly when the object has, as an own or as an inherited property, a
    value other than [undefined] and [null] under every member of the type.
    For an object that inherits no property under a member of the type, that
    is: exactly when it has such a value of its own under every member. *)
Theorem validateParams_guards_type_params (Path : jsstring)
  (H : template_ok Path = true) :
  ExtractPathParams Path = flat_map ExtractParamFromSegment (split_on slash Path)
  /\ ExtractPathParams Path = getParamNames Path
  /\ (forall params,
        validateParams Path params = true <->
        forall K, In K (ExtractPathParams Path) ->
          exists v, get_property K params = Some v /\ is_nullish v = false)
  /\ (forall params,
        (forall K, In K (ExtractPathParams Path) ->
           lookup K (prototypes params) = None) ->
        (validateParams Path params = true <->
         forall K, In K (ExtractPathParams Path) ->
           exists v, obj_get K (own params) = Some v /\ is_nullish v = false)).
Proof.
  assert (E : ExtractPathParams Path
              = flat_map ExtractParamFromSegment (split_on slash Path)).
  { unfold ExtractPathParams. rewrite ExtractPathParams_from_split.
    destruct (split_on_cons slash Path) as (s & rest & ->). reflexivity. }
  assert (G : ExtractPathParams Path = getParamNames Path).
  { rewrite E, (getParamNames_template_ok _ H). reflexivity. }
  assert (V : forall params,
            validateParams Path params = true <->
            forall K, In K (ExtractPathParams Path) ->
              exists v, get_property K params = Some v /\ is_nullish v = false).
  { intros params. rewrite G. unfold validateParams, getParamNames.
    apply all_provided_iff. }
  split; [exact E|]. split; [exact G|]. split; [exact V|].
  intros params Hp. rewrite V.
  split; intros Hall K HK; destruct (Hall K HK) as (v & Hv & Hn);
    exists v; (split; [|exact Hn]).
  - now rewrite <- (get_property_own _ _ (Hp K HK)).
  - now rewrite (get_property_own _ _ (Hp K HK)).
Qed.

Lemma validateParams_guards_type_params_witness :
  template_ok (js "users/:userId") = true
  /\ ExtractPathParams (js "users/:userId") = getParamNames (js "users/:userId")
  /\ validateParams (js "users/:userId") (plain_object [(js "userId", Str (js "42"))])
     = true.
Proof.
  split; [reflexivity|]. split; [|reflexivity].
  exact (proj1 (proj2 (validateParams_guards_type_params (js "users/:userId") eq_refl))).
Defined.

(** ** The types over route trees *)

Lemma JoinPath_empty_r (A : jsstring) : JoinPath A [] = A.
Proof. now destruct A. Qed.

Lemma BuildRoutePaths_children (P : jsstring) (C : list Route) (Prefix : jsstring) :
  BuildRoutePaths_route (MkRoute (Some P) (Some C)) Prefix
  = JoinPath Prefix P :: BuildRoutePaths C (JoinPath Prefix P).
Proof.
  simpl. f_equal. induction C as [|c cs IH]; simpl; [reflexivity | now rewrite IH].
Qed.

Lemma ExtractAllPaths_child_prefix (P Prefix : jsstring) :
  (if str_eqb P [] then Prefix else JoinPath Prefix P) = JoinPath Prefix P.
Proof.
  destruct (str_eqb P []) eqn:E; [|reflexivity].
  apply str_eqb_eq in E; subst P. now rewrite JoinPath_empty_r.
Qed.

Lemma ExtractAllPaths_own (P Prefix x : jsstring) (leaf : bool) :
  In x (if str_eqb P []
        then (if str_eqb Prefix [] then (if leaf then [[]] else []) else [Prefix])
        else [JoinPath Prefix P])
  -> x = JoinPath Prefix P.
Proof.
  destruct (str_eqb P []) eqn:E.
  - apply str_eqb_eq in E; subst P. rewrite JoinPath_empty_r.
    destruct (str_eqb Prefix []) eqn:F.
    + apply str_eqb_eq in F; subst Prefix.
      destruct leaf; [intros [<-|[]]; reflexivity | intros []].
    + intros [<-|[]]. reflexivity.
  - intros [<-|[]]. reflexivity.
Qed.

Lemma ExtractAllPaths_own_nonempty (P Prefix : jsstring) (leaf : bool) :
  JoinPath Prefix P <> [] ->
  In (JoinPath Prefix P)
     (if str_eqb P []
      then (if str_eqb Prefix [] then (if leaf then [[]] else []) else [Prefix])
      else [JoinPath Prefix P]).
Proof.
  intros Hne. destruct (str_eqb P []) eqn:E; [|now left].
  apply str_eqb_eq in E; subst P. rewrite JoinPath_empty_r in *.
  destruct (str_eqb Prefix []) eqn:F; [|now left].
  apply str_eqb_eq in F. contradiction.
Qed.

Lemma Extract_Build_route (r : Route) :
  forall Prefix x,
    (In x (ExtractAllPaths_route r Prefix) -> In x (BuildRoutePaths_route r Prefix))
    /\ (In x (BuildRoutePaths_route r Prefix) -> x <> [] ->
        In x (ExtractAllPaths_route r Prefix)).
Proof.
  induction r as [path | path cs IH] using Route_nested_ind; intros Prefix x.
  - destruct path as [P|]; [|split; simpl; [intros [] | intros []]].
    cbn [ExtractAllPaths_route BuildRoutePaths_route]. split.
    + intros H. left. symmetry. exact (ExtractAllPaths_own P Prefix x true H).
    + intros [<-|[]] Hne. exact (ExtractAllPaths_own_nonempty P Prefix true Hne).
  - destruct path as [P|]; [|split; simpl; [intros [] | intros []]].
    rewrite ExtractAllPaths_children, BuildRoutePaths_children,
      ExtractAllPaths_child_prefix.
    assert (Hcs : forall y,
              (In y (ExtractAllPaths cs (JoinPath Prefix P)) ->
               In y (BuildRoutePaths cs (JoinPath Prefix P)))
              /\ (In y (BuildRoutePaths cs (JoinPath Prefix P)) -> y <> [] ->
                  In y (ExtractAllPaths cs (JoinPath Prefix P)))).
    { intros y. induction IH as [|c cs' Hc _ IHcs]; [split; [intros [] | intros []]|].
      cbn [ExtractAllPaths BuildRoutePaths]. rewrite !in_app_iff.
      destruct (Hc (JoinPath Prefix P) y) as [H1 H2]. destruct IHcs as [H3 H4].
      split; [intros [H|H]; auto | intros [H|H] Hne; auto]. }
    rewrite in_app_iff. cbn [In]. split.
    + intros [H|H].
      * left. symmetry. exact (ExtractAllPaths_own P Prefix x false H).
      * right. now apply Hcs.
    + intros [<-|H] Hne.
      * left. exact (ExtractAllPaths_own_nonempty P Prefix false Hne).
      * right. now apply Hcs.
Qed.

(** X18: the two types that list the paths of a route tree, [ExtractAllPaths]
    of the registry and [BuildRoutePaths], have the same members apart from
    the empty path: every member of [ExtractAllPaths] is one of
    [BuildRoutePaths], and every member of [BuildRoutePaths] other than the
    empty path is one of [ExtractAllPaths].  The paths of the routes of the
    list itself, [GetRoutePaths], are members of [BuildRoutePaths] with the
    empty prefix. *)
Theorem BuildRoutePaths_vs_ExtractAllPaths (TRoutes : list Route) (Prefix : jsstring) :
  (forall x, In x (ExtractAllPaths TRoutes Prefix) ->
             In x (BuildRoutePaths TRoutes Prefix))
  /\ (forall x, In x (BuildRoutePaths TRoutes Prefix) -> x <> [] ->
                In x (ExtractAllPaths TRoutes Prefix))
  /\ (forall x, In x (GetRoutePaths TRoutes) -> In x (BuildRoutePaths TRoutes [])).
Proof.
  split; [|split].
  - induction TRoutes as [|r rs IH]; intros x; [intros []|].
    cbn [ExtractAllPaths BuildRoutePaths]. rewrite !in_app_iff.
    intros [H|H]; [left; now apply Extract_Build_route | right; auto].
  - induction TRoutes as [|r rs IH]; intros x; [intros []|].
    cbn [ExtractAllPaths BuildRoutePaths]. rewrite !in_app_iff.
    intros [H|H] Hne; [left; now apply Extract_Build_route | right; auto].
  - induction TRoutes as [|r rs IH]; intros x; [intros []|].
    destruct r as [[P|] [C|]]; cbn [GetRoutePaths BuildRoutePaths];
      rewrite ?BuildRoutePaths_children; cbn [BuildRoutePaths_route app In];
      rewrite ?in_app_iff; try (intros [<-|H]; [now left | auto]); auto.
Qed.

Lemma GetFullPath_children (P : jsstring) (C : list Route) (TargetPath Prefix : jsstring) :
  GetFullPath_route (MkRoute (Some P) (Some C)) TargetPath Prefix
  = if str_eqb TargetPath P then (true, [JoinPath Prefix P])
    else (false, GetFullPath C TargetPath (JoinPath Prefix P)).
Proof.
  simpl. destruct (str_eqb TargetPath P); [reflexivity|]. f_equal.
  induction C as [|c cs IH]; simpl; [reflexivity|]. now rewrite IH.
Qed.

Lemma FindRoute_children (P : jsstring) (C : list Route) (TargetPath : jsstring) :
  FindRoute_route (MkRoute (Some P) (Some C)) TargetPath
  = if str_eqb TargetPath P then Some (MkRoute (Some P) (Some C))
    else FindRoute C TargetPath.
Proof.
  simpl. destruct (str_eqb TargetPath P); [reflexivity|].
  induction C as [|c cs IH]; simpl; [reflexivity|]. now rewrite IH.
Qed.

Lemma InTree_single (r' r : Route) (rs : list Route) :
  InTree r' [r] -> In r rs -> InTree r' rs.
Proof.
  intros H Hin. inversion H as [? ? H1 | ? path cs ? H1 H2]; subst.
  - destruct H1 as [<-|[]]. now apply InTree_here.
  - destruct H1 as [->|[]]. now apply (InTree_below r' path cs).
Qed.

Lemma InTree_tail (r' r : Route) (rs : list Route) :
  InTree r' rs -> InTree r' (r :: rs).
Proof.
  intros H. inversion H as [? ? H1 | ? path cs ? H1 H2]; subst.
  - apply InTree_here. now right.
  - apply (InTree_below r' path cs); [now right | exact H2].
Qed.

Lemma FindRoute_sound_from (TargetPath : jsstring) (rs : list Route) :
  Forall (fun r => forall r', FindRoute_route r TargetPath = Some r' ->
                     route_path r' = Some TargetPath /\ InTree r' [r]) rs ->
  forall r', FindRoute rs TargetPath = Some r' ->
    route_path r' = Some TargetPath /\ InTree r' rs.
Proof.
  induction 1 as [|r rs Hr _ IH]; intros r'; [discriminate|].
  cbn [FindRoute]. destruct (FindRoute_route r TargetPath) as [f|] eqn:E.
  - intros H. injection H as <-. destruct (Hr _ eq_refl) as [H1 H2].
    split; [exact H1|]. apply (InTree_single f r); [exact H2 | now left].
  - intros H. destruct (IH _ H) as [H1 H2]. split; [exact H1|].
    now apply InTree_tail.
Qed.

Lemma FindRoute_route_sound (TargetPath : jsstring) (r : Route) :
  forall r', FindRoute_route r TargetPath = Some r' ->
    route_path r' = Some TargetPath /\ InTree r' [r].
Proof.
  induction r as [path | path cs IH] using Route_nested_ind; intros r'.
  - destruct path as [P|]; [|discriminate]. cbn [FindRoute_route].
    destruct (str_eqb TargetPath P) eqn:E; [|discriminate].
    apply str_eqb_eq in E; subst P. intros H. injection H as <-.
    split; [reflexivity|]. apply InTree_here. now left.
  - destruct path as [P|]; [|discriminate]. rewrite FindRoute_children.
    destruct (str_eqb TargetPath P) eqn:E.
    + apply str_eqb_eq in E; subst P. intros H. injection H as <-.
      split; [reflexivity|]. apply InTree_here. now left.
    + intros H. destruct (FindRoute_sound_from TargetPath cs IH _ H) as [H1 H2].
      split; [exact H1|].
      apply (InTree_below r' (Some P) cs); [now left | exact H2].
Qed.

Lemma GetFullPath_agrees_from (TargetPath : jsstring) (rs : list Route) :
  Forall (GetFullPath_agrees TargetPath) rs ->
  forall Prefix,
    (GetFullPath rs TargetPath Prefix = [] <-> FindRoute rs TargetPath = None)
    /\ (forall x, In x (GetFullPath rs TargetPath Prefix) ->
          In x (BuildRoutePaths rs Prefix) /\ exists q, x = JoinPath q TargetPath).
Proof.
  induction 1 as [|r rs Hr _ IH]; intros Prefix.
  - split; [split; reflexivity | intros x []].
  - cbn [GetFullPath FindRoute BuildRoutePaths].
    destruct (Hr Prefix) as (Ha & Hb & Hc). destruct (IH Prefix) as [IH1 IH2].
    destruct (GetFullPath_route r TargetPath Prefix) as [hit found].
    cbn [fst snd] in Ha, Hb, Hc. destruct hit.
    + destruct (Ha eq_refl) as [Hne Hf]. split.
      * destruct (FindRoute_route r TargetPath); [|congruence].
        split; [intros H; contradiction | discriminate].
      * intros x Hx. destruct (Hc x Hx) as [H1 H2]. split; [|exact H2].
        apply in_or_app. now left.
    + specialize (Hb eq_refl). split.
      * destruct (FindRoute_route r TargetPath) as [f|].
        -- split; [|discriminate]. intros H. apply app_eq_nil in H as [H _].
           apply Hb in H. discriminate.
        -- rewrite <- IH1. assert (E : found = []) by now apply Hb.
           now rewrite E.
      * intros x Hx. apply in_app_or in Hx as [Hx|Hx].
        -- destruct (Hc x Hx) as [H1 H2]. split; [|exact H2].
           apply in_or_app. now left.
        -- destruct (IH2 x Hx) as [H1 H2]. split; [|exact H2].
           apply in_or_app. now right.
Qed.

Lemma GetFullPath_route_agrees (TargetPath : jsstring) (r : Route) :
  GetFullPath_agrees TargetPath r.
Proof.
  induction r as [path | path cs IH] using Route_nested_ind; intros Prefix.
  - destruct path as [P|];
      [|cbn; split; [discriminate | split; [tauto | intros x []]]].
    cbn [GetFullPath_route FindRoute_route BuildRoutePaths_route].
    destruct (str_eqb TargetPath P) eqn:E; cbn [fst snd].
    + apply str_eqb_eq in E; subst P.
      split; [intros _; split; discriminate|]. split; [discriminate|].
      intros x [<-|[]]. split; [now left | now exists Prefix].
    + split; [discriminate|]. split; [tauto | intros x []].
  - destruct path as [P|];
      [|cbn; split; [discriminate | split; [tauto | intros x []]]].
    rewrite GetFullPath_children, FindRoute_children, BuildRoutePaths_children.
    destruct (str_eqb TargetPath P) eqn:E; cbn [fst snd].
    + apply str_eqb_eq in E; subst P.
      split; [intros _; split; discriminate|]. split; [discriminate|].
      intros x [<-|[]]. split; [now left | now exists Prefix].
    + destruct (GetFullPath_agrees_from TargetPath cs IH (JoinPath Prefix P))
        as [H1 H2].
      split; [discriminate|]. split; [intros _; exact H1|].
      intros x Hx. destruct (H2 x Hx) as [H3 H4]. split; [now right | exact H4].
Qed.

(** X19: the types [FindRoute] and [GetFullPath] of the registry look for a
    route by its own path, not by its full path.  [GetFullPath] is [never]
    exactly when [FindRoute] is; the route [FindRoute] gives is a route of
    the tree whose own path is the target; and every member of [GetFullPath]
    is a member of [BuildRoutePaths] that is the join of a prefix and the
    target. *)
Theorem GetFullPath_agrees_with_FindRoute (TRoutes : list Route)
  (TargetPath Prefix : jsstring) :
  (GetFullPath TRoutes TargetPath Prefix = [] <-> FindRoute TRoutes TargetPath = None)
  /\ (forall r, FindRoute TRoutes TargetPath = Some r ->
        route_path r = Some TargetPath /\ InTree r TRoutes)
  /\ (forall x, In x (GetFullPath TRoutes TargetPath Prefix) ->
        In x (BuildRoutePaths TRoutes Prefix) /\ exists q, x = JoinPath q TargetPath).
Proof.
  assert (HG : Forall (GetFullPath_agrees TargetPath) TRoutes).
  { apply Forall_forall. intros r _. apply GetFullPath_route_agrees. }
  assert (HF : Forall (fun r => forall r', FindRoute_route r TargetPath = Some r' ->
                         route_path r' = Some TargetPath /\ InTree r' [r]) TRoutes).
  { apply Forall_forall. intros r _. apply FindRoute_route_sound. }
  destruct (GetFullPath_agrees_from TargetPath TRoutes HG Prefix) as [H1 H2].
  split; [exact H1|]. split; [|exact H2].
  exact (FindRoute_sound_from TargetPath TRoutes HF).
Qed.

(** ** The type [NormalizePath] *)

Lemma removelast_cons_length (c : N) (r : jsstring) :
  length (removelast (c :: r)) = length r.
Proof.
  revert c. induction r as [|d r IH]; intros c; [reflexivity|].
  change (removelast (c :: d :: r)) with (c :: removelast (d :: r)).
  cbn [length]. now rewrite IH.
Qed.

Lemma ends_with_slash_removelast (T : jsstring) :
  ends_with_slash T = true -> T = removelast T ++ [slash].
Proof.
  induction T as [|c r IH]; [discriminate|].
  destruct r as [|d r].
  - cbn [ends_with_slash]. intros H. apply N.eqb_eq in H. now subst c.
  - intros H. change (removelast (c :: d :: r)) with (c :: removelast (d :: r)).
    cbn [app]. f_equal. now apply IH.
Qed.

Lemma NormalizePath_steps_fixed (R : jsstring) (fuel : nat) :
  startsWith [slash] R = false -> ends_with_slash R = false ->
  NormalizePath_steps fuel R = R.
Proof.
  intros Hs He. destruct fuel as [|n]; [reflexivity|].
  destruct R as [|c r]; [reflexivity|]. cbn [NormalizePath_steps].
  rewrite startsWith_single, N.eqb_sym in Hs. now rewrite Hs, He.
Qed.

Lemma NormalizePath_steps_trims (fuel : nat) :
  forall T, (length T <= fuel)%nat ->
    startsWith [slash] (NormalizePath_steps fuel T) = false
    /\ ends_with_slash (NormalizePath_steps fuel T) = false
    /\ exists i j,
         T = repeat slash i ++ NormalizePath_steps fuel T ++ repeat slash j.
Proof.
  induction fuel as [|n IH]; intros T Hlen.
  - destruct T; [|cbn [length] in Hlen; lia].
    repeat split. now exists 0%nat, 0%nat.
  - destruct T as [|c Rest]; [repeat split; now exists 0%nat, 0%nat|].
    cbn [NormalizePath_steps]. cbn [length] in Hlen.
    destruct (N.eqb c slash) eqn:Ec.
    + apply N.eqb_eq in Ec; subst c.
      destruct (IH Rest ltac:(lia)) as (H1 & H2 & i & j & E).
      split; [exact H1|]. split; [exact H2|].
      exists (S i), j. cbn [repeat app]. now rewrite <- E.
    + destruct (ends_with_slash (c :: Rest)) eqn:Ee.
      * assert (Hl : (length (removelast (c :: Rest)) <= n)%nat)
          by (rewrite removelast_cons_length; lia).
        destruct (IH _ Hl) as (H1 & H2 & i & j & E).
        split; [exact H1|]. split; [exact H2|].
        exists i, (S j). rewrite (ends_with_slash_removelast _ Ee) at 1.
        rewrite E at 1. rewrite <- !app_assoc. do 2 f_equal.
        symmetry. apply (repeat_cons j slash).
      * split; [rewrite startsWith_single, N.eqb_sym; exact Ec|].
        split; [exact Ee|].
        exists 0%nat, 0%nat. cbn [repeat app]. now rewrite app_nil_r.
Qed.

Lemma NormalizePath_steps_enough (n : nat) :
  forall m T, (length T <= n)%nat -> (length T <= m)%nat ->
    NormalizePath_steps n T = NormalizePath_steps m T.
Proof.
  induction n as [|n IH]; intros m T Hn Hm.
  - destruct T; [|cbn [length] in Hn; lia]. now destruct m.
  - destruct T as [|c Rest]; [now destruct m|].
    destruct m as [|m]; [cbn [length] in Hm; lia|].
    cbn [NormalizePath_steps]. cbn [length] in Hn, Hm.
    destruct (N.eqb c slash); [apply IH; lia|].
    destruct (ends_with_slash (c :: Rest)); [|reflexivity].
    apply IH; rewrite removelast_cons_length; lia.
Qed.

(** X20: [NormalizePath<T>] is [T] without the ['/'] at its front and at its
    end: the result neither starts nor ends with ['/'], and [T] is the
    result with some number of ['/'] before and after it.  Normalizing twice
    gives nothing new, and the recursion of the type comes to its end within
    as many steps as [T] is long. *)
Theorem NormalizePath_trims_slashes (T : jsstring) :
  startsWith [slash] (NormalizePath T) = false
  /\ ends_with_slash (NormalizePath T) = false
  /\ (exists i j, T = repeat slash i ++ NormalizePath T ++ repeat slash j)
  /\ NormalizePath (NormalizePath T) = NormalizePath T
  /\ (forall fuel, (length T <= fuel)%nat ->
        NormalizePath_steps fuel T = NormalizePath T).
Proof.
  destruct (NormalizePath_steps_trims (length T) T (le_n _)) as (H1 & H2 & H3).
  split; [exact H1|]. split; [exact H2|]. split; [exact H3|]. split.
  - unfold NormalizePath at 1. now apply NormalizePath_steps_fixed.
  - intros fuel Hf. unfold NormalizePath.
    apply NormalizePath_steps_enough; [exact Hf | apply le_n].
Qed.

(** ** [getPath], [serializePath] and [createUrl] of the router service *)

(** X21: without parameters [serializePath] returns the path with a leading
    ['/'] unless it has one, while [getPath] always puts a ['/'] in front:
    the two agree exactly on the paths that do not start with ['/'].
    [createUrl] without query parameters, or with an empty object of them,
    is [serializePath]. *)
Theorem serializePath_vs_getPath (path : jsstring) :
  serializePath path None = Returns (with_leading_slash path)
  /\ (serializePath path None = Returns (getPath path)
      <-> startsWith [slash] path = false)
  /\ (forall (number : Type) (Number_toString : number -> jsstring) params,
        createUrl Number_toString path params None = serializePath path params
        /\ createUrl Number_toString path params (Some [])
           = serializePath path params).
Proof.
  assert (E : serializePath path None = Returns (with_leading_slash path)).
  { unfold serializePath, buildPath, with_leading_slash. cbn [substitute bind].
    now destruct (startsWith [slash] path). }
  split; [exact E|]. split.
  - rewrite E. unfold with_leading_slash, getPath.
    destruct (startsWith [slash] path) eqn:S.
    + split; [|discriminate]. intros H. injection H as H.
      exfalso. apply (f_equal (@length N)) in H. cbn [length] in H. lia.
    + split; reflexivity.
  - intros number Number_toString params. unfold createUrl, serializePath, buildUrl.
    destruct (buildPath path match params with Some p => p | None => [] end);
      split; reflexivity.
Qed.

(** ** [queryParamBoolean] *)

Lemma toLowerCase_compare (v : jsstring) :
  forall l w, toLowerCase v = Some l -> map lower_ascii w = w ->
    str_eqb l w = same_ignoring_case v w.
Proof.
  induction v as [|c r IH]; intros l w Hl Hw.
  - injection Hl as <-. now destruct w.
  - cbn [toLowerCase] in Hl. destruct (N.ltb c 128); [|discriminate].
    destruct (toLowerCase r) as [l'|] eqn:E; [|discriminate].
    injection Hl as <-. destruct w as [|y w']; [reflexivity|].
    cbn [map] in Hw. injection Hw as Hy Hw'.
    cbn [str_eqb same_ignoring_case]. rewrite Hy. f_equal. now apply IH.
Qed.

(** X22: the transform of [queryParamBoolean] uses the default only when the
    parameter is absent.  For a value that is present, of ASCII code units,
    the answer does not depend on the default: it is [true] exactly when the
    value is [true], [1] or [yes] in any mix of upper and lower case, and so
    [false] for the empty value, whatever the default. *)
Theorem queryParamBoolean_ignores_default_when_present (defaultValue : bool)
  (value : jsstring) :
  queryParamBoolean_transform defaultValue None = Some defaultValue
  /\ queryParamBoolean_transform defaultValue (Some value)
     = queryParamBoolean_transform (negb defaultValue) (Some value)
  /\ (queryParamBoolean_transform defaultValue (Some value) = Some true
      <-> (exists l, toLowerCase value = Some l)
          /\ existsb (same_ignoring_case value) [js "true"; js "1"; js "yes"] = true)
  /\ queryParamBoolean_transform defaultValue (Some []) = Some false.
Proof.
  split; [reflexivity|]. split; [reflexivity|]. split; [|reflexivity].
  unfold queryParamBoolean_transform.
  destruct (toLowerCase value) as [l|] eqn:E.
  - cbn [existsb].
    rewrite !(toLowerCase_compare value l _ E) by reflexivity.
    split.
    + intros H. injection H as H. split; [now exists l | exact H].
    + intros [_ H]. now rewrite H.
  - split; [discriminate | intros [[l H] _]; discriminate].
Qed.
